(** * Realtime playground: event processor and conversation session

    A shallow embedding of
      - [src/lib/EventProcessor.ts]  (listener registry, [triggerEvent],
        [handleError]),
      - [src/lib/protocols/RealtimeApiEventProcessor.ts]  (interrupt cursor,
        audio / text filtering, [parseResponseId]),
      - [src/lib/Conversation.ts]  ([sendEvent], [endSession], [setVolume],
        [fadeOutAudio]; the handlers of the socket and of the capture
        worklet),
      - [src/lib/Audio.ts]  (the base64 transport of audio buffers),
      - [ConversationFactory]  (the registration of the handlers of a
        configuration),
      - the updates of the message list of the page,
    followed by the properties of the design document that are about them,
    and by further properties of the code.

    JavaScript numbers are IEEE 754 binary64 values; they are modelled by
    [spec_float] of the Standard Library at precision 53 and maximal
    exponent 1024, so that NaN, the infinities and the two zeros behave as
    they do in the engine. *)

From Stdlib Require Import ZArith Lia Bool List Ascii String SpecFloat.
From Stdlib Require Import DecimalString DecimalN.
From stdpp Require Import base strings list gmap.

Local Open Scope string_scope.
Local Open Scope list_scope.

(** ** JavaScript numbers *)

Module JS.

Abbreviation number := spec_float.

Definition prec : Z := 53.
Definition emax : Z := 1024.

Definition NaN : number := S754_nan.
Definition zero : number := S754_zero false.

(** The number denoted by an integer literal. *)
Definition of_Z (z : Z) : number := binary_normalize prec emax z 0 false.

(** [a <= b], [a < b], [a > b] and [a === b] on numbers: every comparison
    with NaN is false. *)
Definition num_le (a b : number) : bool := SFleb a b.
Definition num_lt (a b : number) : bool := SFltb a b.
Definition num_gt (a b : number) : bool := SFltb b a.
Definition num_eq (a b : number) : bool := SFeqb a b.

Definition isNaN (a : number) : bool :=
  match a with S754_nan => true | _ => false end.

Definition isFinite (a : number) : bool :=
  match a with S754_zero _ | S754_finite _ _ _ => true | _ => false end.

(** [Math.min] and [Math.max] of two arguments: NaN if either argument is
    NaN; -0 is smaller than +0. *)
Definition Math_min (a b : number) : number :=
  match a, b with
  | S754_nan, _ | _, S754_nan => S754_nan
  | S754_zero sa, S754_zero sb => S754_zero (sa || sb)
  | _, _ => if SFltb b a then b else a
  end.

Definition Math_max (a b : number) : number :=
  match a, b with
  | S754_nan, _ | _, S754_nan => S754_nan
  | S754_zero sa, S754_zero sb => S754_zero (sa && sb)
  | _, _ => if SFltb a b then b else a
  end.

(** *** Decimal literals

    The value [m * 10^k] rounded to the nearest binary64 number, ties to
    even: the rounding the engine applies to the mathematical value of a
    decimal literal. *)
Definition round_decimal (neg : bool) (m : positive) (k : Z) : number :=
  match k with
  | Zneg p =>
      let '(q, e, l) :=
        SFdiv_core_binary prec emax (Zpos m) 0 (Zpos (Pos.pow 10 p)) 0 in
      binary_round_aux prec emax neg q e l
  | _ => binary_round prec emax neg (m * Z.to_pos (10 ^ k)) 0
  end.

Definition decimal (neg : bool) (m : N) (k : Z) : number :=
  match m with
  | N0 => S754_zero neg
  | Npos p => round_decimal neg p k
  end.

(** *** [parseFloat]

    Strings are sequences of code units below 256.  [parseFloat] skips
    leading white space and line terminators, then reads the longest
    prefix that is a [StrDecimalLiteral]:
      sign?  ( Infinity | digits [. digits?] exp? | . digits exp? )
    where [exp] is [e] or [E], an optional sign and at least one digit.
    No such prefix: NaN. *)

Definition isWhiteSpace (c : ascii) : bool :=
  let n := N_of_ascii c in
  ((9 <=? n) && (n <=? 13) || (n =? 32) || (n =? 160))%N.

Definition digitValue (c : ascii) : option N :=
  let n := N_of_ascii c in
  if ((48 <=? n) && (n <=? 57))%N then Some (n - 48)%N else None.

Fixpoint trimStart (s : string) : string :=
  match s with
  | String c r => if isWhiteSpace c then trimStart r else s
  | EmptyString => s
  end.

(** [readDigits acc n s]: the digits at the head of [s] appended to the
    numeral [acc]; returns the numeral, the number of digits read after
    the [n] already counted, and the rest of the string. *)
Fixpoint readDigits (acc : N) (n : nat) (s : string) : N * nat * string :=
  match s with
  | String c r =>
      match digitValue c with
      | Some d => readDigits (10 * acc + d)%N (S n) r
      | None => (acc, n, s)
      end
  | EmptyString => (acc, n, s)
  end.

Definition readSign (s : string) : bool * string :=
  match s with
  | String "-" r => (true, r)
  | String "+" r => (false, r)
  | _ => (false, s)
  end.

(** The exponent part, when one is complete at the head of [s]; 0
    otherwise ([1e] and [1e+] read as [1]). *)
Definition readExponent (s : string) : Z :=
  match s with
  | String c r =>
      if (Ascii.eqb c "e" || Ascii.eqb c "E")%bool then
        let '(neg, r') := readSign r in
        let '(x, n, _) := readDigits 0 0 r' in
        match n with
        | O => 0%Z
        | S _ => if neg then (- Z.of_N x)%Z else Z.of_N x
        end
      else 0%Z
  | EmptyString => 0%Z
  end.

Definition parseFloat (input : string) : number :=
  let '(neg, s) := readSign (trimStart input) in
  if String.prefix "Infinity" s then S754_infinity neg
  else
    let '(ip, ni, s1) := readDigits 0 0 s in
    let '(m, nf, s2) :=
      match s1 with
      | String "." r => readDigits ip 0 r
      | _ => (ip, O, s1)
      end in
    match ni, nf with
    | O, O => NaN
    | _, _ => decimal neg m (readExponent s2 - Z.of_nat nf)
    end.

(** *** [String.prototype.split] with a one-character separator, and
    indexing of the resulting array ([None] is [undefined]). *)
Fixpoint split (sep : ascii) (s : string) : list string :=
  match s with
  | EmptyString => [EmptyString]
  | String c r =>
      if Ascii.eqb c sep then EmptyString :: split sep r
      else
        match split sep r with
        | h :: t => String c h :: t
        | [] => [String c EmptyString]
        end
  end.

(** [String.prototype.includes] with a one-character argument. *)
Fixpoint includes (c : ascii) (s : string) : bool :=
  match s with
  | EmptyString => false
  | String c' r => (Ascii.eqb c' c || includes c r)%bool
  end.

(** [x || d] on an optional string: [undefined] and the empty string are
    falsy. *)
Definition or_default (x : option string) (d : string) : string :=
  match x with
  | None | Some EmptyString => d
  | Some s => s
  end.

End JS.

(** ** Events, thrown values and observable effects *)

(** [RealtimeError] of [types/RealtimeApiEvents.ts]. *)
Record RealtimeError := {
  error_type : string;
  error_code : option string;
  error_message : string
}.

(** A server or internal event as the processors see it: the discriminator,
    the fields they read ([response_id], [delta]), the [error] record of an
    error event, and the other fields of the declared interface carried as
    an opaque text.  A field the interface of the event does not declare is
    the empty string. *)
Record Event := {
  ev_type : string;
  event_id : string;
  response_id : string;
  delta : string;
  error : option RealtimeError;
  rest : string
}.

(** A client event handed to [sendEvent]. *)
Record ClientEvent := {
  cev_type : string;
  cev_event_id : string;
  cev_body : string
}.

(** An object raised by [throw]: what the handlers read from it is its
    [message] property ([None] when the object has none) and, where it is
    turned into a text, its name.  A primitive value other than
    [undefined] and [null] reads as an object without a message. *)
Record Thrown := {
  thrown_name : string;
  thrown_message : option string
}.

(** What a [catch] clause receives: [throw] raises any value, and
    [undefined] and [null] are the two that have no property to read. *)
Inductive Caught :=
  | Undefined
  | Null
  | Obj (o : Thrown).
Coercion Obj : Thrown >-> Caught.

(** A registered listener: the identity of the function object and whether
    a call on a given event returns or throws, and what it throws.  A
    listener does not call back into the processor. *)
Record Listener := {
  lid : nat;
  lrun : Event -> option Caught
}.

Inductive PortMessage :=
  | MsgInterrupt
  | MsgClearInterrupted.

(** Calls that leave the modelled classes, in the order they are made.
    The sinks of the processor, the observation callback, the console, the
    transport and the worklet port are outside calls that return; time
    stamps in console texts are left out.  The calls of the two interrupt
    sinks are recorded with the value the cursor has during the call, the
    one a sink that calls [getLastInterruptTimestamp] reads: a statement
    can then tell a sink called after the cursor is set from one called
    before. *)
Inductive Effect :=
  | CallListener (l : nat) (ev : Event)
  | ConsoleError (text : string)
  | ConsoleLog (label : string) (value : JS.number)
  | ConsoleInfo (text : string)
  | ConsoleDebug (ev : ClientEvent)
  | OnAudioChunk (cb : nat) (chunk : string)
  | OnAudioInterrupt (cb : nat) (cursor : JS.number)
  | OnAudioFadeOut (cb : nat) (cursor : JS.number)
  | WsSend (ev : ClientEvent)
  | WsClose
  | OnSendEvent (cb : nat) (ev : ClientEvent)
  | StopTracks
  | PostMessage (m : PortMessage)
  | SetTimeout (ms : nat).

(** ** Statements that read and write an object, make outside calls and
    may throw *)

Inductive Completion (A : Type) :=
  | Normal (a : A)
  | Throws (e : Caught).
Arguments Normal {A} a.
Arguments Throws {A} e.

Definition M (S A : Type) : Type := S -> Completion A * S * list Effect.

Section Statements.
Context {S : Type}.

Definition ret {A} (a : A) : M S A := fun s => (Normal a, s, []).

Definition bind {A B} (m : M S A) (k : A -> M S B) : M S B :=
  fun s =>
    match m s with
    | (Normal a, s', tr) =>
        let '(r, s'', tr') := k a s' in (r, s'', tr ++ tr')
    | (Throws e, s', tr) => (Throws e, s', tr)
    end.

Definition get : M S S := fun s => (Normal s, s, []).
Definition put (s : S) : M S unit := fun _ => (Normal tt, s, []).
Definition emit (e : Effect) : M S unit := fun s => (Normal tt, s, [e]).
Definition throw {A} (e : Caught) : M S A := fun s => (Throws e, s, []).

(** [try { m } catch (error) { h error }] *)
Definition try_catch {A} (m : M S A) (h : Caught -> M S A) : M S A :=
  fun s =>
    match m s with
    | (Normal a, s', tr) => (Normal a, s', tr)
    | (Throws e, s', tr) =>
        let '(r, s'', tr') := h e s' in (r, s'', tr ++ tr')
    end.

(** [callback?.(...)] *)
Definition optionally {A} (o : option A) (f : A -> M S unit) : M S unit :=
  match o with
  | Some a => f a
  | None => ret tt
  end.

Definition when (b : bool) (m : M S unit) : M S unit :=
  if b then m else ret tt.
End Statements.

Notation "'let!' x ':=' m 'in' k" := (bind m (fun x => k))
  (at level 10, x name, m at level 100, k at level 200).
Notation "m ';;' k" := (bind m (fun _ => k))
  (at level 100, k at level 200, right associativity, only parsing).

(** What reading a property of [undefined] or [null] throws. *)
Definition cannotRead (value property : string) : Thrown :=
  {| thrown_name := "TypeError";
     thrown_message :=
       Some ("Cannot read properties of " +:+ value +:+ " (reading '"
             +:+ property +:+ "')") |}.

(** [error.message] on a caught value. *)
Definition messageOf {S} (error : Caught) : M S (option string) :=
  match error with
  | Undefined => throw (cannotRead "undefined" "message")
  | Null => throw (cannotRead "null" "message")
  | Obj o => ret (thrown_message o)
  end.

(** [collection.forEach(f)] *)
Fixpoint forEach {S A} (f : A -> M S unit) (l : list A) : M S unit :=
  match l with
  | [] => ret tt
  | x :: l' => f x ;; forEach f l'
  end.

Definition completion {S A} (r : Completion A * S * list Effect) : Completion A :=
  r.1.1.
Definition final {S A} (r : Completion A * S * list Effect) : S := r.1.2.
Definition trace {S A} (r : Completion A * S * list Effect) : list Effect := r.2.

(** The listener calls of a trace. *)
Definition listenerCalls (tr : list Effect) : list (nat * Event) :=
  omap (fun e => match e with CallListener l ev => Some (l, ev) | _ => None end) tr.

(** What the engine raises when the call stack is exhausted. *)
Definition RangeError : Thrown :=
  {| thrown_name := "RangeError";
     thrown_message := Some "Maximum call stack size exceeded" |}.

(** ** [EventProcessor] (the abstract base class) *)

Module EventProcessor.

(** [uuids] and [uuid_next] stand for [crypto.randomUUID]: the [n]-th call
    of a run returns [uuids n]. *)
Record t := {
  eventHandlers : gmap string (list Listener);
  onSendEvent : option nat;
  uuids : nat -> string;
  uuid_next : nat
}.

Definition set_eventHandlers (h : gmap string (list Listener)) (p : t) : t :=
  {| eventHandlers := h; onSendEvent := onSendEvent p;
     uuids := uuids p; uuid_next := uuid_next p |}.

Definition randomUUID : M t string :=
  fun p =>
    (Normal (uuids p (uuid_next p)),
     {| eventHandlers := eventHandlers p; onSendEvent := onSendEvent p;
        uuids := uuids p; uuid_next := S (uuid_next p) |},
     []).

(** [Set.prototype.has / add / delete] on a set of listeners kept in
    insertion order; function objects are compared by identity. *)
Definition set_has (h : Listener) (l : list Listener) : bool :=
  existsb (fun h' => Nat.eqb (lid h') (lid h)) l.
Definition set_add (h : Listener) (l : list Listener) : list Listener :=
  if set_has h l then l else l ++ [h].
Definition set_delete (h : Listener) (l : list Listener) : list Listener :=
  List.filter (fun h' => negb (Nat.eqb (lid h') (lid h))) l.

Definition on (eventType : string) (handler : Listener) (p : t) : t :=
  let m :=
    match eventHandlers p !! eventType with
    | Some _ => eventHandlers p
    | None => <[eventType := []]> (eventHandlers p)
    end in
  set_eventHandlers (alter (set_add handler) eventType m) p.

Definition off (eventType : string) (handler : Listener) (p : t) : t :=
  set_eventHandlers (alter (set_delete handler) eventType (eventHandlers p)) p.

Definition destroy (p : t) : t := set_eventHandlers ∅ p.

(** [handler(event)] *)
Definition call (handler : Listener) (event : Event) : M t unit :=
  fun p =>
    (match lrun handler event with
     | None => Normal tt
     | Some e => Throws e
     end, p, [CallListener (lid handler) event]).

Definition errorEvent (uuid : string) (message : option string) : Event :=
  {| ev_type := "error";
     event_id := uuid;
     response_id := "";
     delta := "";
     error := Some {| error_type := "error";
                      error_code := Some "internal_error";
                      error_message :=
                        JS.or_default message "Internal error occurred" |};
     rest := "" |}.

(** [console.error(`Error in event handler for ${eventType}:`, error)] *)
Definition errorLog (eventType : string) : Effect :=
  ConsoleError ("Error in event handler for " +:+ eventType +:+ ":").

(** [handleError], with the [triggerEvent] it calls as a parameter.  The
    object literal draws the identifier first and reads [error.message]
    next, which throws when the caught value is [undefined] or [null]. *)
Definition handleError_via (trigger : string -> Event -> M t unit)
    (error : Caught) : M t unit :=
  let! uuid := randomUUID in
  let! message := messageOf error in
  trigger "error" (errorEvent uuid message).

(** [triggerEvent].  [triggerEvent] and [handleError] call each other; the
    first argument bounds the nesting of these calls, as the call stack of
    the engine does, and when it is used up the call throws [RangeError].
    [handleError] runs in the [catch] block, so what it throws leaves
    [forEach] and [triggerEvent]. *)
Fixpoint triggerEvent (stack : nat) (eventType : string) (event : Event)
    {struct stack} : M t unit :=
  match stack with
  | O => throw RangeError
  | S stack' =>
      let! p := get in
      match eventHandlers p !! eventType with
      | Some handlers =>
          forEach
            (fun handler =>
               try_catch (call handler event)
                 (fun error =>
                    emit (errorLog eventType) ;;
                    handleError_via (triggerEvent stack') error))
            handlers
      | None => ret tt
      end
  end.

Definition handleError (stack : nat) (error : Caught) : M t unit :=
  handleError_via (triggerEvent stack) error.

(** The listeners registered under a key, in registration order. *)
Definition handlersOf (key : string) (p : t) : list Listener :=
  default [] (eventHandlers p !! key).

Definition with_uuid_next (n : nat) (p : t) : t :=
  {| eventHandlers := eventHandlers p; onSendEvent := onSendEvent p;
     uuids := uuids p; uuid_next := n |}.

End EventProcessor.

(** ** [RealtimeApiEventProcessor] *)

Module RealtimeApiEventProcessor.

Record t := {
  base : EventProcessor.t;
  lastInterruptTimestamp : JS.number;
  onAudioChunk : option nat;
  onAudioInterrupt : option nat;
  onAudioFadeOut : option nat
}.

(** The constructor, given the listener registry state of the base class
    and the three optional sinks of the configuration. *)
Definition new (b : EventProcessor.t) (chunk interrupt fadeOut : option nat) : t :=
  {| base := b; lastInterruptTimestamp := JS.zero;
     onAudioChunk := chunk; onAudioInterrupt := interrupt;
     onAudioFadeOut := fadeOut |}.

Definition set_base (b : EventProcessor.t) (p : t) : t :=
  {| base := b; lastInterruptTimestamp := lastInterruptTimestamp p;
     onAudioChunk := onAudioChunk p; onAudioInterrupt := onAudioInterrupt p;
     onAudioFadeOut := onAudioFadeOut p |}.

Definition set_lastInterruptTimestamp (v : JS.number) (p : t) : t :=
  {| base := base p; lastInterruptTimestamp := v;
     onAudioChunk := onAudioChunk p; onAudioInterrupt := onAudioInterrupt p;
     onAudioFadeOut := onAudioFadeOut p |}.

(** A method of the base class run on the subclass instance. *)
Definition super {A} (m : M EventProcessor.t A) : M t A :=
  fun p => let '(r, b, tr) := m (base p) in (r, set_base b p, tr).

Definition on (eventType : string) (handler : Listener) (p : t) : t :=
  set_base (EventProcessor.on eventType handler (base p)) p.

Definition off (eventType : string) (handler : Listener) (p : t) : t :=
  set_base (EventProcessor.off eventType handler (base p)) p.

Definition triggerEvent (stack : nat) (eventType : string) (event : Event) :
    M t unit :=
  super (EventProcessor.triggerEvent stack eventType event).

Definition parseResponseId (responseId : string) : JS.number :=
  JS.parseFloat (JS.or_default (JS.split "_" responseId !! 1%nat) "0").

Definition handleAudioResponse (event : Event) : M t unit :=
  let timestamp := parseResponseId (response_id event) in
  let! p := get in
  when (JS.num_le (lastInterruptTimestamp p) timestamp)
    (when (String.eqb (ev_type event) "response.audio.delta")
       (optionally (onAudioChunk p)
          (fun cb => emit (OnAudioChunk cb (delta event))))).

Definition handleAudioInterrupt (event : Event) : M t unit :=
  let! p := get in
  put (set_lastInterruptTimestamp (parseResponseId (response_id event)) p) ;;
  let! p := get in
  emit (ConsoleLog "lastInterruptTimestamp" (lastInterruptTimestamp p)) ;;
  let! p := get in
  optionally (onAudioInterrupt p)
    (fun cb => emit (OnAudioInterrupt cb (lastInterruptTimestamp p))) ;;
  let! p := get in
  optionally (onAudioFadeOut p)
    (fun cb => emit (OnAudioFadeOut cb (lastInterruptTimestamp p))).

Definition shouldFilterTextEvent (event : Event) : M t bool :=
  let! p := get in
  ret (JS.num_gt (lastInterruptTimestamp p) (parseResponseId (response_id event))).

Definition processServerEvent (stack : nat) (event : Event) : M t unit :=
  if (String.eqb (ev_type event) "response.audio.delta"
      || String.eqb (ev_type event) "response.audio.done")%bool
  then handleAudioResponse event
  else if String.eqb (ev_type event) "response.audio.cancel"
  then handleAudioInterrupt event
  else
    let! filtered :=
      if (String.eqb (ev_type event) "response.text.delta"
          || String.eqb (ev_type event) "response.text.done")%bool
      then shouldFilterTextEvent event
      else ret false in
    if filtered then ret tt
    else triggerEvent stack (ev_type event) event.

Definition processInternalEvent (stack : nat) (event : Event) : M t unit :=
  triggerEvent stack (ev_type event) event.

Definition getLastInterruptTimestamp (p : t) : JS.number :=
  lastInterruptTimestamp p.

Definition resetInterruptTimestamp (p : t) : t :=
  set_lastInterruptTimestamp JS.zero p.

Definition setAudioChunkCallback (cb : nat) (p : t) : t :=
  {| base := base p; lastInterruptTimestamp := lastInterruptTimestamp p;
     onAudioChunk := Some cb; onAudioInterrupt := onAudioInterrupt p;
     onAudioFadeOut := onAudioFadeOut p |}.

Definition setAudioInterruptCallback (cb : nat) (p : t) : t :=
  {| base := base p; lastInterruptTimestamp := lastInterruptTimestamp p;
     onAudioChunk := onAudioChunk p; onAudioInterrupt := Some cb;
     onAudioFadeOut := onAudioFadeOut p |}.

Definition setAudioFadeOutCallback (cb : nat) (p : t) : t :=
  {| base := base p; lastInterruptTimestamp := lastInterruptTimestamp p;
     onAudioChunk := onAudioChunk p; onAudioInterrupt := onAudioInterrupt p;
     onAudioFadeOut := Some cb |}.

(** The messages of the transport handed to [processServerEvent] one after
    the other, each call running to its end before the next. *)
Fixpoint processServerEvents (stack : nat) (events : list Event) : M t unit :=
  match events with
  | [] => ret tt
  | event :: events' =>
      processServerEvent stack event ;; processServerEvents stack events'
  end.

End RealtimeApiEventProcessor.

(** ** [Audio.ts]: base64 transport of audio buffers *)

Module Audio.

(** *** [window.btoa] and [window.atob]

    [btoa] maps a binary string (code units below 256) to its base64
    text.  [atob] is the forgiving base64 decoder: it removes ASCII white
    space, removes one or two trailing [=] when the length is a multiple
    of four, fails when the length is then 1 modulo 4 or when a character
    is outside the alphabet, and otherwise decodes groups of 6 bits,
    dropping the bits left over in a final group.  [None] stands for the
    [InvalidCharacterError] it throws. *)

Definition base64Char (n : N) : ascii :=
  if (n <? 26)%N then ascii_of_N (65 + n)
  else if (n <? 52)%N then ascii_of_N (97 + (n - 26))
  else if (n <? 62)%N then ascii_of_N (48 + (n - 52))
  else if (n =? 62)%N then "+"%char
  else "/"%char.

Definition base64Value (c : ascii) : option N :=
  let n := N_of_ascii c in
  if ((65 <=? n) && (n <=? 90))%N then Some (n - 65)%N
  else if ((97 <=? n) && (n <=? 122))%N then Some (n - 97 + 26)%N
  else if ((48 <=? n) && (n <=? 57))%N then Some (n - 48 + 52)%N
  else if (n =? 43)%N then Some 62%N
  else if (n =? 47)%N then Some 63%N
  else None.

(** The four 6-bit groups of three bytes, and of a final group of one or
    two bytes. *)
Definition group3 (a b c : N) : list N :=
  [a / 4; (a mod 4) * 16 + b / 16; (b mod 16) * 4 + c / 64; c mod 64]%N.
Definition group2 (a b : N) : list N :=
  [a / 4; (a mod 4) * 16 + b / 16; (b mod 16) * 4]%N.
Definition group1 (a : N) : list N :=
  [a / 4; (a mod 4) * 16]%N.

Fixpoint btoa_chars (l : list ascii) : list ascii :=
  match l with
  | [] => []
  | [a] => map base64Char (group1 (N_of_ascii a)) ++ ["="%char; "="%char]
  | [a; b] =>
      map base64Char (group2 (N_of_ascii a) (N_of_ascii b)) ++ ["="%char]
  | a :: b :: c :: r =>
      map base64Char (group3 (N_of_ascii a) (N_of_ascii b) (N_of_ascii c))
        ++ btoa_chars r
  end.

Definition btoa (binary : string) : string :=
  string_of_list_ascii (btoa_chars (list_ascii_of_string binary)).

(** The 6-bit groups [btoa] writes, and the padding that follows them. *)
Fixpoint sextetsOf (l : list ascii) : list N :=
  match l with
  | [] => []
  | [a] => group1 (N_of_ascii a)
  | [a; b] => group2 (N_of_ascii a) (N_of_ascii b)
  | a :: b :: c :: r =>
      group3 (N_of_ascii a) (N_of_ascii b) (N_of_ascii c) ++ sextetsOf r
  end.

Definition padding (l : list ascii) : list ascii :=
  match (length l mod 3)%nat with
  | 1%nat => ["="%char; "="%char]
  | 2%nat => ["="%char]
  | _ => []
  end.

Definition isAsciiWhitespace (c : ascii) : bool :=
  let n := N_of_ascii c in
  ((n =? 9) || (n =? 10) || (n =? 12) || (n =? 13) || (n =? 32))%N.

Definition stripPadding (l : list ascii) : list ascii :=
  if (length l mod 4 =? 0)%nat then
    match rev l with
    | "="%char :: "="%char :: r => rev r
    | "="%char :: r => rev r
    | _ => l
    end
  else l.

Fixpoint sextets (l : list ascii) : option (list N) :=
  match l with
  | [] => Some []
  | c :: r =>
      match base64Value c, sextets r with
      | Some v, Some vs => Some (v :: vs)
      | _, _ => None
      end
  end.

Fixpoint decodeSextets (l : list N) : list ascii :=
  match l with
  | a :: b :: c :: d :: r =>
      ascii_of_N (a * 4 + b / 16)
        :: ascii_of_N ((b mod 16) * 16 + c / 4)
        :: ascii_of_N ((c mod 4) * 64 + d)
        :: decodeSextets r
  | [a; b; c] =>
      [ascii_of_N (a * 4 + b / 16); ascii_of_N ((b mod 16) * 16 + c / 4)]
  | [a; b] => [ascii_of_N (a * 4 + b / 16)]
  | _ => []
  end%N.

Definition atob (data : string) : option string :=
  let l :=
    stripPadding
      (List.filter (fun c => negb (isAsciiWhitespace c))
                   (list_ascii_of_string data)) in
  if (length l mod 4 =? 1)%nat then None
  else
    match sextets l with
    | Some v => Some (string_of_list_ascii (decodeSextets v))
    | None => None
    end.

Definition InvalidCharacterError : Thrown :=
  {| thrown_name := "InvalidCharacterError";
     thrown_message := Some "The string to be decoded is not correctly encoded." |}.

(** *** The two functions of [Audio.ts]

    A buffer is the list of the bytes of the [Uint8Array] made from it.
    [String.fromCharCode(...buffer)] passes one argument per byte; an
    engine accepts [maxArguments] of them and throws [RangeError] beyond
    that. *)
Definition arrayBufferToBase64 {S} (maxArguments : nat) (b : list Byte.byte) :
    M S string :=
  if (length b <=? maxArguments)%nat
  then ret (btoa (string_of_list_byte b))
  else throw RangeError.

Definition base64ToArrayBuffer {S} (base64 : string) : M S (list Byte.byte) :=
  match atob base64 with
  | Some binaryString => ret (list_byte_of_string binaryString)
  | None => throw InvalidCharacterError
  end.

End Audio.

(** ** [Conversation] *)

Module Conversation.

(** The two audio devices of [Audio.ts], by what the session does with
    them: whether the [AudioContext] has been closed and, for the render
    device, the current value of [gain.gain.value] and the target of the
    ramp scheduled on it, if one is. *)
Record AudioInput := { in_closed : bool }.
Record AudioOutput := {
  out_closed : bool;
  gain_value : JS.number;
  ramp : option JS.number
}.
Record WebSocket := { url : string }.

(** [eventProcessor] is the [RealtimeApiEventProcessor] the factory hands
    to [startSession]; [timers] holds the delays of the pending
    [setTimeout] callbacks of [fadeOutAudio], oldest first. *)
Record t := {
  ws : option WebSocket;
  isConnected : bool;
  eventProcessor : RealtimeApiEventProcessor.t;
  onSendEvent : option nat;
  audioInput : option AudioInput;
  audioOutput : option AudioOutput;
  isMuted : bool;
  volume : JS.number;
  timers : list nat
}.

Definition set_ws (w : option WebSocket) (c : t) : t :=
  {| ws := w; isConnected := isConnected c; eventProcessor := eventProcessor c;
     onSendEvent := onSendEvent c; audioInput := audioInput c;
     audioOutput := audioOutput c; isMuted := isMuted c; volume := volume c;
     timers := timers c |}.

Definition set_isConnected (b : bool) (c : t) : t :=
  {| ws := ws c; isConnected := b; eventProcessor := eventProcessor c;
     onSendEvent := onSendEvent c; audioInput := audioInput c;
     audioOutput := audioOutput c; isMuted := isMuted c; volume := volume c;
     timers := timers c |}.

Definition set_eventProcessor (p : RealtimeApiEventProcessor.t) (c : t) : t :=
  {| ws := ws c; isConnected := isConnected c; eventProcessor := p;
     onSendEvent := onSendEvent c; audioInput := audioInput c;
     audioOutput := audioOutput c; isMuted := isMuted c; volume := volume c;
     timers := timers c |}.

Definition set_audioInput (a : option AudioInput) (c : t) : t :=
  {| ws := ws c; isConnected := isConnected c; eventProcessor := eventProcessor c;
     onSendEvent := onSendEvent c; audioInput := a;
     audioOutput := audioOutput c; isMuted := isMuted c; volume := volume c;
     timers := timers c |}.

Definition set_audioOutput (a : option AudioOutput) (c : t) : t :=
  {| ws := ws c; isConnected := isConnected c; eventProcessor := eventProcessor c;
     onSendEvent := onSendEvent c; audioInput := audioInput c;
     audioOutput := a; isMuted := isMuted c; volume := volume c;
     timers := timers c |}.

Definition set_volume (v : JS.number) (c : t) : t :=
  {| ws := ws c; isConnected := isConnected c; eventProcessor := eventProcessor c;
     onSendEvent := onSendEvent c; audioInput := audioInput c;
     audioOutput := audioOutput c; isMuted := isMuted c; volume := v;
     timers := timers c |}.

Definition set_timers (l : list nat) (c : t) : t :=
  {| ws := ws c; isConnected := isConnected c; eventProcessor := eventProcessor c;
     onSendEvent := onSendEvent c; audioInput := audioInput c;
     audioOutput := audioOutput c; isMuted := isMuted c; volume := volume c;
     timers := l |}.

(** A method of the event processor called on [this.eventProcessor]. *)
Definition onProcessor {A} (m : M RealtimeApiEventProcessor.t A) : M t A :=
  fun c => let '(r, p, tr) := m (eventProcessor c) in (r, set_eventProcessor p c, tr).

Definition InvalidStateError : Thrown :=
  {| thrown_name := "InvalidStateError";
     thrown_message := Some "Cannot close a closed AudioContext." |}.

Definition TypeError : Thrown :=
  {| thrown_name := "TypeError";
     thrown_message := Some "The provided float value is non-finite." |}.

Definition NotConnected : Thrown :=
  {| thrown_name := "Error";
     thrown_message := Some "WebSocket is not connected" |}.

(** [AudioContext.close()]: the promise is rejected with
    [InvalidStateError] when the context is already closed. *)
Definition contextClose (closed : bool) : M t unit :=
  if closed then throw InvalidStateError else ret tt.

(** [AudioInput.close] and [AudioOutput.close] of [Audio.ts]. *)
Definition AudioInput_close (a : AudioInput) : M t unit :=
  emit StopTracks ;;
  contextClose (in_closed a) ;;
  let! c := get in
  put (set_audioInput (Some {| in_closed := true |}) c).

Definition AudioOutput_close (a : AudioOutput) : M t unit :=
  contextClose (out_closed a) ;;
  let! c := get in
  put (set_audioOutput
         (Some {| out_closed := true; gain_value := gain_value a;
                  ramp := ramp a |}) c).

(** [this.audioOutput.gain.gain.value = v]: the attribute is a restricted
    float, the assignment of a non-finite value throws [TypeError]. *)
Definition setGainValue (a : AudioOutput) (v : JS.number) : M t unit :=
  if JS.isFinite v then
    let! c := get in
    put (set_audioOutput
           (Some {| out_closed := out_closed a; gain_value := v;
                    ramp := ramp a |}) c)
  else throw TypeError.

(** [gain.gain.exponentialRampToValueAtTime(target, currentTime + 2)] *)
Definition exponentialRampToValueAtTime (a : AudioOutput) (target : JS.number) :
    M t unit :=
  let! c := get in
  put (set_audioOutput
         (Some {| out_closed := out_closed a; gain_value := gain_value a;
                  ramp := Some target |}) c).

(** Two seconds later the scheduled ramp has reached its target. *)
Definition rampCompleted (c : t) : t :=
  match audioOutput c with
  | Some a =>
      match ramp a with
      | Some target =>
          set_audioOutput
            (Some {| out_closed := out_closed a; gain_value := target;
                     ramp := None |}) c
      | None => c
      end
  | None => c
  end.

Definition handleError (error : Caught) : M t unit :=
  let! message := messageOf error in
  emit (ConsoleError
          ("Error in conversation: " +:+
           JS.or_default message "Unknown error")).

Definition sendEvent (event : ClientEvent) : M t unit :=
  let! c := get in
  if (negb (bool_decide (is_Some (ws c))) || negb (isConnected c))%bool
  then throw NotConnected
  else
    when (negb (String.eqb (cev_type event) "input_audio_buffer.append"))
      (emit (ConsoleDebug event)) ;;
    emit (WsSend event) ;;
    when (negb (String.eqb (cev_type event) "input_audio_buffer.append"))
      (optionally (onSendEvent c) (fun cb => emit (OnSendEvent cb event))).

Definition disconnected : Event :=
  {| ev_type := "disconnected"; event_id := ""; response_id := "";
     delta := ""; error := None; rest := "" |}.

(** The [try] block of [endSession], and [endSession]. *)
Definition teardown (stack : nat) : M t unit :=
  let! c := get in
  optionally (audioInput c) AudioInput_close ;;
  let! c := get in
  optionally (audioOutput c) AudioOutput_close ;;
  let! c := get in
  when (bool_decide (is_Some (ws c)))
    (emit WsClose ;;
     let! c := get in put (set_ws None c)) ;;
  let! c := get in
  put (set_isConnected false c) ;;
  onProcessor (RealtimeApiEventProcessor.processInternalEvent stack disconnected).

Definition endSession (stack : nat) : M t unit :=
  try_catch (teardown stack) (fun error => handleError error ;; throw error).

Definition close (stack : nat) : M t unit :=
  try_catch (endSession stack) (fun error => handleError error).

(** The [onclose] handler [initializeWebSocket] installs on the socket;
    the platform calls it once the socket has closed. *)
Definition ws_onclose (stack : nat) : M t unit :=
  emit (ConsoleInfo "WebSocket connection closed") ;;
  let! c := get in
  put (set_isConnected false c) ;;
  onProcessor (RealtimeApiEventProcessor.processInternalEvent stack disconnected).

Definition setVolume (v : JS.number) : M t unit :=
  let! c := get in
  put (set_volume (JS.Math_max JS.zero (JS.Math_min (JS.of_Z 1) v)) c) ;;
  let! c := get in
  optionally (audioOutput c) (fun a => setGainValue a (volume c)).

Definition getVolume (c : t) : JS.number := volume c.

Definition getConnectionStatus (c : t) : bool := isConnected c.

Definition fadeOutAudio : M t unit :=
  let! c := get in
  match audioOutput c with
  | None => ret tt
  | Some a =>
      emit (PostMessage MsgInterrupt) ;;
      exponentialRampToValueAtTime a (JS.decimal false 1 (-4)) ;;
      emit (SetTimeout 2000) ;;
      let! c := get in
      put (set_timers (timers c ++ [2000%nat]) c)
  end.

(** The callback [fadeOutAudio] hands to [setTimeout]. *)
Definition fadeOutAudio_restore : M t unit :=
  let! c := get in
  match audioOutput c with
  | None => ret tt
  | Some a =>
      setGainValue a (volume c) ;;
      emit (PostMessage MsgClearInterrupted)
  end.

(** The event loop runs the oldest pending timer, 2000 ms after it was
    set. *)
Definition runTimer : M t unit :=
  let! c := get in
  match timers c with
  | [] => ret tt
  | _ :: l => put (set_timers l c) ;; fadeOutAudio_restore
  end.

(** The proxies [on] and [off]. *)
Definition on (eventType : string) (handler : Listener) (c : t) : t :=
  set_eventProcessor
    (RealtimeApiEventProcessor.on eventType handler (eventProcessor c)) c.

Definition off (eventType : string) (handler : Listener) (c : t) : t :=
  set_eventProcessor
    (RealtimeApiEventProcessor.off eventType handler (eventProcessor c)) c.

(** [crypto.randomUUID()], drawn from the supply the processor model
    carries. *)
Definition randomUUID : M t string :=
  onProcessor (RealtimeApiEventProcessor.super EventProcessor.randomUUID).

Definition sendAudioBuffer (maxArguments : nat) (audioData : list Byte.byte) :
    M t unit :=
  let! id := randomUUID in
  let! audio := Audio.arrayBufferToBase64 maxArguments audioData in
  sendEvent {| cev_type := "input_audio_buffer.append";
               cev_event_id := id;
               cev_body := audio |}.

(** [session] is the text of the session properties. *)
Definition updateSession (session : string) : M t unit :=
  let! id := randomUUID in
  sendEvent {| cev_type := "session.update";
               cev_event_id := id;
               cev_body := session |}.

(** The [onmessage] handler [initialize] installs on the port of the
    capture worklet. *)
Definition worklet_onmessage (maxArguments : nat)
    (rawAudioPcmData : list Byte.byte) : M t unit :=
  let! c := get in
  when (isConnected c) (sendAudioBuffer maxArguments rawAudioPcmData).

Definition connectedEvent : Event :=
  {| ev_type := "connected"; event_id := ""; response_id := "";
     delta := ""; error := None; rest := "" |}.

(** The other handlers [initializeWebSocket] installs on the socket.
    [ws_onerror] is an async function: what it throws is the rejection of
    the promise it returns; its argument is the error event of the socket,
    an object. *)
Definition ws_onopen (stack : nat) : M t unit :=
  emit (ConsoleInfo "WebSocket connection opened") ;;
  let! c := get in
  put (set_isConnected true c) ;;
  onProcessor (RealtimeApiEventProcessor.processInternalEvent stack connectedEvent).

Definition ws_onerror (error : Thrown) : M t unit :=
  emit (ConsoleError "WebSocket error:") ;;
  let! c := get in
  put (set_isConnected false c) ;;
  let! c := get in
  optionally (audioInput c) AudioInput_close ;;
  let! c := get in
  optionally (audioOutput c) AudioOutput_close ;;
  handleError error.

(** The text of a caught value in a template literal; for an object,
    [Error.prototype.toString]. *)
Definition errorToString (error : Caught) : string :=
  match error with
  | Undefined => "undefined"
  | Null => "null"
  | Obj o =>
      let msg := default "" (thrown_message o) in
      if String.eqb (thrown_name o) "" then msg
      else if String.eqb msg "" then thrown_name o
      else thrown_name o +:+ ": " +:+ msg
  end.

(** [data] is the outcome of [JSON.parse(event.data)]: the event, or what
    the parser throws. *)
Definition ws_onmessage (stack : nat) (data : Completion Event) : M t unit :=
  try_catch
    (match data with
     | Normal event =>
         onProcessor (RealtimeApiEventProcessor.processServerEvent stack event)
     | Throws error => throw error
     end)
    (fun error =>
       emit (ConsoleError "Error parsing message:") ;;
       handleError
         {| thrown_name := "Error";
            thrown_message :=
              Some ("Failed to parse message: " +:+ errorToString error) |}).

End Conversation.

(** ** The callbacks the platform runs on a session *)

Module EventLoop.

(** What can happen to a session from the moment [initialize] has
    installed its handlers: the platform running one of the handlers or
    timers, or, once [startSession] has returned the session, a call of a
    public method. *)
Inductive Operation :=
  | SocketOpened
  | SendEvent (event : ClientEvent)
  | UpdateSession (session : string)
  | EndSession
  | Close
  | SetVolume (v : JS.number)
  | FadeOutAudio
  | RampCompleted
  | RunTimer
  | On (eventType : string) (handler : Listener)
  | Off (eventType : string) (handler : Listener)
  | SocketClosed
  | SocketError (error : Thrown)
  | SocketMessage (data : Completion Event)
  | AudioFrame (rawAudioPcmData : list Byte.byte).

Definition perform (stack maxArguments : nat) (op : Operation) :
    M Conversation.t unit :=
  match op with
  | SocketOpened => Conversation.ws_onopen stack
  | SendEvent event => Conversation.sendEvent event
  | UpdateSession session => Conversation.updateSession session
  | EndSession => Conversation.endSession stack
  | Close => Conversation.close stack
  | SetVolume v => Conversation.setVolume v
  | FadeOutAudio => Conversation.fadeOutAudio
  | RampCompleted => fun c => (Normal tt, Conversation.rampCompleted c, [])
  | RunTimer => Conversation.runTimer
  | On eventType handler =>
      fun c => (Normal tt, Conversation.on eventType handler c, [])
  | Off eventType handler =>
      fun c => (Normal tt, Conversation.off eventType handler c, [])
  | SocketClosed => Conversation.ws_onclose stack
  | SocketError error => Conversation.ws_onerror error
  | SocketMessage data => Conversation.ws_onmessage stack data
  | AudioFrame rawAudioPcmData =>
      Conversation.worklet_onmessage maxArguments rawAudioPcmData
  end.

(** The state after a sequence of operations; an operation that throws
    leaves the state it had reached, and the next one runs from there. *)
Fixpoint performAll (stack maxArguments : nat) (ops : list Operation)
    (c : Conversation.t) : Conversation.t :=
  match ops with
  | [] => c
  | op :: ops' =>
      performAll stack maxArguments ops' (final (perform stack maxArguments op c))
  end.

End EventLoop.

(** ** [ConversationFactory] *)

Module ConversationFactory.

Definition mapping : list (string * string) :=
  [("onConnected", "connected");
   ("onDisconnected", "disconnected");
   ("onSpeechStart", "input_audio_buffer.speech_started");
   ("onSpeechEnd", "input_audio_buffer.speech_stopped");
   ("onTextDelta", "response.text.delta");
   ("onTextDone", "response.text.done");
   ("onAudioDelta", "response.audio.delta");
   ("onAudioDone", "response.audio.done");
   ("onError", "error");
   ("onTranscriptDelta", "conversation.item.input_audio_transcription.delta");
   ("onTranscriptComplete", "conversation.item.input_audio_transcription.completed");
   ("onTranscriptFailed", "conversation.item.input_audio_transcription.failed");
   ("onAudioTranscriptDelta", "response.audio_transcript.delta");
   ("onAudioTranscriptDone", "response.audio_transcript.done");
   ("onSessionCreated", "session.created");
   ("onSessionUpdated", "session.updated");
   ("onConversationCreated", "conversation.created");
   ("onConversationItemCreated", "conversation.item.created");
   ("onConversationItemTruncated", "conversation.item.truncated");
   ("onConversationItemDeleted", "conversation.item.deleted");
   ("onConversationItemRetrieved", "conversation.item.retrieved");
   ("onResponseCreated", "response.created");
   ("onResponseDone", "response.done");
   ("onFunctionCallArgumentsDelta", "response.function_call_arguments.delta");
   ("onFunctionCallArgumentsDone", "response.function_call_arguments.done")].

(** The properties an object literal inherits from [Object.prototype]:
    [mapping[name]] finds them when [name] is not a key of the table. *)
Definition objectPrototype : list string :=
  ["constructor"; "hasOwnProperty"; "isPrototypeOf"; "propertyIsEnumerable";
   "toLocaleString"; "toString"; "valueOf"; "__proto__";
   "__defineGetter__"; "__defineSetter__"; "__lookupGetter__";
   "__lookupSetter__"].

Fixpoint ownProperty (name : string) (table : list (string * string)) :
    option string :=
  match table with
  | [] => None
  | (k, v) :: table' =>
      if String.eqb k name then Some v else ownProperty name table'
  end.

(** The value of [mapping[eventType] || eventType]: an event-type key, or
    the inherited member found instead of one. *)
Inductive Normalized :=
  | Key (key : string)
  | Inherited (member : string).

Definition normalizeEventType (eventType : string) : Normalized :=
  match ownProperty eventType mapping with
  | Some key => Key key
  | None =>
      if existsb (String.eqb eventType) objectPrototype
      then Inherited eventType
      else Key eventType
  end.

(** The registration loop of [createRealtimeApiConversation] over the
    entries of [config.eventHandlers], in the order [Object.entries] lists
    them; [None] is a handler left undefined.  A handler whose name
    normalizes to an inherited member is stored under a key that is not a
    string, which no event type looks up: the registry of string keys is
    left as it is. *)
Definition register (p : RealtimeApiEventProcessor.t)
    (entry : string * option Listener) : RealtimeApiEventProcessor.t :=
  match entry with
  | (eventType, Some handler) =>
      match normalizeEventType eventType with
      | Key key => RealtimeApiEventProcessor.on key handler p
      | Inherited _ => p
      end
  | (_, None) => p
  end.

Definition registerHandlers (entries : list (string * option Listener))
    (p : RealtimeApiEventProcessor.t) : RealtimeApiEventProcessor.t :=
  fold_left register entries p.

(** The processor [createRealtimeApiConversation] builds before it starts
    the session: no sink, no listener, then the handlers of the
    configuration. *)
Definition eventProcessor (crypto : nat -> string) (drawn : nat)
    (onSendEvent : option nat) (entries : list (string * option Listener)) :
    RealtimeApiEventProcessor.t :=
  registerHandlers entries
    (RealtimeApiEventProcessor.new
       {| EventProcessor.eventHandlers := ∅;
          EventProcessor.onSendEvent := onSendEvent;
          EventProcessor.uuids := crypto;
          EventProcessor.uuid_next := drawn |}
       None None None).

(** The two sinks it sets once the session has started. *)
Definition setAudioCallbacks (chunk fadeOut : nat)
    (p : RealtimeApiEventProcessor.t) : RealtimeApiEventProcessor.t :=
  RealtimeApiEventProcessor.setAudioFadeOutCallback fadeOut
    (RealtimeApiEventProcessor.setAudioChunkCallback chunk p).

End ConversationFactory.

(** ** The message list of the page *)

Module Page.

Inductive MessageType := user | assistant.

Record ChatMessage := {
  content : string;
  timestamp : string;
  item_id : option string;
  type : MessageType
}.

(** [Array.prototype.slice(start, end)]; [None] is an omitted [end]. *)
Definition slice {A} (start : Z) (end_ : option Z) (l : list A) : list A :=
  let len := Z.of_nat (length l) in
  let k := if (start <? 0)%Z then Z.max (len + start) 0 else Z.min start len in
  let final :=
    match end_ with
    | None => len
    | Some e => if (e <? 0)%Z then Z.max (len + e) 0 else Z.min e len
    end in
  firstn (Z.to_nat (final - k)) (skipn (Z.to_nat k) l).

(** [Array.prototype.findIndex]: the first index whose element satisfies
    [f], or -1. *)
Fixpoint findIndex {A} (f : A -> bool) (l : list A) : Z :=
  match l with
  | [] => (-1)%Z
  | x :: l' =>
      if f x then 0%Z
      else
        let i := findIndex f l' in
        if (i <? 0)%Z then (-1)%Z else (i + 1)%Z
  end.

(** [msg.type === 'user' && msg.item_id === event.item_id] and its
    assistant counterpart. *)
Definition isUserItem (id : string) (msg : ChatMessage) : bool :=
  match type msg, item_id msg with
  | user, Some i => String.eqb i id
  | _, _ => false
  end.

Definition isAssistantItem (id : string) (msg : ChatMessage) : bool :=
  match type msg, item_id msg with
  | assistant, Some i => String.eqb i id
  | _, _ => false
  end.

Definition withContent (msg : ChatMessage) (text : string) : ChatMessage :=
  {| content := text; timestamp := timestamp msg; item_id := item_id msg;
     type := type msg |}.

(** The four functions the page passes to [setMessages]; each takes the
    fields of the event it reads and [now], the text of the clock when a
    message is created, and maps the previous list to the next one (the
    scroll the text functions schedule is left out). *)

(** [onSpeechStart] *)
Definition onSpeechStart (id now : string) (prev : list ChatMessage) :
    list ChatMessage :=
  match List.find (isUserItem id) (rev prev) with
  | Some lastUserMessage =>
      let lastUserMessageIndex := findIndex (isUserItem id) prev in
      slice 0 (Some lastUserMessageIndex) prev
        ++ [withContent lastUserMessage ""]
        ++ slice (lastUserMessageIndex + 1) None prev
  | None =>
      prev ++ [{| content := ""; timestamp := now; item_id := Some id;
                  type := user |}]
  end.

(** [onTranscriptComplete] *)
Definition onTranscriptComplete (id transcript now : string)
    (prev : list ChatMessage) : list ChatMessage :=
  match List.find (isUserItem id) (rev prev) with
  | Some lastUserMessage =>
      let lastUserMessageIndex := findIndex (isUserItem id) prev in
      slice 0 (Some lastUserMessageIndex) prev
        ++ [withContent lastUserMessage transcript]
        ++ slice (lastUserMessageIndex + 1) None prev
  | None =>
      prev ++ [{| content := transcript; timestamp := now; item_id := Some id;
                  type := user |}]
  end.

(** [onTextDelta] *)
Definition onTextDelta (id delta now : string) (prev : list ChatMessage) :
    list ChatMessage :=
  match List.last (map Some prev) None with
  | Some lastMessage =>
      if isAssistantItem id lastMessage then
        slice 0 (Some (-1)%Z) prev
          ++ [withContent lastMessage (content lastMessage +:+ delta)]
      else
        prev ++ [{| content := delta; timestamp := now; item_id := Some id;
                    type := assistant |}]
  | None =>
      prev ++ [{| content := delta; timestamp := now; item_id := Some id;
                  type := assistant |}]
  end.

(** [onTextDone] *)
Definition onTextDone (id text now : string) (prev : list ChatMessage) :
    list ChatMessage :=
  match List.last (map Some prev) None with
  | Some lastMessage =>
      if isAssistantItem id lastMessage then
        slice 0 (Some (-1)%Z) prev ++ [withContent lastMessage text]
      else
        prev ++ [{| content := text; timestamp := now; item_id := Some id;
                    type := assistant |}]
  | None =>
      prev ++ [{| content := text; timestamp := now; item_id := Some id;
                  type := assistant |}]
  end.

(** The items of the user messages of a list, in order. *)
Definition userItems (l : list ChatMessage) : list string :=
  omap (fun msg => match type msg with
                   | user => item_id msg
                   | assistant => None
                   end) l.

(** [handleSendMessage], as the function it passes to [setMessages]: the
    message typed by the user has no item; and the list [handleClear]
    sets. *)
Definition handleSendMessage (content now : string) (prev : list ChatMessage) :
    list ChatMessage :=
  prev ++ [{| content := content; timestamp := now; item_id := None;
              type := user |}].

Definition handleClear (prev : list ChatMessage) : list ChatMessage := [].

(** The calls of [setMessages] the page makes, and the list after a
    sequence of them, from the empty list of [useState]. *)
Inductive Update :=
  | SpeechStart (id now : string)
  | TranscriptComplete (id transcript now : string)
  | TextDelta (id delta now : string)
  | TextDone (id text now : string)
  | SendMessage (content now : string)
  | Clear.

Definition update (prev : list ChatMessage) (u : Update) : list ChatMessage :=
  match u with
  | SpeechStart id now => onSpeechStart id now prev
  | TranscriptComplete id transcript now =>
      onTranscriptComplete id transcript now prev
  | TextDelta id delta now => onTextDelta id delta now prev
  | TextDone id text now => onTextDone id text now prev
  | SendMessage content now => handleSendMessage content now prev
  | Clear => handleClear prev
  end.

Definition messagesAfter (us : list Update) : list ChatMessage :=
  fold_left update us [].

End Page.

(** ** Vocabulary of the statements *)

(** The call of an optional callback, as a trace. *)
Definition sinkCall {A} (f : A -> Effect) (o : option A) : list Effect :=
  match o with
  | Some a => [f a]
  | None => []
  end.

(** Every listener of [hs] returns when called on [event]. *)
Definition quiet (event : Event) (hs : list Listener) : Prop :=
  Forall (fun h => lrun h event = None) hs.

(** [a] is made before [b] in a trace. *)
Definition precedes (a b : Effect) (tr : list Effect) : Prop :=
  exists l1 l2 l3, tr = l1 ++ a :: l2 ++ b :: l3.

(** A dispatch under [key] in which every call of an error listener
    returns: each listener of [hs] is called on the event; after one that
    throws an object, the error is logged and the listeners [errs] of the
    error key are called on the synthesized error event; after one that
    throws [undefined] or [null], the error is logged and the dispatch
    ends with the [TypeError] of the failed reading.  The components are
    the calls made, the count of the identifiers drawn, and how the
    dispatch ends. *)
Fixpoint dispatch (key : string) (event : Event) (errs : list Listener)
    (ids : nat -> string) (n : nat) (hs : list Listener) :
    list Effect * nat * Completion unit :=
  match hs with
  | [] => ([], n, Normal tt)
  | h :: hs' =>
      match lrun h event with
      | None =>
          let '(tr, n', r) := dispatch key event errs ids n hs' in
          (CallListener (lid h) event :: tr, n', r)
      | Some (Obj o) =>
          let '(tr, n', r) := dispatch key event errs ids (S n) hs' in
          (CallListener (lid h) event
             :: EventProcessor.errorLog key
             :: map (fun e => CallListener (lid e)
                                (EventProcessor.errorEvent (ids n)
                                   (thrown_message o))) errs
             ++ tr,
           n', r)
      | Some Undefined =>
          ([CallListener (lid h) event; EventProcessor.errorLog key], S n,
           Throws (cannotRead "undefined" "message"))
      | Some Null =>
          ([CallListener (lid h) event; EventProcessor.errorLog key], S n,
           Throws (cannotRead "null" "message"))
      end
  end.

(** No listener of [hs] throws [undefined] or [null] on [event]. *)
Definition throwsObjects (event : Event) (hs : list Listener) : Prop :=
  Forall (fun h => lrun h event <> Some Undefined /\ lrun h event <> Some Null) hs.

(** The numeric suffix of the response identifier of an event. *)
Definition suffixOf (event : Event) : JS.number :=
  RealtimeApiEventProcessor.parseResponseId (response_id event).

(** The design document's reading of the interrupt cursor: the largest
    suffix among the interrupt signals processed so far. *)
Definition maxSuffix (events : list Event) : JS.number :=
  fold_left JS.Math_max (map suffixOf events) JS.zero.

(** The white space and the line terminators among the code units below
    256, and the decimal digits. *)
Definition whiteSpace : list ascii :=
  ["009"; "010"; "011"; "012"; "013"; " "; "160"]%char.

Definition isDigit (c : ascii) : bool :=
  existsb (Ascii.eqb c) ["0"; "1"; "2"; "3"; "4"; "5"; "6"; "7"; "8"; "9"]%char.

Fixpoint afterWhiteSpace (s : string) : string :=
  match s with
  | String c r => if existsb (Ascii.eqb c) whiteSpace then afterWhiteSpace r else s
  | EmptyString => s
  end.

Definition afterSign (s : string) : string :=
  match s with
  | String c r => if (Ascii.eqb c "+" || Ascii.eqb c "-")%bool then r else s
  | EmptyString => s
  end.

(** [s] starts with a decimal literal: after white space and an optional
    sign comes [Infinity], a digit, or a point followed by a digit. *)
Definition startsDecimalLiteral (s : string) : bool :=
  let s := afterSign (afterWhiteSpace s) in
  (String.prefix "Infinity" s ||
   match s with
   | String c r =>
       isDigit c ||
       (Ascii.eqb c "." &&
        match r with String d _ => isDigit d | EmptyString => false end)
   | EmptyString => false
   end)%bool.

(** The decimal numeral of a natural number: [numeral 100] is ["100"]. *)
Definition numeral (n : N) : string := NilZero.string_of_uint (N.to_uint n).

(** [seg] is the text between the first underscore of [id] and the next
    one, or the end of [id]. *)
Definition secondSegmentIs (id seg : string) : Prop :=
  exists pre tail,
    JS.includes "_" pre = false /\
    JS.includes "_" seg = false /\
    (tail = "" \/ exists t, tail = String "_" t) /\
    id = pre +:+ String "_" (seg +:+ tail).

(** ** Vocabulary of the further statements *)

(** [b'] has the registry, the observation callback and the identifier
    supply of [b], and has drawn at least as many identifiers. *)
Definition sameRegistry (b b' : EventProcessor.t) : Prop :=
  EventProcessor.eventHandlers b' = EventProcessor.eventHandlers b /\
  EventProcessor.onSendEvent b' = EventProcessor.onSendEvent b /\
  EventProcessor.uuids b' = EventProcessor.uuids b /\
  EventProcessor.uuid_next b <= EventProcessor.uuid_next b'.

Definition sameSinks (p p' : RealtimeApiEventProcessor.t) : Prop :=
  RealtimeApiEventProcessor.onAudioChunk p'
  = RealtimeApiEventProcessor.onAudioChunk p /\
  RealtimeApiEventProcessor.onAudioInterrupt p'
  = RealtimeApiEventProcessor.onAudioInterrupt p /\
  RealtimeApiEventProcessor.onAudioFadeOut p'
  = RealtimeApiEventProcessor.onAudioFadeOut p.

(** The listener call [c] can come from a dispatch of [event] under
    [key]: it is a call of a listener of [key] on [event], or of a
    listener of the error key on an error event. *)
Definition calledFrom (key : string) (event : Event) (b : EventProcessor.t)
    (c : nat * Event) : Prop :=
  (exists h, h ∈ EventProcessor.handlersOf key b /\ lid h = c.1 /\ c.2 = event) \/
  (exists h, h ∈ EventProcessor.handlersOf "error" b /\ lid h = c.1 /\
             ev_type c.2 = "error").

(** The event types [processServerEvent] has a branch for. *)
Definition filteredType (type : string) : bool :=
  (String.eqb type "response.audio.delta" || String.eqb type "response.audio.done"
   || String.eqb type "response.audio.cancel"
   || String.eqb type "response.text.delta" || String.eqb type "response.text.done")%bool.

(** The listener [h] is registered under [key]. *)
Definition registered (key : string) (h : Listener)
    (p : RealtimeApiEventProcessor.t) : bool :=
  EventProcessor.set_has h
    (EventProcessor.handlersOf key (RealtimeApiEventProcessor.base p)).

(** The event types [processServerEvent] handles without a dispatch. *)
Definition audioType (type : string) : bool :=
  (String.eqb type "response.audio.delta" || String.eqb type "response.audio.done"
   || String.eqb type "response.audio.cancel")%bool.

(** The [input_audio_buffer.append] event of a frame, and the identifier
    the next call of [crypto.randomUUID] returns. *)
Definition appendEvent (id audio : string) : ClientEvent :=
  {| cev_type := "input_audio_buffer.append"; cev_event_id := id;
     cev_body := audio |}.

Definition nextUUID (c : Conversation.t) : string :=
  let b := RealtimeApiEventProcessor.base (Conversation.eventProcessor c) in
  EventProcessor.uuids b (EventProcessor.uuid_next b).

(** What [Conversation.handleError] writes to the console. *)
Definition report (error : Thrown) : Effect :=
  ConsoleError ("Error in conversation: " +:+
                JS.or_default (thrown_message error) "Unknown error").

(** A volume between 0 and 1. *)
Definition inRange (v : JS.number) : bool :=
  (JS.num_le JS.zero v && JS.num_le v (JS.of_Z 1))%bool.

(** A session that is marked connected holds a socket, and its volume is
    between 0 and 1. *)
Definition wellFormed (c : Conversation.t) : Prop :=
  (Conversation.isConnected c = true -> is_Some (Conversation.ws c)) /\
  inRange (Conversation.volume c) = true.

(** What the callers and the platform guarantee of an operation: the
    volume passed to [setVolume] is a number, and the socket that opens is
    one the session still holds. *)
Definition admissible (c : Conversation.t) (op : EventLoop.Operation) : Prop :=
  match op with
  | EventLoop.SetVolume v => JS.isNaN v = false
  | EventLoop.SocketOpened => is_Some (Conversation.ws c)
  | _ => True
  end.

Fixpoint admissibleAll (stack maxArguments : nat) (ops : list EventLoop.Operation)
    (c : Conversation.t) : Prop :=
  match ops with
  | [] => True
  | op :: ops' =>
      admissible c op /\
      admissibleAll stack maxArguments ops'
        (final (EventLoop.perform stack maxArguments op c))
  end.

(** [c'] is connected only if [c] was, with the same socket, and has the
    volume of [c]. *)
Definition frameOf (c c' : Conversation.t) : Prop :=
  (Conversation.isConnected c' = true ->
   Conversation.isConnected c = true /\ Conversation.ws c' = Conversation.ws c) /\
  Conversation.volume c' = Conversation.volume c.

(** ** Sample objects *)

Module Samples.

Definition failing : Thrown :=
  {| thrown_name := "Error"; thrown_message := Some "boom" |}.

(** A listener that throws on every call, and one that returns. *)
Definition thrower (n : nat) : Listener :=
  {| lid := n; lrun := fun _ => Some (Obj failing) |}.
Definition recorder (n : nat) : Listener :=
  {| lid := n; lrun := fun _ => None |}.

Definition emptyBase : EventProcessor.t :=
  {| EventProcessor.eventHandlers := ∅;
     EventProcessor.onSendEvent := None;
     EventProcessor.uuids := fun _ => "00000000-0000-4000-8000-000000000000";
     EventProcessor.uuid_next := 0 |}.

(** Two listeners under the error key, the first of which throws. *)
Definition throwingErrorListener : EventProcessor.t :=
  EventProcessor.on "error" (recorder 2)
    (EventProcessor.on "error" (thrower 1) emptyBase).

(** Two listeners under a text key, the first of which throws, and a
    listener under the error key that returns. *)
Definition throwingTextListener : EventProcessor.t :=
  EventProcessor.on "error" (recorder 9)
    (EventProcessor.on "response.text.delta" (recorder 2)
       (EventProcessor.on "response.text.delta" (thrower 1) emptyBase)).

(** A listener that throws [undefined] on every call, and a registry in
    which it is the first of two listeners of a text key, with a listener
    under the error key that returns. *)
Definition throwsUndefined (n : nat) : Listener :=
  {| lid := n; lrun := fun _ => Some Undefined |}.

Definition throwingUndefined : EventProcessor.t :=
  EventProcessor.on "error" (recorder 9)
    (EventProcessor.on "response.text.delta" (recorder 2)
       (EventProcessor.on "response.text.delta" (throwsUndefined 1) emptyBase)).

Definition serverEvent (type id payload : string) : Event :=
  {| ev_type := type; event_id := "evt_1"; response_id := id;
     delta := payload; error := None; rest := "" |}.

(** A processor with the three sinks set and listeners under the audio
    and text keys. *)
Definition processor : RealtimeApiEventProcessor.t :=
  RealtimeApiEventProcessor.on "response.audio.delta" (recorder 5)
    (RealtimeApiEventProcessor.on "response.text.delta" (recorder 6)
       (RealtimeApiEventProcessor.new emptyBase (Some 7) (Some 8) (Some 9))).

(** The same processor after the interrupt of response 100. *)
Definition interruptedAt100 : RealtimeApiEventProcessor.t :=
  final (RealtimeApiEventProcessor.processServerEvent 1
           (serverEvent "response.audio.cancel" "resp_100" "") processor).

Definition sessionUpdate : ClientEvent :=
  {| cev_type := "session.update"; cev_event_id := "evt_2"; cev_body := "{}" |}.

Definition audioAppend : ClientEvent :=
  {| cev_type := "input_audio_buffer.append"; cev_event_id := "evt_3";
     cev_body := "AAA=" |}.

(** A session as [startSession] returns it: transport open, both devices
    acquired, one listener under [disconnected]. *)
Definition connected : Conversation.t :=
  {| Conversation.ws := Some {| Conversation.url := "wss://localhost/realtime" |};
     Conversation.isConnected := true;
     Conversation.eventProcessor :=
       RealtimeApiEventProcessor.on "disconnected" (recorder 3) processor;
     Conversation.onSendEvent := Some 4;
     Conversation.audioInput := Some {| Conversation.in_closed := false |};
     Conversation.audioOutput :=
       Some {| Conversation.out_closed := false;
               Conversation.gain_value := JS.of_Z 1;
               Conversation.ramp := None |};
     Conversation.isMuted := false;
     Conversation.volume := JS.of_Z 1;
     Conversation.timers := [] |}.

Definition half : JS.number := JS.decimal false 5 (-1).

End Samples.

(** ** Further sample objects *)

Module Scenarios.
Import Samples.

(** A listener of a text key that throws, and a listener of the error key
    that throws as well. *)
Definition loopingErrors : EventProcessor.t :=
  EventProcessor.on "error" (thrower 9)
    (EventProcessor.on "response.text.delta" (thrower 1) emptyBase).

(** Two listeners of a text key, the first of which throws [undefined],
    and a listener of the error key that throws. *)
Definition loopingOnUndefined : EventProcessor.t :=
  EventProcessor.on "error" (thrower 9)
    (EventProcessor.on "response.text.delta" (recorder 2)
       (EventProcessor.on "response.text.delta" (throwsUndefined 1) emptyBase)).

(** The processor the factory builds from a configuration whose only
    handler is [onAudioDelta]. *)
Definition audioOnly : RealtimeApiEventProcessor.t :=
  ConversationFactory.eventProcessor
    (fun _ => "00000000-0000-4000-8000-000000000000") 0 None
    [("onAudioDelta", Some (recorder 5))].

(** The processor of [Samples] after an interrupt signal whose response
    identifier has no number. *)
Definition interruptedAtNaN : RealtimeApiEventProcessor.t :=
  final (RealtimeApiEventProcessor.processServerEvent 1
           (serverEvent "response.audio.cancel" "resp_abc" "") processor).

(** Three bytes of captured audio. *)
Definition pcm : list Byte.byte := [Byte.x01; Byte.xff; Byte.x10].

(** The session of [Samples] after [endSession]. *)
Definition ended : Conversation.t :=
  final (Conversation.endSession 2 connected).

(** A list of messages: one spoken by the user, and the answer. *)
Definition spoken : Page.ChatMessage :=
  {| Page.content := ""; Page.timestamp := "10:01";
     Page.item_id := Some "item_1"; Page.type := Page.user |}.
Definition answer : Page.ChatMessage :=
  {| Page.content := "Hel"; Page.timestamp := "10:02";
     Page.item_id := Some "item_2"; Page.type := Page.assistant |}.

End Scenarios.

(** * Properties *)

Import Samples.

(** ** Numbers and strings *)

Lemma SFcompare_antisym (a b : JS.number) :
  SFcompare b a = option_map CompOpp (SFcompare a b).
Proof.
  destruct a as [sa|sa| |sa ma ea], b as [sb|sb| |sb mb eb]; simpl; try reflexivity;
    try (destruct sa; reflexivity); try (destruct sb; reflexivity);
    try (destruct sa, sb; reflexivity).
  destruct sa, sb; simpl; try reflexivity;
    rewrite (Z.compare_antisym ea eb); destruct (ea ?= eb)%Z eqn:E; simpl;
    try reflexivity;
    rewrite (Pos.compare_cont_antisym ma mb Eq); simpl; try reflexivity.
Qed.

Lemma num_lt_not_le (a b : JS.number) :
  JS.num_lt a b = true -> JS.num_le b a = false.
Proof.
  unfold JS.num_lt, JS.num_le, SFltb, SFleb. rewrite (SFcompare_antisym a b).
  destruct (SFcompare a b) as [[]|]; simpl; congruence.
Qed.

Lemma last_cons {A} (l : list A) :
  forall x d, List.last (x :: l) d = List.last l x.
Proof.
  induction l as [|y l IH]; intros x d; [reflexivity|].
  change (List.last (x :: y :: l) d) with (List.last (y :: l) d).
  rewrite (IH y d), (IH y x). reflexivity.
Qed.

Lemma split_without_separator (sep : ascii) (s : string) :
  JS.includes sep s = false -> JS.split sep s = [s].
Proof.
  induction s as [|c r IH]; [reflexivity|].
  cbn [JS.includes JS.split]. intros H. apply orb_false_iff in H as [Hc Hr].
  rewrite Hc, (IH Hr). reflexivity.
Qed.

Lemma split_at_separator (sep : ascii) (pre rest : string) :
  JS.includes sep pre = false ->
  JS.split sep (pre +:+ String sep rest) = pre :: JS.split sep rest.
Proof.
  induction pre as [|c r IH]; intros H.
  - simpl. rewrite Ascii.eqb_refl. reflexivity.
  - cbn [JS.includes] in H. apply orb_false_iff in H as [Hc Hr].
    change (String c r +:+ String sep rest) with (String c (r +:+ String sep rest)).
    cbn [JS.split]. rewrite Hc, (IH Hr). reflexivity.
Qed.

Lemma append_empty (s : string) : s +:+ "" = s.
Proof.
  induction s as [|c r IH]; [reflexivity|].
  change (String c r +:+ "") with (String c (r +:+ "")). rewrite IH. reflexivity.
Qed.

Lemma second_segment (id seg : string) :
  secondSegmentIs id seg -> JS.split "_" id !! 1%nat = Some seg.
Proof.
  intros (pre & tail & Hpre & Hseg & Htail & ->).
  rewrite (split_at_separator _ _ _ Hpre).
  destruct Htail as [->|[t ->]].
  - rewrite append_empty, (split_without_separator _ _ Hseg). reflexivity.
  - rewrite (split_at_separator _ _ _ Hseg). reflexivity.
Qed.

(** *** Segments that do not start with a decimal literal *)

Lemma afterWhiteSpace_trimStart (s : string) : afterWhiteSpace s = JS.trimStart s.
Proof.
  induction s as [|c r IH]; [reflexivity|].
  cbn [afterWhiteSpace JS.trimStart]. rewrite IH.
  destruct c as [[] [] [] [] [] [] [] []]; reflexivity.
Qed.

Lemma not_digit (c : ascii) : isDigit c = false -> JS.digitValue c = None.
Proof. destruct c as [[] [] [] [] [] [] [] []]; first [discriminate | reflexivity]. Qed.

Lemma unsigned_no_literal (neg : bool) (s : string) :
  (String.prefix "Infinity" s ||
   match s with
   | String c r =>
       isDigit c ||
       (Ascii.eqb c "." &&
        match r with String d _ => isDigit d | EmptyString => false end)
   | EmptyString => false
   end)%bool = false ->
  (if String.prefix "Infinity" s then S754_infinity neg
   else
     let '(ip, ni, s1) := JS.readDigits 0 0 s in
     let '(m, nf, s2) :=
       match s1 with
       | String "." r => JS.readDigits ip 0 r
       | _ => (ip, O, s1)
       end in
     match ni, nf with
     | O, O => JS.NaN
     | _, _ => JS.decimal neg m (JS.readExponent s2 - Z.of_nat nf)
     end) = JS.NaN.
Proof.
  intros H. apply orb_false_iff in H as [Hinf H]. rewrite Hinf.
  destruct s as [|c r]; [reflexivity|].
  apply orb_false_iff in H as [Hc H]. apply not_digit in Hc.
  cbn [JS.readDigits]. rewrite Hc.
  destruct (Ascii.eqb_spec c ".") as [->|Hdot].
  - destruct r as [|d r']; [reflexivity|]. cbn in H. apply not_digit in H.
    cbn [JS.readDigits]. rewrite H. reflexivity.
  - destruct c as [[] [] [] [] [] [] [] []];
      first [reflexivity | exfalso; apply Hdot; reflexivity].
Qed.

Lemma parseFloat_no_literal (s : string) :
  startsDecimalLiteral s = false -> JS.parseFloat s = JS.NaN.
Proof.
  unfold startsDecimalLiteral, JS.parseFloat. rewrite afterWhiteSpace_trimStart.
  generalize (JS.trimStart s). clear s. intros s H.
  assert (Hs : JS.readSign s = (match s with String "-" _ => true | _ => false end,
                                afterSign s)).
  { destruct s as [|c r]; [reflexivity|].
    destruct c as [[] [] [] [] [] [] [] []]; reflexivity. }
  rewrite Hs. apply unsigned_no_literal. exact H.
Qed.

(** *** Decimal numerals *)

Ltac read_digit :=
  cbn [JS.readDigits];
  match goal with
  | |- context [JS.digitValue ?c] =>
      let v := eval vm_compute in (JS.digitValue c) in
      change (JS.digitValue c) with v; cbv iota
  end.

Lemma readDigits_uint_acc (d : Decimal.uint) : forall (p : positive) (k : nat),
  JS.readDigits (Npos p) k (NilEmpty.string_of_uint d)
  = (Npos (Pos.of_uint_acc d p), (k + Decimal.nb_digits d)%nat, "").
Proof.
  induction d; intros p k;
    cbn [NilEmpty.string_of_uint Decimal.nb_digits Pos.of_uint_acc].
  1: { cbn [JS.readDigits]. rewrite Nat.add_0_r. reflexivity. }
  all: read_digit;
    match goal with
    | |- JS.readDigits ?a _ _ = (N.pos (Pos.of_uint_acc _ ?q), _, _) =>
        replace a with (N.pos q) by lia
    end;
    rewrite IHd; f_equal; f_equal; lia.
Qed.

Lemma readDigits_uint (d : Decimal.uint) : forall k : nat,
  JS.readDigits 0 k (NilEmpty.string_of_uint d)
  = (Pos.of_uint d, (k + Decimal.nb_digits d)%nat, "").
Proof.
  induction d; intros k;
    cbn [NilEmpty.string_of_uint Decimal.nb_digits Pos.of_uint].
  1: { cbn [JS.readDigits]. rewrite Nat.add_0_r. reflexivity. }
  1: { read_digit. change (10 * 0 + 0)%N with 0%N. rewrite IHd.
       f_equal. f_equal. lia. }
  all: read_digit;
    match goal with
    | |- JS.readDigits ?a _ _ = (N.pos (Pos.of_uint_acc _ ?q), _, _) =>
        replace a with (N.pos q) by lia
    end;
    rewrite readDigits_uint_acc; f_equal; f_equal; lia.
Qed.

Lemma decimal_integer (n : N) : JS.decimal false n 0 = JS.of_Z (Z.of_N n).
Proof.
  destruct n as [|p]; [reflexivity|].
  unfold JS.decimal, JS.round_decimal, JS.of_Z, binary_normalize.
  change (Z.to_pos (10 ^ 0)) with 1%positive. rewrite Pos.mul_1_r. reflexivity.
Qed.

Lemma to_uint_digits (n : N) :
  exists c r k, NilZero.string_of_uint (N.to_uint n) = String c r /\
                (exists v, JS.digitValue c = Some v) /\
                JS.readDigits 0 0 (String c r) = (n, S k, "").
Proof.
  pose proof (DecimalN.Unsigned.of_to n) as Hn. unfold N.of_uint in Hn.
  assert (Hnil : N.to_uint n <> Decimal.Nil).
  { intros H. rewrite H in Hn. cbn in Hn. subst n. discriminate H. }
  pose proof (readDigits_uint (N.to_uint n) 0) as Hr. rewrite Hn in Hr.
  destruct (N.to_uint n) as [|d|d|d|d|d|d|d|d|d|d]; [congruence| ..];
    cbn [NilZero.string_of_uint NilEmpty.string_of_uint] in *;
    eexists _, _, _; (split; [reflexivity|]);
    (split; [eexists; vm_compute; reflexivity|]); exact Hr.
Qed.

(** [parseFloat] of the decimal numeral of a natural number is the number
    nearest to it. *)
Lemma parseFloat_numeral (n : N) : JS.parseFloat (numeral n) = JS.of_Z (Z.of_N n).
Proof.
  unfold numeral. destruct (to_uint_digits n) as (c & r & k & -> & (v & Hv) & Hr).
  rewrite <- decimal_integer.
  assert (Hc : JS.trimStart (String c r) = String c r /\
               JS.readSign (String c r) = (false, String c r) /\
               String.prefix "Infinity" (String c r) = false).
  { clear Hr. destruct c as [[] [] [] [] [] [] [] []]; try discriminate Hv;
      repeat split. }
  destruct Hc as (Ht & Hs & Hp).
  unfold JS.parseFloat. rewrite Ht, Hs, Hp, Hr. reflexivity.
Qed.

Example parseFloat_100 : JS.parseFloat "100" = JS.of_Z 100.
Proof. vm_compute. reflexivity. Qed.

Example parseFloat_tenth :
  JS.parseFloat " -0.1e0x" = S754_finite true 7205759403792794 (-56).
Proof. vm_compute. reflexivity. Qed.

Example parseFloat_literals :
  JS.parseFloat "1e" = JS.of_Z 1 /\ JS.parseFloat ".5e1" = JS.of_Z 5 /\
  JS.parseFloat "." = JS.NaN /\
  JS.parseFloat "12.5e-1abc" = JS.parseFloat "1.25" /\
  JS.parseFloat "-Infinityx" = S754_infinity true /\
  JS.parseFloat "1e400" = S754_infinity false /\
  JS.parseFloat "9007199254740993" = JS.of_Z 9007199254740992 /\
  JS.parseFloat "4.9e-324" = S754_finite false 1 (-1074) /\
  JS.parseFloat "2e-324" = S754_zero false.
Proof. vm_compute. repeat split. Qed.

Example split_examples :
  JS.split "_" "resp_12_34" = ["resp"; "12"; "34"] /\
  JS.split "_" "resp" = ["resp"] /\ JS.split "_" "" = [""] /\
  JS.split "_" "_" = [""; ""].
Proof. repeat split. Qed.

(** ** Response identifiers *)

Lemma second_segment_resp (seg : string) :
  JS.includes "_" seg = false -> secondSegmentIs ("resp_" +:+ seg) seg.
Proof.
  intros H. exists "resp", "". repeat split; [exact H | left; reflexivity |].
  rewrite append_empty. reflexivity.
Qed.

Lemma parseResponseId_segment (id seg : string) :
  secondSegmentIs id seg -> seg <> "" ->
  RealtimeApiEventProcessor.parseResponseId id = JS.parseFloat seg.
Proof.
  intros H Hne. unfold RealtimeApiEventProcessor.parseResponseId.
  rewrite (second_segment _ _ H). destruct seg; [congruence | reflexivity].
Qed.

Lemma parseResponseId_numeral (id : string) (n : N) :
  secondSegmentIs id (numeral n) ->
  RealtimeApiEventProcessor.parseResponseId id = JS.of_Z (Z.of_N n).
Proof.
  intros H. rewrite (parseResponseId_segment id (numeral n) H).
  - apply parseFloat_numeral.
  - unfold numeral. destruct (to_uint_digits n) as (c & r & k & -> & _).
    discriminate.
Qed.

(** C5 (as amended).  [parseResponseId] splits the identifier on the
    underscore and parses the second segment as a floating-point number:
    the decimal numeral of a natural number gives the number nearest to
    it.  It returns zero when there is no second segment (no underscore)
    or when the second segment is empty; it returns NaN, not zero, when
    the second segment is not empty and does not start with a decimal
    literal. *)
Theorem parseResponseId_cases :
  (forall id, JS.includes "_" id = false ->
     RealtimeApiEventProcessor.parseResponseId id = JS.zero) /\
  (forall id, secondSegmentIs id "" ->
     RealtimeApiEventProcessor.parseResponseId id = JS.zero) /\
  (forall id seg, secondSegmentIs id seg -> seg <> "" ->
     RealtimeApiEventProcessor.parseResponseId id = JS.parseFloat seg) /\
  (forall id seg, secondSegmentIs id seg -> seg <> "" ->
     startsDecimalLiteral seg = false ->
     RealtimeApiEventProcessor.parseResponseId id = JS.NaN) /\
  (forall id n, secondSegmentIs id (numeral n) ->
     RealtimeApiEventProcessor.parseResponseId id = JS.of_Z (Z.of_N n)).
Proof.
  repeat apply conj.
  - intros id H. unfold RealtimeApiEventProcessor.parseResponseId.
    rewrite (split_without_separator _ _ H). reflexivity.
  - intros id H. unfold RealtimeApiEventProcessor.parseResponseId.
    rewrite (second_segment _ _ H). reflexivity.
  - apply parseResponseId_segment.
  - intros id seg H Hne Hlit. rewrite (parseResponseId_segment id seg H Hne).
    apply parseFloat_no_literal. exact Hlit.
  - apply parseResponseId_numeral.
Qed.

Lemma parseResponseId_cases_witness :
  RealtimeApiEventProcessor.parseResponseId "resp" = JS.zero /\
  RealtimeApiEventProcessor.parseResponseId "resp_" = JS.zero /\
  RealtimeApiEventProcessor.parseResponseId "resp_12.5" = JS.parseFloat "12.5" /\
  (RealtimeApiEventProcessor.parseResponseId "resp_abc" = JS.NaN /\
   RealtimeApiEventProcessor.parseResponseId "resp_-abc" = JS.NaN /\
   RealtimeApiEventProcessor.parseResponseId "resp_+" = JS.NaN /\
   RealtimeApiEventProcessor.parseResponseId "resp_." = JS.NaN /\
   RealtimeApiEventProcessor.parseResponseId "resp_Inf" = JS.NaN /\
   RealtimeApiEventProcessor.parseResponseId "resp_ x_1" = JS.NaN) /\
  (RealtimeApiEventProcessor.parseResponseId "resp_100" = JS.of_Z 100 /\
   RealtimeApiEventProcessor.parseResponseId "resp_7" = JS.of_Z 7 /\
   RealtimeApiEventProcessor.parseResponseId "resp_0" = JS.zero).
Proof.
  destruct parseResponseId_cases as (Habsent & Hempty & Hparse & Hnan & Hnum).
  assert (Hseg : forall seg, JS.includes "_" seg = false -> seg <> "" ->
                 startsDecimalLiteral seg = false ->
                 RealtimeApiEventProcessor.parseResponseId ("resp_" +:+ seg) = JS.NaN).
  { intros seg Hi Hne Hl. apply (Hnan _ seg); [apply second_segment_resp| |];
      assumption. }
  repeat apply conj.
  - apply Habsent. reflexivity.
  - apply Hempty. apply (second_segment_resp ""). reflexivity.
  - apply Hparse; [apply (second_segment_resp "12.5"); reflexivity | discriminate].
  - apply (Hseg "abc"); [reflexivity | discriminate | reflexivity].
  - apply (Hseg "-abc"); [reflexivity | discriminate | reflexivity].
  - apply (Hseg "+"); [reflexivity | discriminate | reflexivity].
  - apply (Hseg "."); [reflexivity | discriminate | reflexivity].
  - apply (Hseg "Inf"); [reflexivity | discriminate | reflexivity].
  - apply (Hnan "resp_ x_1" " x"); [|discriminate | reflexivity].
    exists "resp", "_1". repeat split. right. exists "1". reflexivity.
  - apply (Hnum "resp_100" 100%N). apply (second_segment_resp "100"). reflexivity.
  - apply (Hnum "resp_7" 7%N). apply (second_segment_resp "7"). reflexivity.
  - apply (Hnum "resp_0" 0%N). apply (second_segment_resp "0"). reflexivity.
Defined.

(** C5, as stated, fails: a malformed suffix gives NaN, which is not
    zero (and compares false with every number). *)
Lemma parseResponseId_malformed_is_NaN :
  RealtimeApiEventProcessor.parseResponseId "resp_abc" = JS.NaN /\
  RealtimeApiEventProcessor.parseResponseId "resp_abc" <> JS.zero /\
  JS.num_eq (RealtimeApiEventProcessor.parseResponseId "resp_abc") JS.zero = false.
Proof. repeat split; vm_compute; congruence. Qed.

(** ** Dispatch to listeners *)

Section Dispatch.
Import EventProcessor.

Lemma with_uuid_next_same (b : EventProcessor.t) :
  with_uuid_next (uuid_next b) b = b.
Proof. destruct b; reflexivity. Qed.

(** Listeners that return are called one after the other. *)
Lemma forEach_quiet (stack : nat) (key : string) (event : Event)
    (hs : list Listener) (b : EventProcessor.t) :
  quiet event hs ->
  forEach (fun handler =>
             try_catch (call handler event)
               (fun error =>
                  emit (errorLog key) ;;
                  handleError_via (triggerEvent stack) error)) hs b
  = (Normal tt, b, map (fun h => CallListener (lid h) event) hs).
Proof.
  induction 1 as [|h hs Hh _ IH]; [reflexivity|].
  cbn [forEach]. unfold bind at 1. unfold try_catch at 1, call at 1.
  rewrite Hh, IH. reflexivity.
Qed.

Lemma triggerEvent_quiet (stack : nat) (key : string) (event : Event)
    (b : EventProcessor.t) :
  quiet event (handlersOf key b) ->
  triggerEvent (S stack) key event b
  = (Normal tt, b, map (fun h => CallListener (lid h) event) (handlersOf key b)).
Proof.
  unfold handlersOf. intros Hq. cbn [triggerEvent].
  unfold bind at 1, get at 1.
  destruct (eventHandlers b !! key) as [hs|]; simpl in *.
  - rewrite (forEach_quiet stack key event hs b Hq). reflexivity.
  - reflexivity.
Qed.

(** [handleError] on an object: the identifier is drawn, and the error
    event with the message of the object is dispatched. *)
Lemma handleError_via_object (trigger : string -> Event -> M EventProcessor.t unit)
    (o : Thrown) (b : EventProcessor.t) :
  handleError_via trigger o b
  = trigger "error" (errorEvent (uuids b (uuid_next b)) (thrown_message o))
      (with_uuid_next (S (uuid_next b)) b).
Proof.
  unfold handleError_via, bind, randomUUID, messageOf, ret, with_uuid_next.
  destruct (trigger "error" _ _) as [[r b'] tr]. reflexivity.
Qed.

Lemma handleError_quiet (stack : nat) (err : Thrown) (b : EventProcessor.t) :
  (forall ev', quiet ev' (handlersOf "error" b)) ->
  handleError (S stack) err b
  = (Normal tt, with_uuid_next (S (uuid_next b)) b,
     map (fun e => CallListener (lid e)
                     (errorEvent (uuids b (uuid_next b)) (thrown_message err)))
         (handlersOf "error" b)).
Proof.
  intros Hq. unfold handleError. rewrite handleError_via_object.
  rewrite triggerEvent_quiet by apply Hq. reflexivity.
Qed.

(** [handleError] on [undefined] or [null]: the identifier is drawn, then
    the reading of the message throws. *)
Lemma handleError_nullish (stack : nat) (b : EventProcessor.t) :
  handleError stack Undefined b
  = (Throws (cannotRead "undefined" "message"),
     with_uuid_next (S (uuid_next b)) b, []) /\
  handleError stack Null b
  = (Throws (cannotRead "null" "message"),
     with_uuid_next (S (uuid_next b)) b, []).
Proof. split; reflexivity. Qed.

(** When the listeners of the error key return, a dispatch under any key
    is the one [dispatch] describes. *)
Lemma forEach_isolated (stack : nat) (key : string) (event : Event)
    (hs : list Listener) (b : EventProcessor.t) :
  (forall ev', quiet ev' (handlersOf "error" b)) ->
  forEach (fun handler =>
             try_catch (call handler event)
               (fun error =>
                  emit (errorLog key) ;;
                  handleError_via (triggerEvent (S stack)) error)) hs b
  = ((dispatch key event (handlersOf "error" b) (uuids b) (uuid_next b) hs).2,
     with_uuid_next
       (dispatch key event (handlersOf "error" b) (uuids b) (uuid_next b) hs).1.2 b,
     (dispatch key event (handlersOf "error" b) (uuids b) (uuid_next b) hs).1.1).
Proof.
  revert b. induction hs as [|h hs IH]; intros b Hq.
  - simpl. rewrite with_uuid_next_same. reflexivity.
  - cbn [forEach dispatch]. unfold bind at 1. unfold try_catch at 1, call at 1.
    destruct (lrun h event) as [[| |err]|] eqn:Hrun.
    + unfold bind at 1, emit at 1.
      pose proof (proj1 (handleError_nullish (S stack) b)) as He.
      unfold handleError in He. rewrite He. reflexivity.
    + unfold bind at 1, emit at 1.
      pose proof (proj2 (handleError_nullish (S stack) b)) as He.
      unfold handleError in He. rewrite He. reflexivity.
    + unfold bind at 1, emit at 1.
      pose proof (handleError_quiet stack err b Hq) as He.
      unfold handleError in He. rewrite He.
      rewrite (IH (with_uuid_next (S (uuid_next b)) b)) by exact Hq.
      change (handlersOf "error" (with_uuid_next (S (uuid_next b)) b))
        with (handlersOf "error" b).
      cbn [uuids uuid_next with_uuid_next].
      destruct (dispatch key event (handlersOf "error" b) (uuids b)
                  (S (uuid_next b)) hs) as [[tr n'] r].
      reflexivity.
    + rewrite (IH b Hq).
      destruct (dispatch key event (handlersOf "error" b) (uuids b)
                  (uuid_next b) hs) as [[tr n'] r].
      reflexivity.
Qed.

Lemma triggerEvent_isolated (stack : nat) (key : string) (event : Event)
    (b : EventProcessor.t) :
  (forall ev', quiet ev' (handlersOf "error" b)) ->
  triggerEvent (S (S stack)) key event b
  = ((dispatch key event (handlersOf "error" b) (uuids b) (uuid_next b)
        (handlersOf key b)).2,
     with_uuid_next
       (dispatch key event (handlersOf "error" b) (uuids b) (uuid_next b)
          (handlersOf key b)).1.2 b,
     (dispatch key event (handlersOf "error" b) (uuids b) (uuid_next b)
        (handlersOf key b)).1.1).
Proof.
  intros Hq. cbn [triggerEvent]. unfold bind at 1, get at 1.
  unfold handlersOf at 2 4 6.
  destruct (eventHandlers b !! key) as [hs|]; simpl default.
  - pose proof (forEach_isolated stack key event hs b Hq) as H.
    cbn [triggerEvent] in H. rewrite H.
    destruct (dispatch key event (handlersOf "error" b) (uuids b)
                (uuid_next b) hs) as [[tr n'] [[]|e]]; reflexivity.
  - simpl. rewrite with_uuid_next_same. reflexivity.
Qed.

(** A dispatch over listeners none of which throws [undefined] or [null]
    ends normally. *)
Lemma dispatch_throwsObjects (key : string) (event : Event)
    (errs : list Listener) (ids : nat -> string) (hs : list Listener) :
  throwsObjects event hs ->
  forall n, (dispatch key event errs ids n hs).2 = Normal tt.
Proof.
  induction 1 as [|h hs [Hu Hn] _ IH]; intros n; [reflexivity|].
  cbn [dispatch]. destruct (lrun h event) as [[| |o]|]; try congruence.
  - specialize (IH (S n)).
    destruct (dispatch key event errs ids (S n) hs) as [[tr n'] r]. exact IH.
  - specialize (IH n).
    destruct (dispatch key event errs ids n hs) as [[tr n'] r]. exact IH.
Qed.

(** A listener of the error key that throws makes [triggerEvent] and
    [handleError] call each other until the stack is exhausted; the
    listener registered after it is not reached. *)
Lemma error_loop (stack : nat) : forall (b : EventProcessor.t) (event : Event),
  eventHandlers b !! "error" = Some [thrower 1; recorder 2] ->
  exists b' tr,
    triggerEvent stack "error" event b = (Throws RangeError, b', tr) /\
    forall ev, (2, ev) ∉ listenerCalls tr.
Proof.
  induction stack as [|stack IH]; intros b event Hb.
  - exists b, []. split; [reflexivity|]. intros ev H. inversion H.
  - cbn [triggerEvent]. unfold bind at 1, get at 1. rewrite Hb.
    cbn [forEach]. unfold bind at 1, try_catch at 1, call at 1.
    cbn [lrun thrower].
    unfold bind at 1, emit at 1. rewrite handleError_via_object.
    match goal with |- context [triggerEvent stack "error" ?e ?b'] =>
      destruct (IH b' e Hb) as (b'' & tr & Ht & Hn); rewrite Ht
    end.
    eexists _, _. split; [reflexivity|]. intros ev H. simpl in H.
    apply elem_of_cons in H as [H|H]; [discriminate|]. exact (Hn ev H).
Qed.

Lemma throwingErrorListener_handlers :
  eventHandlers throwingErrorListener !! "error" = Some [thrower 1; recorder 2].
Proof. vm_compute. reflexivity. Qed.

Lemma throwingTextListener_handlers :
  eventHandlers throwingTextListener !! "response.text.delta"
  = Some [thrower 1; recorder 2] /\
  handlersOf "error" throwingTextListener = [recorder 9].
Proof. vm_compute. split; reflexivity. Qed.

Lemma throwingUndefined_handlers :
  eventHandlers throwingUndefined !! "response.text.delta"
  = Some [throwsUndefined 1; recorder 2] /\
  handlersOf "error" throwingUndefined = [recorder 9].
Proof. vm_compute. split; reflexivity. Qed.

Lemma dispatch_object (key : string) (event : Event) (errs : list Listener)
    (ids : nat -> string) (n : nat) (h : Listener) (hs : list Listener)
    (o : Thrown) :
  lrun h event = Some (Obj o) ->
  dispatch key event errs ids n (h :: hs)
  = let '(tr, n', r) := dispatch key event errs ids (S n) hs in
    (CallListener (lid h) event
       :: errorLog key
       :: map (fun e => CallListener (lid e)
                          (errorEvent (ids n) (thrown_message o))) errs
       ++ tr,
     n', r).
Proof. intros H. cbn [dispatch]. rewrite H. reflexivity. Qed.

Lemma dispatch_head (key : string) (event : Event) (errs : list Listener)
    (ids : nat -> string) (n : nat) (h : Listener) (hs : list Listener) :
  exists after,
    (dispatch key event errs ids n (h :: hs)).1.1
    = CallListener (lid h) event :: after.
Proof.
  cbn [dispatch]. destruct (lrun h event) as [[| |o]|].
  - eexists. reflexivity.
  - eexists. reflexivity.
  - destruct (dispatch key event errs ids (S n) hs) as [[tr n'] r].
    eexists. reflexivity.
  - destruct (dispatch key event errs ids n hs) as [[tr n'] r].
    eexists. reflexivity.
Qed.

(** A first listener that throws [undefined] or [null] ends the dispatch:
    the reading of the message in [handleError] throws. *)
Lemma triggerEvent_nullish (stack : nat) (key : string) (event : Event)
    (b : EventProcessor.t) (first : Listener) (others : list Listener) :
  eventHandlers b !! key = Some (first :: others) ->
  (lrun first event = Some Undefined ->
   triggerEvent (S stack) key event b
   = (Throws (cannotRead "undefined" "message"),
      with_uuid_next (S (uuid_next b)) b,
      [CallListener (lid first) event; errorLog key])) /\
  (lrun first event = Some Null ->
   triggerEvent (S stack) key event b
   = (Throws (cannotRead "null" "message"),
      with_uuid_next (S (uuid_next b)) b,
      [CallListener (lid first) event; errorLog key])).
Proof.
  intros Hkey.
  split; intros Hfirst; cbn [triggerEvent]; unfold bind at 1, get at 1;
    rewrite Hkey; cbn [forEach]; unfold bind at 1, try_catch at 1, call at 1;
    rewrite Hfirst; reflexivity.
Qed.

(** The [catch] block of [triggerEvent], by what was caught. *)
Lemma catch_run (key : string) (trigger : string -> Event -> M EventProcessor.t unit)
    (err : Caught) (b : EventProcessor.t) :
  (emit (errorLog key) ;; handleError_via trigger err) b
  = match err with
    | Undefined =>
        (Throws (cannotRead "undefined" "message"),
         with_uuid_next (S (uuid_next b)) b, [errorLog key])
    | Null =>
        (Throws (cannotRead "null" "message"),
         with_uuid_next (S (uuid_next b)) b, [errorLog key])
    | Obj o =>
        let '(r, b', tr) :=
          trigger "error" (errorEvent (uuids b (uuid_next b)) (thrown_message o))
            (with_uuid_next (S (uuid_next b)) b) in
        (r, b', errorLog key :: tr)
    end.
Proof.
  unfold bind at 1, emit at 1. destruct err as [| |o]; try reflexivity.
  rewrite handleError_via_object.
  destruct (trigger "error" _ _) as [[r b'] tr]. reflexivity.
Qed.

(** What leaves a dispatch is an object: [RangeError], or the [TypeError]
    of a failed reading. *)
Lemma forEach_throws {S A} (P : Caught -> Prop) (f : A -> M S unit) (l : list A) :
  (forall x s e, completion (f x s) = Throws e -> P e) ->
  forall s e, completion (forEach f l s) = Throws e -> P e.
Proof.
  intros Hf. induction l as [|x l IH]; intros s e; [discriminate|].
  cbn [forEach]. unfold bind. specialize (Hf x s).
  destruct (f x s) as [[[[]|e1] s1] tr1]; unfold completion in *; cbn [fst] in *.
  - specialize (IH s1 e). destruct (forEach f l s1) as [[r s2] tr2].
    cbn [fst] in *. exact IH.
  - intros [= <-]. apply Hf. reflexivity.
Qed.

Lemma triggerEvent_throws_object (stack : nat) :
  forall (key : string) (event : Event) (b : EventProcessor.t) (e : Caught),
  completion (triggerEvent stack key event b) = Throws e -> exists o, e = Obj o.
Proof.
  induction stack as [|stack IH]; intros key event b e.
  - intros [= <-]. eexists. reflexivity.
  - cbn [triggerEvent]. unfold bind at 1, get at 1.
    destruct (eventHandlers b !! key) as [hs|]; [|discriminate].
    intros H.
    assert (Hgoal : completion
              (forEach (fun handler =>
                          try_catch (call handler event)
                            (fun error =>
                               emit (errorLog key) ;;
                               handleError_via (triggerEvent stack) error)) hs b)
              = Throws e).
    { destruct (forEach _ hs b) as [[r b1] tr1]. exact H. }
    revert Hgoal.
    apply (forEach_throws (fun e => exists o, e = Obj o)).
    clear - IH. intros h b0 e.
    unfold try_catch, call. destruct (lrun h event) as [[| |o]|]; try discriminate.
    + intros [= <-]. eexists. reflexivity.
    + intros [= <-]. eexists. reflexivity.
    + unfold bind at 1, emit at 1. rewrite handleError_via_object.
      match goal with |- context [triggerEvent stack "error" ?ev ?b'] =>
        pose proof (IH "error" ev b' e) as Hi;
        destruct (triggerEvent stack "error" ev b') as [[r b2] tr2]
      end.
      exact Hi.
Qed.
End Dispatch.

(** C6.  The isolation of listeners, as far as the code provides it.  When
    the first listener of a key throws an object and the listeners
    registered under the error key return, the thrown error is caught,
    logged and converted into a synthesized error event (type [error],
    code [internal_error], the message of the thrown object) that is
    dispatched to each listener of the error key, and then the second
    listener is called with the same event; the dispatch returns when no
    later listener of the key throws [undefined] or [null].  When the
    first listener throws [undefined] or [null], the dispatch ends with
    the [TypeError] of [handleError] reading the message of the caught
    value: the error is logged, no error event is dispatched and the
    second listener is not called. *)
Theorem listener_isolation (stack : nat) (b : EventProcessor.t) (key : string)
    (event : Event) (first second : Listener) (others : list Listener) :
  EventProcessor.eventHandlers b !! key = Some (first :: second :: others) ->
  (forall err : Thrown,
     lrun first event = Some (Obj err) ->
     (forall ev', quiet ev' (EventProcessor.handlersOf "error" b)) ->
     exists r b' after,
       EventProcessor.triggerEvent (S (S stack)) key event b
       = (r, b',
          CallListener (lid first) event
            :: EventProcessor.errorLog key
            :: map (fun e =>
                      CallListener (lid e)
                        (EventProcessor.errorEvent
                           (EventProcessor.uuids b (EventProcessor.uuid_next b))
                           (thrown_message err)))
                   (EventProcessor.handlersOf "error" b)
            ++ CallListener (lid second) event :: after) /\
       (throwsObjects event (second :: others) -> r = Normal tt)) /\
  (lrun first event = Some Undefined \/ lrun first event = Some Null ->
   exists e,
     EventProcessor.triggerEvent (S stack) key event b
     = (Throws (Obj e),
        EventProcessor.with_uuid_next (S (EventProcessor.uuid_next b)) b,
        [CallListener (lid first) event; EventProcessor.errorLog key]) /\
     thrown_name e = "TypeError").
Proof.
  intros Hkey. split.
  - intros err Hfirst Hq. rewrite (triggerEvent_isolated stack key event b Hq).
    assert (Hhs : EventProcessor.handlersOf key b = first :: second :: others)
      by (unfold EventProcessor.handlersOf; rewrite Hkey; reflexivity).
    rewrite Hhs, (dispatch_object _ _ _ _ _ _ _ _ Hfirst).
    destruct (dispatch_head key event (EventProcessor.handlersOf "error" b)
                (EventProcessor.uuids b) (S (EventProcessor.uuid_next b))
                second others) as [after Hafter].
    pose proof (dispatch_throwsObjects key event
                  (EventProcessor.handlersOf "error" b) (EventProcessor.uuids b)
                  (second :: others)) as Hobj.
    destruct (dispatch key event (EventProcessor.handlersOf "error" b)
                (EventProcessor.uuids b) (S (EventProcessor.uuid_next b))
                (second :: others)) as [[tr n'] r] eqn:E.
    cbn [fst snd] in Hafter. subst tr.
    exists r, (EventProcessor.with_uuid_next n' b), after.
    split; [reflexivity|].
    intros H. specialize (Hobj H (S (EventProcessor.uuid_next b))).
    rewrite E in Hobj. exact Hobj.
  - destruct (triggerEvent_nullish stack key event b first (second :: others) Hkey)
      as [Hu Hn].
    intros [H|H].
    + exists (cannotRead "undefined" "message"). split; [exact (Hu H) | reflexivity].
    + exists (cannotRead "null" "message"). split; [exact (Hn H) | reflexivity].
Qed.

Lemma listener_isolation_witness :
  exists r b' after,
    EventProcessor.triggerEvent 2 "response.text.delta"
      (serverEvent "response.text.delta" "resp_1" "hi") throwingTextListener
    = (r, b',
       CallListener 1 (serverEvent "response.text.delta" "resp_1" "hi")
         :: EventProcessor.errorLog "response.text.delta"
         :: [CallListener 9
               (EventProcessor.errorEvent "00000000-0000-4000-8000-000000000000"
                  (Some "boom"))]
         ++ CallListener 2 (serverEvent "response.text.delta" "resp_1" "hi")
         :: after) /\
    (throwsObjects (serverEvent "response.text.delta" "resp_1" "hi") [recorder 2] ->
     r = Normal tt).
Proof.
  apply (proj1 (listener_isolation 0 throwingTextListener "response.text.delta"
                  (serverEvent "response.text.delta" "resp_1" "hi")
                  (thrower 1) (recorder 2) []
                  (proj1 throwingTextListener_handlers)) failing).
  - reflexivity.
  - intros ev'. rewrite (proj2 throwingTextListener_handlers).
    repeat constructor.
Defined.

(** Under the error key the isolation fails: with two listeners
    registered there, the first of which throws, the dispatch of an event
    under that key ends with [RangeError] whatever the depth of the stack,
    and the second listener is never called. *)
Lemma listener_isolation_fails_under_error_key :
  EventProcessor.eventHandlers throwingErrorListener !! "error"
  = Some [thrower 1; recorder 2] /\
  forall (stack : nat) (event : Event),
    lrun (thrower 1) event = Some (Obj failing) /\
    completion (EventProcessor.triggerEvent stack "error" event throwingErrorListener)
    = Throws RangeError /\
    forall ev,
      (2, ev) ∉ listenerCalls
                  (trace (EventProcessor.triggerEvent stack "error" event
                            throwingErrorListener)).
Proof.
  split; [exact throwingErrorListener_handlers|].
  intros stack event. split; [reflexivity|].
  destruct (error_loop stack throwingErrorListener event
              throwingErrorListener_handlers) as (b' & tr & Ht & Hn).
  rewrite Ht. split; [reflexivity | exact Hn].
Qed.

(** With a first listener that throws [undefined] it fails as well, under
    any key and although the listener of the error key returns: the
    dispatch ends with [TypeError] after the call of the first listener
    and the report; neither the second listener nor the listener of the
    error key is called. *)
Lemma listener_isolation_fails_on_undefined :
  EventProcessor.eventHandlers throwingUndefined !! "response.text.delta"
  = Some [throwsUndefined 1; recorder 2] /\
  EventProcessor.handlersOf "error" throwingUndefined = [recorder 9] /\
  forall (stack : nat) (event : Event),
    lrun (throwsUndefined 1) event = Some Undefined /\
    EventProcessor.triggerEvent (S stack) "response.text.delta" event
      throwingUndefined
    = (Throws (cannotRead "undefined" "message"),
       EventProcessor.with_uuid_next 1 throwingUndefined,
       [CallListener 1 event;
        EventProcessor.errorLog "response.text.delta"]).
Proof.
  split; [exact (proj1 throwingUndefined_handlers)|].
  split; [exact (proj2 throwingUndefined_handlers)|].
  intros stack event. split; [reflexivity|].
  exact (proj1 (triggerEvent_nullish stack "response.text.delta" event
                  throwingUndefined (throwsUndefined 1) [recorder 2]
                  (proj1 throwingUndefined_handlers)) eq_refl).
Qed.

(** C6, as stated for every key and every first listener that throws,
    fails on both inputs. *)
Lemma listener_isolation_fails :
  (forall (stack : nat) (event : Event),
     completion (EventProcessor.triggerEvent stack "error" event throwingErrorListener)
     = Throws RangeError /\
     forall ev,
       (2, ev) ∉ listenerCalls
                   (trace (EventProcessor.triggerEvent stack "error" event
                             throwingErrorListener))) /\
  (forall (stack : nat) (event : Event),
     completion (EventProcessor.triggerEvent (S stack) "response.text.delta" event
                   throwingUndefined)
     = Throws (cannotRead "undefined" "message") /\
     listenerCalls
       (trace (EventProcessor.triggerEvent (S stack) "response.text.delta" event
                 throwingUndefined))
     = [(1, event)]).
Proof.
  split; intros stack event.
  - exact (proj2 (proj2 listener_isolation_fails_under_error_key stack event)).
  - rewrite (proj2 (proj2 (proj2 listener_isolation_fails_on_undefined) stack event)).
    split; reflexivity.
Qed.

(** ** The interrupt cursor *)

Ltac by_type H :=
  rewrite ?H; simpl (String.eqb _ _); simpl (orb _ _); cbv match.

Lemma set_base_same (p : RealtimeApiEventProcessor.t) :
  RealtimeApiEventProcessor.set_base (RealtimeApiEventProcessor.base p) p = p.
Proof. destruct p; reflexivity. Qed.

Lemma handleAudioInterrupt_run (event : Event) (p : RealtimeApiEventProcessor.t) :
  RealtimeApiEventProcessor.handleAudioInterrupt event p =
  (Normal tt,
   RealtimeApiEventProcessor.set_lastInterruptTimestamp (suffixOf event) p,
   ConsoleLog "lastInterruptTimestamp" (suffixOf event)
     :: sinkCall (fun cb => OnAudioInterrupt cb (suffixOf event))
                 (RealtimeApiEventProcessor.onAudioInterrupt p)
     ++ sinkCall (fun cb => OnAudioFadeOut cb (suffixOf event))
                 (RealtimeApiEventProcessor.onAudioFadeOut p)).
Proof.
  destruct p as [b cursor chunk [interrupt|] [fadeOut|]]; reflexivity.
Qed.

Section Cursor.
Import RealtimeApiEventProcessor.

(** C1.  An audio delta whose suffix is not below the cursor (the cursor
    is [<=] the suffix, equality included) is forwarded to the audio-chunk
    sink with its delta payload, and nothing else happens; an audio delta
    whose suffix is strictly below the cursor produces no call at all:
    neither the sink nor any listener is invoked. *)
Theorem audio_delta_forwarding (stack : nat) (p : t) (event : Event) :
  ev_type event = "response.audio.delta" ->
  (JS.num_le (lastInterruptTimestamp p) (suffixOf event) = true ->
   forall sink, onAudioChunk p = Some sink ->
   processServerEvent stack event p
   = (Normal tt, p, [OnAudioChunk sink (delta event)]))
  /\ (JS.num_lt (suffixOf event) (lastInterruptTimestamp p) = true ->
      processServerEvent stack event p = (Normal tt, p, [])).
Proof.
  intros Hty. unfold processServerEvent. by_type Hty.
  unfold handleAudioResponse, bind, get. fold (suffixOf event). split.
  - intros Hle sink Hsink. rewrite Hle. unfold when. by_type Hty.
    rewrite Hsink. reflexivity.
  - intros Hlt. rewrite (num_lt_not_le _ _ Hlt). reflexivity.
Qed.

Lemma audio_delta_forwarding_witness :
  processServerEvent 1 (serverEvent "response.audio.delta" "resp_100" "BBB=")
    interruptedAt100
  = (Normal tt, interruptedAt100, [OnAudioChunk 7 "BBB="]) /\
  processServerEvent 1 (serverEvent "response.audio.delta" "resp_99" "CCC=")
    interruptedAt100
  = (Normal tt, interruptedAt100, []).
Proof.
  split.
  - apply (proj1 (audio_delta_forwarding 1 interruptedAt100
                    (serverEvent "response.audio.delta" "resp_100" "BBB=")
                    eq_refl)).
    + vm_compute. reflexivity.
    + reflexivity.
  - apply (proj2 (audio_delta_forwarding 1 interruptedAt100
                    (serverEvent "response.audio.delta" "resp_99" "CCC=")
                    eq_refl)).
    vm_compute. reflexivity.
Defined.

(** C10.  An audio delta or audio done event never reaches the listeners,
    whatever the cursor and whatever is registered under its type key: the
    processor and its registry are left as they were, the trace contains
    no listener call, and its only possible element is the call of the
    audio-chunk sink. *)
Theorem audio_events_bypass_listeners (stack : nat) (p : t) (event : Event) :
  ev_type event = "response.audio.delta" \/ ev_type event = "response.audio.done" ->
  final (processServerEvent stack event p) = p /\
  listenerCalls (trace (processServerEvent stack event p)) = [] /\
  forall e, e ∈ trace (processServerEvent stack event p) ->
            exists sink, onAudioChunk p = Some sink /\
                         e = OnAudioChunk sink (delta event).
Proof.
  intros Hty. unfold processServerEvent.
  destruct Hty as [Hty|Hty]; by_type Hty;
    unfold handleAudioResponse, bind, get, when;
    destruct (JS.num_le _ _); by_type Hty; simpl;
    try (split; [reflexivity | split; [reflexivity | intros e He; inversion He]]).
  destruct (onAudioChunk p) as [sink|]; simpl.
  - split; [reflexivity|]. split; [reflexivity|].
    intros e He. apply list_elem_of_singleton in He. eauto.
  - split; [reflexivity | split; [reflexivity | intros e He; inversion He]].
Qed.

Lemma audio_events_bypass_listeners_witness :
  EventProcessor.handlersOf "response.audio.delta" (base processor) = [recorder 5] /\
  listenerCalls
    (trace (processServerEvent 1
              (serverEvent "response.audio.delta" "resp_5" "AAA=") processor)) = [].
Proof.
  split; [vm_compute; reflexivity|].
  apply (audio_events_bypass_listeners 1 processor
           (serverEvent "response.audio.delta" "resp_5" "AAA=")).
  left. reflexivity.
Defined.

(** C7.  An interrupt signal sets the cursor to the suffix of its response
    identifier, then logs the new value, then calls the audio-interrupt
    sink and then the audio-fade-out sink, each when present: the log and
    both sinks see the new cursor.  When the second segment of the
    identifier is the decimal numeral of a natural number, the new cursor
    is the number nearest to it, whatever the cursor was; when the
    identifier has no underscore, it is zero. *)
Theorem audio_cancel_sets_cursor_then_sinks (stack : nat) (p : t) (event : Event) :
  ev_type event = "response.audio.cancel" ->
  let outcome (cursor : JS.number) :=
    (Normal tt,
     set_lastInterruptTimestamp cursor p,
     ConsoleLog "lastInterruptTimestamp" cursor
       :: sinkCall (fun cb => OnAudioInterrupt cb cursor) (onAudioInterrupt p)
       ++ sinkCall (fun cb => OnAudioFadeOut cb cursor) (onAudioFadeOut p)) in
  processServerEvent stack event p = outcome (suffixOf event) /\
  (forall n : N, secondSegmentIs (response_id event) (numeral n) ->
     processServerEvent stack event p = outcome (JS.of_Z (Z.of_N n))) /\
  (JS.includes "_" (response_id event) = false ->
     processServerEvent stack event p = outcome JS.zero).
Proof.
  intros Hty outcome.
  assert (Hrun : processServerEvent stack event p = outcome (suffixOf event)).
  { unfold processServerEvent. by_type Hty. apply handleAudioInterrupt_run. }
  repeat apply conj.
  - exact Hrun.
  - intros n Hn. rewrite Hrun. unfold suffixOf.
    rewrite (parseResponseId_numeral _ n Hn). reflexivity.
  - intros Hnone. rewrite Hrun. unfold suffixOf, parseResponseId.
    rewrite (split_without_separator _ _ Hnone). reflexivity.
Qed.

Lemma audio_cancel_sets_cursor_then_sinks_witness :
  processServerEvent 1 (serverEvent "response.audio.cancel" "resp_100" "") processor
  = (Normal tt, set_lastInterruptTimestamp (JS.of_Z 100) processor,
     [ConsoleLog "lastInterruptTimestamp" (JS.of_Z 100);
      OnAudioInterrupt 8 (JS.of_Z 100); OnAudioFadeOut 9 (JS.of_Z 100)]) /\
  processServerEvent 1 (serverEvent "response.audio.cancel" "resp_7" "")
    interruptedAt100
  = (Normal tt, set_lastInterruptTimestamp (JS.of_Z 7) interruptedAt100,
     [ConsoleLog "lastInterruptTimestamp" (JS.of_Z 7);
      OnAudioInterrupt 8 (JS.of_Z 7); OnAudioFadeOut 9 (JS.of_Z 7)]) /\
  lastInterruptTimestamp interruptedAt100 = JS.of_Z 100 /\
  JS.num_eq (JS.of_Z 7) (JS.of_Z 100) = false.
Proof.
  repeat apply conj.
  - apply (proj1 (proj2 (audio_cancel_sets_cursor_then_sinks 1 processor
                           (serverEvent "response.audio.cancel" "resp_100" "")
                           eq_refl)) 100%N).
    apply (second_segment_resp "100"). reflexivity.
  - apply (proj1 (proj2 (audio_cancel_sets_cursor_then_sinks 1 interruptedAt100
                           (serverEvent "response.audio.cancel" "resp_7" "")
                           eq_refl)) 7%N).
    apply (second_segment_resp "7"). reflexivity.
  - vm_compute. reflexivity.
  - vm_compute. reflexivity.
Defined.

(** C3.  A text delta or text done event whose suffix is strictly below
    the cursor is dropped: no call is made.  Otherwise it is dispatched
    unchanged under its type key; when the listeners of that key return,
    each is called once on the event, in registration order. *)
Theorem text_events_filtering (stack : nat) (p : t) (event : Event) :
  ev_type event = "response.text.delta" \/ ev_type event = "response.text.done" ->
  (JS.num_lt (suffixOf event) (lastInterruptTimestamp p) = true ->
   processServerEvent stack event p = (Normal tt, p, []))
  /\ (JS.num_lt (suffixOf event) (lastInterruptTimestamp p) = false ->
      processServerEvent stack event p
      = triggerEvent stack (ev_type event) event p
      /\ (quiet event (EventProcessor.handlersOf (ev_type event) (base p)) ->
          processServerEvent (S stack) event p
          = (Normal tt, p,
             map (fun h => CallListener (lid h) event)
                 (EventProcessor.handlersOf (ev_type event) (base p))))).
Proof.
  intros Hty.
  assert (Hrun : forall n, processServerEvent n event p =
            if JS.num_lt (suffixOf event) (lastInterruptTimestamp p)
            then (Normal tt, p, [])
            else triggerEvent n (ev_type event) event p).
  { intros n. unfold processServerEvent.
    destruct Hty as [Hty|Hty]; by_type Hty;
      unfold bind at 1, shouldFilterTextEvent, bind at 1, get, ret, JS.num_gt;
      fold (suffixOf event); unfold JS.num_lt;
      destruct (SFltb (suffixOf event) (lastInterruptTimestamp p)); try reflexivity;
      destruct (triggerEvent n _ event p) as [[c s] tr];
      reflexivity. }
  split; intros Hlt.
  - rewrite Hrun, Hlt. reflexivity.
  - split.
    + rewrite Hrun, Hlt. reflexivity.
    + intros Hq. rewrite Hrun, Hlt.
      unfold triggerEvent, super.
      rewrite (triggerEvent_quiet stack _ event (base p) Hq), set_base_same.
      reflexivity.
Qed.

Lemma text_events_filtering_witness :
  processServerEvent 1 (serverEvent "response.text.delta" "resp_99" "old")
    interruptedAt100
  = (Normal tt, interruptedAt100, []) /\
  processServerEvent 1 (serverEvent "response.text.delta" "resp_100" "new")
    interruptedAt100
  = (Normal tt, interruptedAt100,
     [CallListener 6 (serverEvent "response.text.delta" "resp_100" "new")]).
Proof.
  split.
  - apply (proj1 (text_events_filtering 1 interruptedAt100
                    (serverEvent "response.text.delta" "resp_99" "old")
                    (or_introl eq_refl))).
    vm_compute. reflexivity.
  - apply (proj2 (text_events_filtering 0 interruptedAt100
                    (serverEvent "response.text.delta" "resp_100" "new")
                    (or_introl eq_refl))).
    + vm_compute. reflexivity.
    + repeat constructor.
Defined.

Lemma processServerEvents_interrupts (stack : nat) (events : list Event) :
  forall p : t,
  Forall (fun e => ev_type e = "response.audio.cancel") events ->
  completion (processServerEvents stack events p) = Normal tt /\
  lastInterruptTimestamp (final (processServerEvents stack events p))
  = List.last (map suffixOf events) (lastInterruptTimestamp p).
Proof.
  induction events as [|e es IH]; intros p Hall.
  - split; reflexivity.
  - inversion Hall as [|? ? Hty Hes]; subst.
    set (p1 := set_lastInterruptTimestamp (suffixOf e) p).
    assert (Hstep : exists tr1, processServerEvents stack (e :: es) p =
              let '(r, s, tr) := processServerEvents stack es p1 in
              (r, s, tr1 ++ tr)).
    { eexists. cbn [processServerEvents]. unfold bind at 1.
      unfold processServerEvent. by_type Hty. rewrite handleAudioInterrupt_run.
      reflexivity. }
    destruct Hstep as [tr1 Hstep]. rewrite Hstep.
    destruct (IH p1 Hes) as [Hc Hl].
    destruct (processServerEvents stack es p1) as [[c s] tr].
    unfold completion, final in *. cbn [fst snd] in *. split; [exact Hc|].
    rewrite Hl. cbn [map]. rewrite last_cons. reflexivity.
Qed.

(** C2 (as amended).  After a sequence of interrupt signals, all of which
    complete, the cursor is the suffix of the last signal processed (and
    is unchanged by an empty sequence): each signal overwrites the cursor,
    whether its suffix is larger or smaller than the previous one.  A
    reset sets the cursor to zero. *)
Theorem cursor_follows_last_interrupt (stack : nat) (events : list Event)
    (p : t) :
  Forall (fun e => ev_type e = "response.audio.cancel") events ->
  completion (processServerEvents stack events p) = Normal tt /\
  lastInterruptTimestamp (final (processServerEvents stack events p))
  = List.last (map suffixOf events) (lastInterruptTimestamp p) /\
  getLastInterruptTimestamp
    (resetInterruptTimestamp (final (processServerEvents stack events p)))
  = JS.zero.
Proof.
  intros Hall.
  destruct (processServerEvents_interrupts stack events p Hall) as [Hc Hl].
  repeat apply conj; [exact Hc | exact Hl | reflexivity].
Qed.

Lemma cursor_follows_last_interrupt_witness :
  lastInterruptTimestamp
    (final (processServerEvents 1
              [serverEvent "response.audio.cancel" "resp_5" "";
               serverEvent "response.audio.cancel" "resp_7" ""] processor))
  = JS.parseFloat "7".
Proof.
  apply (cursor_follows_last_interrupt 1
           [serverEvent "response.audio.cancel" "resp_5" "";
            serverEvent "response.audio.cancel" "resp_7" ""] processor).
  repeat constructor.
Defined.

(** C2, as stated, fails: after the interrupts of responses 7 and 5, in
    that order and with no reset in between, the cursor is 5, below the
    value 7 it had after the first signal and below the maximum of the
    suffixes seen. *)
Lemma cursor_is_not_the_maximum :
  let first := serverEvent "response.audio.cancel" "resp_7" "" in
  let second := serverEvent "response.audio.cancel" "resp_5" "" in
  let after_first := final (processServerEvents 1 [first] processor) in
  let after_second := final (processServerEvents 1 [first; second] processor) in
  lastInterruptTimestamp after_first = JS.of_Z 7 /\
  lastInterruptTimestamp after_second = JS.of_Z 5 /\
  maxSuffix [first; second] = JS.of_Z 7 /\
  lastInterruptTimestamp after_second <> maxSuffix [first; second] /\
  JS.num_lt (lastInterruptTimestamp after_second)
            (lastInterruptTimestamp after_first) = true.
Proof. vm_compute. repeat split; congruence. Qed.
End Cursor.

(** ** The conversation session *)

Section Session.
Import Conversation.

(** C8 (as amended).  While connected, an event other than an audio
    append is logged to the debug console, then serialized and sent over
    the transport, and only then passed to the observation callback, when
    one is configured; an audio append is sent only, and is neither logged
    nor passed to the callback. *)
Theorem sendEvent_transmits_then_mirrors (c : t) (w : WebSocket)
    (event : ClientEvent) :
  ws c = Some w -> isConnected c = true ->
  sendEvent event c =
  (Normal tt, c,
   if String.eqb (cev_type event) "input_audio_buffer.append"
   then [WsSend event]
   else ConsoleDebug event :: WsSend event
          :: sinkCall (fun cb => OnSendEvent cb event) (onSendEvent c)).
Proof.
  intros Hws Hconn. unfold sendEvent, bind at 1, get at 1.
  rewrite Hws, Hconn. simpl (negb _ || negb _)%bool. cbv match.
  destruct (String.eqb (cev_type event) "input_audio_buffer.append"); simpl.
  - reflexivity.
  - destruct (onSendEvent c); reflexivity.
Qed.

Lemma sendEvent_transmits_then_mirrors_witness :
  sendEvent sessionUpdate connected
  = (Normal tt, connected,
     [ConsoleDebug sessionUpdate; WsSend sessionUpdate; OnSendEvent 4 sessionUpdate])
  /\ sendEvent audioAppend connected = (Normal tt, connected, [WsSend audioAppend]).
Proof.
  split.
  - exact (sendEvent_transmits_then_mirrors connected _ sessionUpdate eq_refl eq_refl).
  - exact (sendEvent_transmits_then_mirrors connected _ audioAppend eq_refl eq_refl).
Defined.

(** C8, as stated, fails: the observation callback is called after the
    event has been sent, not before. *)
Lemma sendEvent_mirrors_after_transmission :
  trace (sendEvent sessionUpdate connected)
  = [ConsoleDebug sessionUpdate; WsSend sessionUpdate; OnSendEvent 4 sessionUpdate]
  /\ precedes (WsSend sessionUpdate) (OnSendEvent 4 sessionUpdate)
       (trace (sendEvent sessionUpdate connected))
  /\ ~ precedes (OnSendEvent 4 sessionUpdate) (WsSend sessionUpdate)
         (trace (sendEvent sessionUpdate connected)).
Proof.
  assert (Htr : trace (sendEvent sessionUpdate connected)
                = [ConsoleDebug sessionUpdate; WsSend sessionUpdate;
                   OnSendEvent 4 sessionUpdate]) by reflexivity.
  rewrite Htr. split; [reflexivity|]. split.
  - exists [ConsoleDebug sessionUpdate], [], []. reflexivity.
  - intros (l1 & l2 & l3 & H).
    destruct l1 as [|a1 [|a2 [|a3 l1]]]; simpl in H; try discriminate H.
    + injection H as _ _ H. destruct l2; discriminate H.
    + injection H as _ _ _ H. destruct l1; discriminate H.
Qed.

(** What [handleError] does with an object. *)
Lemma handleError_object (error : Thrown) (c : t) :
  handleError error c = (Normal tt, c, [report error]).
Proof. reflexivity. Qed.

Lemma processInternalEvent_throws_object (stack : nat) (event : Event)
    (p : RealtimeApiEventProcessor.t) (e : Caught) :
  completion (RealtimeApiEventProcessor.processInternalEvent stack event p)
  = Throws e ->
  exists o, e = Obj o.
Proof.
  unfold RealtimeApiEventProcessor.processInternalEvent,
    RealtimeApiEventProcessor.triggerEvent, RealtimeApiEventProcessor.super.
  pose proof (triggerEvent_throws_object stack (ev_type event) event
                (RealtimeApiEventProcessor.base p) e) as H.
  destruct (EventProcessor.triggerEvent stack (ev_type event) event
              (RealtimeApiEventProcessor.base p)) as [[r b] tr].
  exact H.
Qed.

(** The session after the teardown of its devices and of its socket. *)
Lemma set_ws_same (c : t) : ws c = None -> set_ws None c = c.
Proof. destruct c. cbn. intros ->. reflexivity. Qed.

(** The [try] block of [endSession], step by step: closing a closed
    capture device throws at once; closing a closed render device throws
    after the capture device has been closed; with both devices open they
    are closed, the socket is closed and released, the flag is cleared and
    the [disconnected] event is dispatched, and the block ends as the
    dispatch does. *)
Lemma teardown_run (stack : nat) (c : t) (ain : AudioInput) (aout : AudioOutput) :
  audioInput c = Some ain -> audioOutput c = Some aout ->
  (in_closed ain = true ->
   teardown stack c = (Throws InvalidStateError, c, [StopTracks])) /\
  (in_closed ain = false -> out_closed aout = true ->
   teardown stack c
   = (Throws InvalidStateError,
      set_audioInput (Some {| in_closed := true |}) c, [StopTracks])) /\
  (in_closed ain = false -> out_closed aout = false ->
   teardown stack c
   = let '(r, p', tr) :=
       RealtimeApiEventProcessor.processInternalEvent stack disconnected
         (eventProcessor c) in
     (r,
      set_eventProcessor p'
        (set_isConnected false
           (set_ws None
              (set_audioOutput
                 (Some {| out_closed := true; gain_value := gain_value aout;
                          ramp := ramp aout |})
                 (set_audioInput (Some {| in_closed := true |}) c)))),
      StopTracks :: sinkCall (fun _ => WsClose) (ws c) ++ tr)).
Proof.
  intros Hin Hout. repeat apply conj.
  - intros Ein. unfold teardown.
    unfold bind at 1, get at 1. rewrite Hin. cbn [optionally].
    unfold bind at 1. unfold AudioInput_close at 1.
    unfold bind at 1, emit at 1, bind at 1, contextClose at 1. rewrite Ein.
    reflexivity.
  - intros Ein Eout. unfold teardown.
    unfold bind at 1, get at 1. rewrite Hin. cbn [optionally].
    unfold bind at 1. unfold AudioInput_close at 1.
    unfold bind at 1, emit at 1, bind at 1, contextClose at 1. rewrite Ein.
    cbn -[RealtimeApiEventProcessor.processInternalEvent]. rewrite Hout.
    cbn [optionally].
    unfold bind at 1. unfold AudioOutput_close at 1, bind at 1, contextClose at 1.
    rewrite Eout. reflexivity.
  - intros Ein Eout.
    unfold teardown, bind, get, put, emit, optionally, when,
      AudioInput_close, AudioOutput_close, contextClose, onProcessor, ret.
    rewrite Hin, Ein. cbn -[RealtimeApiEventProcessor.processInternalEvent].
    rewrite Hout, Eout.
    destruct (ws c) as [w|] eqn:Hws;
      cbn -[RealtimeApiEventProcessor.processInternalEvent];
      rewrite ?Hws; cbn -[RealtimeApiEventProcessor.processInternalEvent];
      destruct (RealtimeApiEventProcessor.processInternalEvent stack disconnected
                  (eventProcessor c)) as [[r p'] tr]; [reflexivity|].
    cbn. destruct c; cbn in *; subst; reflexivity.
Qed.

(** What leaves the [try] block is an object. *)
Lemma teardown_throws_object (stack : nat) (c : t) (e : Caught) :
  completion (teardown stack c) = Throws e -> exists o, e = Obj o.
Proof.
  unfold completion, teardown, bind, get, put, emit, optionally, when,
    AudioInput_close, AudioOutput_close, contextClose, onProcessor, ret, throw.
  destruct (audioInput c) as [[[]]|];
    cbn -[RealtimeApiEventProcessor.processInternalEvent];
    try (intros [= <-]; eexists; reflexivity);
    destruct (audioOutput c) as [[[] g r]|];
    cbn -[RealtimeApiEventProcessor.processInternalEvent];
    try (intros [= <-]; eexists; reflexivity);
    destruct (ws c); cbn -[RealtimeApiEventProcessor.processInternalEvent];
    pose proof (processInternalEvent_throws_object stack disconnected
                  (eventProcessor c) e) as Hp;
    destruct (RealtimeApiEventProcessor.processInternalEvent stack disconnected
                (eventProcessor c)) as [[[[]|e'] p'] tr];
    cbn; intros H; try discriminate H; injection H as <-; apply Hp; reflexivity.
Qed.

(** [endSession] ends as its [try] block does; what the block throws is
    reported and thrown again. *)
Lemma endSession_run (stack : nat) (c : t) :
  (forall c' tr, teardown stack c = (Normal tt, c', tr) ->
                 endSession stack c = (Normal tt, c', tr)) /\
  (forall (o : Thrown) c' tr, teardown stack c = (Throws o, c', tr) ->
                 endSession stack c = (Throws o, c', tr ++ [report o])).
Proof.
  unfold endSession, try_catch. split; intros; rewrite H; reflexivity.
Qed.

Lemma endSession_throws (stack : nat) (c c' : t) (e : Caught) (tr : list Effect) :
  endSession stack c = (Throws e, c', tr) ->
  exists (o : Thrown) tr0,
    e = Obj o /\ teardown stack c = (Throws o, c', tr0) /\ tr = tr0 ++ [report o].
Proof.
  pose proof (teardown_throws_object stack c) as Hobj.
  pose proof (proj2 (endSession_run stack c)) as Hrun.
  unfold endSession, try_catch in *.
  destruct (teardown stack c) as [[[[]|e0] s] tr0]; [discriminate|].
  destruct (Hobj e0 eq_refl) as [o ->].
  rewrite (Hrun o s tr0 eq_refl). intros [= <- <- <-].
  exists o, tr0. repeat split.
Qed.

(** C4.  What [endSession] does.  On a session whose two devices are open
    it closes both devices (each is marked closed in the session it
    leaves), closes and releases the transport, clears the connection flag
    and dispatches one internal [disconnected] event; it returns when the
    dispatch does, and when the dispatch throws it reports what was thrown
    and throws it again.  It does not release the devices: called again in
    succession it tries to close the closed capture device, which is
    rejected, reports the failure and throws it again, without a
    [disconnected] event.  A closed render device is reported and thrown
    in the same way, after the capture device has been closed; in general,
    whatever the [try] block throws is reported once and thrown again.
    [close] is the method that reports and swallows what [endSession]
    throws. *)
Theorem endSession_teardown (stack : nat) (c : t) (ain : AudioInput)
    (aout : AudioOutput) :
  audioInput c = Some ain -> audioOutput c = Some aout ->
  (in_closed ain = false -> out_closed aout = false ->
   forall r p' tr,
     RealtimeApiEventProcessor.processInternalEvent stack disconnected
       (eventProcessor c) = (r, p', tr) ->
     let c' :=
       set_eventProcessor p'
         (set_isConnected false
            (set_ws None
               (set_audioOutput
                  (Some {| out_closed := true; gain_value := gain_value aout;
                           ramp := ramp aout |})
                  (set_audioInput (Some {| in_closed := true |}) c)))) in
     (r = Normal tt ->
      endSession stack c
      = (Normal tt, c', StopTracks :: sinkCall (fun _ => WsClose) (ws c) ++ tr)) /\
     (forall e, r = Throws e ->
      exists o : Thrown,
        e = Obj o /\
        endSession stack c
        = (Throws o, c',
           (StopTracks :: sinkCall (fun _ => WsClose) (ws c) ++ tr)
             ++ [report o])) /\
     endSession stack c'
     = (Throws InvalidStateError, c', [StopTracks; report InvalidStateError]))
  /\ (in_closed ain = true ->
      endSession stack c
      = (Throws InvalidStateError, c, [StopTracks; report InvalidStateError]))
  /\ (in_closed ain = false -> out_closed aout = true ->
      endSession stack c
      = (Throws InvalidStateError,
         set_audioInput (Some {| in_closed := true |}) c,
         [StopTracks; report InvalidStateError]))
  /\ (forall (o : Thrown) c' tr,
        teardown stack c = (Throws o, c', tr) ->
        endSession stack c = (Throws o, c', tr ++ [report o]))
  /\ completion (close stack c) = Normal tt.
Proof.
  intros Hin Hout.
  destruct (teardown_run stack c ain aout Hin Hout) as (Hci & Hco & Hopen).
  destruct (endSession_run stack c) as [Hnormal Hthrows].
  repeat apply conj.
  - intros Ein Eout r p' tr Hrun c'.
    specialize (Hopen Ein Eout). rewrite Hrun in Hopen. fold c' in Hopen.
    repeat apply conj.
    + intros ->. apply Hnormal. exact Hopen.
    + intros e ->.
      destruct (processInternalEvent_throws_object stack disconnected
                  (eventProcessor c) e) as [o ->].
      { rewrite Hrun. reflexivity. }
      exists o. split; [reflexivity|]. apply Hthrows. exact Hopen.
    + destruct (teardown_run stack c' {| in_closed := true |}
                  {| out_closed := true; gain_value := gain_value aout;
                     ramp := ramp aout |} eq_refl eq_refl) as (Hagain & _ & _).
      apply (proj2 (endSession_run stack c') InvalidStateError c' [StopTracks]).
      apply Hagain. reflexivity.
  - intros Ein. apply (Hthrows InvalidStateError c [StopTracks]). apply Hci, Ein.
  - intros Ein Eout.
    apply (Hthrows InvalidStateError _ [StopTracks]). apply Hco; assumption.
  - exact Hthrows.
  - unfold close, try_catch.
    destruct (endSession stack c) as [[[[]|e] c'] tr] eqn:E; [reflexivity|].
    destruct (endSession_throws stack c c' e tr E) as (o & tr0 & -> & _ & _).
    reflexivity.
Qed.

Lemma endSession_teardown_witness :
  let c' := final (endSession 2 connected) in
  endSession 2 connected
  = (Normal tt, c', [StopTracks; WsClose; CallListener 3 disconnected]) /\
  audioInput c' = Some {| in_closed := true |} /\
  out_closed <$> audioOutput c' = Some true /\
  ws c' = None /\ isConnected c' = false /\
  endSession 2 c'
  = (Throws InvalidStateError, c', [StopTracks; report InvalidStateError]).
Proof.
  cbv zeta.
  destruct (proj1 (endSession_teardown 2 connected _ _ eq_refl eq_refl)
              eq_refl eq_refl _ _ _ eq_refl) as (Hfirst & _ & Hsecond).
  rewrite (Hfirst eq_refl). unfold final. cbn [fst snd].
  repeat apply conj; first [exact Hsecond | reflexivity].
Defined.

(** C4, as stated, fails: of two [endSession] calls in succession the
    first closes the two devices and keeps them, and the second throws at
    the capture device, before the transport and before any
    [disconnected] event. *)
Lemma endSession_twice_throws :
  let first := endSession 2 connected in
  let second := endSession 2 (final first) in
  completion first = Normal tt /\
  audioInput (final first) = Some {| in_closed := true |} /\
  out_closed <$> audioOutput (final first) = Some true /\
  ws (final first) = None /\
  completion second = Throws InvalidStateError /\
  trace second
  = [StopTracks;
     ConsoleError "Error in conversation: Cannot close a closed AudioContext."].
Proof. vm_compute. repeat apply conj; reflexivity. Qed.

(** The close event of the socket dispatches [disconnected] as well. *)
Example onclose_after_endSession :
  trace (ws_onclose 2 (final (endSession 2 connected)))
  = [ConsoleInfo "WebSocket connection closed"; CallListener 3 disconnected].
Proof. vm_compute. reflexivity. Qed.

(** *** Volume *)

Lemma of_Z_1 : JS.of_Z 1 = S754_finite false 4503599627370496 (-52).
Proof. vm_compute. reflexivity. Qed.

Lemma SFcompare_refl_finite (s : bool) (m : positive) (e : Z) :
  SFcompare (S754_finite s m e) (S754_finite s m e) = Some Eq.
Proof.
  cbn [SFcompare]. rewrite Z.compare_refl, Pos.compare_cont_refl.
  destruct s; reflexivity.
Qed.

Ltac clamp_leaf :=
  repeat apply conj;
  try reflexivity;
  try (let H := fresh in intros H; discriminate H);
  try (intros; reflexivity);
  try (intros; discriminate).

(** [Math.max(0, Math.min(hi, v))] for a positive finite [hi] and a [v]
    other than NaN. *)
Lemma clamp_between (hi v : JS.number) (m1 : positive) (e1 : Z) :
  hi = S754_finite false m1 e1 ->
  JS.isNaN v = false ->
  let r := JS.Math_max JS.zero (JS.Math_min hi v) in
  JS.isFinite r = true /\
  JS.num_le JS.zero r = true /\
  JS.num_le r hi = true /\
  (JS.num_lt v JS.zero = true -> r = JS.zero) /\
  (JS.num_lt hi v = true -> r = hi) /\
  (JS.num_le JS.zero v = true -> JS.num_le v hi = true -> JS.num_eq r v = true).
Proof.
  intros -> Hnan.
  assert (Hrefl1 := SFcompare_refl_finite false m1 e1).
  unfold JS.zero, JS.num_lt, JS.num_le, JS.num_eq.
  destruct v as [s|s| |s m e]; try discriminate Hnan.
  - destruct s;
      repeat (progress (cbn; rewrite ?Z.compare_refl, ?Pos.compare_cont_refl));
      clamp_leaf.
  - destruct s;
      repeat (progress (cbn; rewrite ?Z.compare_refl, ?Pos.compare_cont_refl));
      clamp_leaf.
  - destruct s.
    + repeat (progress (cbn; rewrite ?Z.compare_refl, ?Pos.compare_cont_refl));
        clamp_leaf.
    + assert (Hrefl := SFcompare_refl_finite false m e).
      assert (Hanti := SFcompare_antisym (S754_finite false m e)
                         (S754_finite false m1 e1)).
      unfold JS.Math_min, JS.Math_max, SFltb, SFleb, SFeqb.
      destruct (SFcompare (S754_finite false m e) (S754_finite false m1 e1))
        as [[| |]|] eqn:E; cbn [option_map CompOpp] in Hanti;
        repeat (progress
                  (cbv match; rewrite ?Hanti, ?Hrefl, ?Hrefl1, ?E;
                   change (SFcompare (S754_zero false) (S754_finite false m1 e1))
                     with (Some Lt);
                   change (SFcompare (S754_zero false) (S754_finite false m e))
                     with (Some Lt);
                   change (SFcompare (S754_finite false m e) (S754_zero false))
                     with (Some Gt)));
        first [ discriminate E | clamp_leaf ].
Qed.

(** C9 (as amended).  For every input other than NaN, [setVolume] stores
    the input clamped to the interval from 0 to 1, which [getVolume]
    returns, and applies it to the gain of the render device.  The stored
    volume survives an interrupt fade: when the ramp of [fadeOutAudio] has
    brought the gain down to 0.0001, the scheduled callback sets the gain
    back to the stored volume. *)
Theorem setVolume_clamps_and_survives_fade (c : t) (v : JS.number) :
  JS.isNaN v = false ->
  let set := final (setVolume v c) in
  let faded := rampCompleted (final (fadeOutAudio set)) in
  let restored := final (runTimer faded) in
  (completion (setVolume v c) = Normal tt /\
   JS.num_le JS.zero (getVolume set) = true /\
   JS.num_le (getVolume set) (JS.of_Z 1) = true /\
   (JS.num_le JS.zero v = true -> JS.num_le v (JS.of_Z 1) = true ->
    JS.num_eq (getVolume set) v = true) /\
   (JS.num_lt v JS.zero = true -> getVolume set = JS.zero) /\
   (JS.num_lt (JS.of_Z 1) v = true -> getVolume set = JS.of_Z 1)) /\
  (forall a : AudioOutput, audioOutput c = Some a ->
   gain_value <$> audioOutput set = Some (getVolume set) /\
   gain_value <$> audioOutput faded = Some (JS.decimal false 1 (-4)) /\
   completion (runTimer faded) = Normal tt /\
   getVolume restored = getVolume set /\
   gain_value <$> audioOutput restored = Some (getVolume set)).
Proof.
  intros Hnan.
  destruct (clamp_between (JS.of_Z 1) v _ _ of_Z_1 Hnan)
    as (Hfin & H0 & H1 & Hlo & Hhi & Hin).
  remember (JS.Math_max JS.zero (JS.Math_min (JS.of_Z 1) v)) as r eqn:Hr.
  assert (Hset : setVolume v c
                 = (Normal tt,
                    match audioOutput c with
                    | Some a =>
                        set_audioOutput
                          (Some {| out_closed := out_closed a; gain_value := r;
                                   ramp := ramp a |})
                          (set_volume r c)
                    | None => set_volume r c
                    end, [])).
  { unfold setVolume, bind, get, put, optionally. rewrite <- Hr.
    cbn [audioOutput set_volume volume].
    destruct (audioOutput c) as [a|]; [|reflexivity].
    unfold setGainValue, bind, get, put. cbn [volume set_volume].
    rewrite Hfin. reflexivity. }
  rewrite Hset. unfold final, completion, getVolume. cbn [fst snd]. split.
  - destruct (audioOutput c);
      cbn [volume set_audioOutput set_volume];
      repeat apply conj; try assumption; reflexivity.
  - intros a Hout. rewrite Hout.
    cbn [volume set_audioOutput set_volume audioOutput].
    repeat apply conj; try reflexivity.
    all: unfold fadeOutAudio, exponentialRampToValueAtTime, rampCompleted, runTimer,
           fadeOutAudio_restore, setGainValue, bind, get, put, emit;
         cbn [audioOutput set_audioOutput set_volume set_timers timers volume
              fst snd ramp gain_value out_closed];
         destruct (timers c) as [|d l]; cbn [app];
         cbn [audioOutput set_audioOutput set_volume set_timers timers volume
              fst snd ramp gain_value out_closed];
         rewrite ?Hfin; reflexivity.
Qed.

Lemma setVolume_clamps_and_survives_fade_witness :
  JS.num_eq (getVolume (final (setVolume half connected))) half = true /\
  gain_value
    <$> audioOutput
          (final (runTimer
                    (rampCompleted
                       (final (fadeOutAudio (final (setVolume half connected)))))))
  = Some (getVolume (final (setVolume half connected))).
Proof.
  pose proof (setVolume_clamps_and_survives_fade connected half eq_refl) as H.
  cbv zeta in H.
  destruct H as ((_ & _ & _ & Hin & _ & _) & Hfade).
  split; [apply Hin; reflexivity|].
  destruct (Hfade _ eq_refl) as (_ & _ & _ & _ & Hrestored).
  exact Hrestored.
Defined.

(** C9, as stated for every input, fails at NaN: the stored volume is NaN,
    which is not in the interval from 0 to 1. *)
Lemma setVolume_stores_NaN :
  getVolume (final (setVolume JS.NaN connected)) = JS.NaN /\
  JS.num_le JS.zero (getVolume (final (setVolume JS.NaN connected))) = false /\
  JS.num_le (getVolume (final (setVolume JS.NaN connected))) (JS.of_Z 1) = false.
Proof. repeat apply conj; reflexivity. Qed.

Example volume_examples :
  getVolume (final (setVolume (JS.of_Z 3) connected)) = JS.of_Z 1 /\
  getVolume (final (setVolume (JS.of_Z (-2)) connected)) = JS.zero /\
  getVolume (final (setVolume (S754_infinity false) connected)) = JS.of_Z 1 /\
  getVolume (final (setVolume (S754_zero true) connected)) = JS.zero /\
  completion (setVolume JS.NaN connected) = Throws TypeError.
Proof. vm_compute. repeat apply conj; reflexivity. Qed.
End Session.

(** * Further properties *)

Import Scenarios.

(** ** The listener registry *)

Section Registry.
Import EventProcessor.

Lemma handlersOf_on (key : string) (h : Listener) (p : EventProcessor.t) :
  handlersOf key (on key h p) = set_add h (handlersOf key p) /\
  forall key', key' <> key -> handlersOf key' (on key h p) = handlersOf key' p.
Proof.
  unfold handlersOf, on. cbn [eventHandlers set_eventHandlers]. split.
  - rewrite lookup_alter_eq.
    destruct (eventHandlers p !! key) as [l|] eqn:E.
    + rewrite E. reflexivity.
    + rewrite lookup_insert_eq. reflexivity.
  - intros key' Hne. rewrite lookup_alter_ne by congruence.
    destruct (eventHandlers p !! key) as [l|] eqn:E; [reflexivity|].
    rewrite lookup_insert_ne by congruence. reflexivity.
Qed.

Lemma set_add_registered (h : Listener) (l : list Listener) :
  set_has h (set_add h l) = true.
Proof.
  unfold set_add. destruct (set_has h l) eqn:E; [exact E|].
  unfold set_has. rewrite existsb_app. simpl. rewrite Nat.eqb_refl.
  rewrite orb_true_r. reflexivity.
Qed.

Lemma set_delete_absent (h : Listener) (l : list Listener) :
  set_has h l = false -> set_delete h l = l.
Proof.
  unfold set_has, set_delete. induction l as [|x l IH]; [reflexivity|].
  cbn [existsb List.filter]. intros H. apply orb_false_iff in H as [Hx Hl].
  rewrite Hx, (IH Hl). reflexivity.
Qed.

Lemma set_delete_removes (h : Listener) (l : list Listener) :
  set_has h (set_delete h l) = false.
Proof.
  unfold set_has, set_delete. induction l as [|x l IH]; [reflexivity|].
  cbn [List.filter]. destruct (Nat.eqb (lid x) (lid h)) eqn:E; cbn [negb existsb].
  - exact IH.
  - rewrite E, IH. reflexivity.
Qed.

Lemma set_delete_add (h : Listener) (l : list Listener) :
  set_has h l = false -> set_delete h (set_add h l) = l.
Proof.
  intros H. unfold set_add. rewrite H. unfold set_delete.
  rewrite List.filter_app. cbn [List.filter]. rewrite Nat.eqb_refl. cbn [negb].
  rewrite app_nil_r. apply (set_delete_absent h l H).
Qed.

Lemma handlersOf_off (key : string) (h : Listener) (p : EventProcessor.t) :
  handlersOf key (off key h p) = set_delete h (handlersOf key p) /\
  forall key', key' <> key -> handlersOf key' (off key h p) = handlersOf key' p.
Proof.
  unfold handlersOf, off. cbn [eventHandlers set_eventHandlers]. split.
  - rewrite lookup_alter_eq. destruct (eventHandlers p !! key); reflexivity.
  - intros key' Hne. rewrite lookup_alter_ne by congruence. reflexivity.
Qed.

(** X2.  After [off] the listener is not registered under the key.  When
    it was not registered before, [off] changes nothing, and [off] after
    [on] gives back the listeners the key had, in their order. *)
Theorem off_unregisters (key : string) (h : Listener) (p : EventProcessor.t) :
  set_has h (handlersOf key (off key h p)) = false /\
  (set_has h (handlersOf key p) = false ->
   off key h p = p /\ handlersOf key (off key h (on key h p)) = handlersOf key p).
Proof.
  split.
  - rewrite (proj1 (handlersOf_off key h p)). apply set_delete_removes.
  - intros Habsent. split.
    + unfold off. rewrite alter_id.
      * destruct p; reflexivity.
      * intros l Hl. apply set_delete_absent. unfold handlersOf in Habsent.
        rewrite Hl in Habsent. exact Habsent.
    + rewrite (proj1 (handlersOf_off key h (on key h p))),
              (proj1 (handlersOf_on key h p)).
      apply set_delete_add. exact Habsent.
Qed.

(** *** What a dispatch leaves as it was *)
Lemma sameRegistry_refl b : sameRegistry b b.
Proof. repeat split; lia. Qed.

Lemma sameRegistry_trans a b c : sameRegistry a b -> sameRegistry b c -> sameRegistry a c.
Proof.
  intros (H1 & H2 & H3 & H4) (G1 & G2 & G3 & G4). repeat split; try congruence; lia.
Qed.

Lemma forEach_sameRegistry {A} (f : A -> M EventProcessor.t unit) (l : list A) :
  (forall x b, sameRegistry b (final (f x b))) ->
  forall b, sameRegistry b (final (forEach f l b)).
Proof.
  intros Hf. induction l as [|x l IH]; intros b; [apply sameRegistry_refl|].
  cbn [forEach]. unfold bind. specialize (Hf x b).
  destruct (f x b) as [[[[]|e] b1] tr1]; unfold final in *; cbn [fst snd] in *.
  - specialize (IH b1). destruct (forEach f l b1) as [[r b2] tr2].
    cbn [fst snd] in *. eapply sameRegistry_trans; eassumption.
  - exact Hf.
Qed.

Lemma triggerEvent_sameRegistry (stack : nat) :
  forall (key : string) (event : Event) (b : EventProcessor.t),
  sameRegistry b (final (triggerEvent stack key event b)).
Proof.
  induction stack as [|stack IH]; intros key event b.
  - apply sameRegistry_refl.
  - cbn [triggerEvent]. unfold bind at 1, get at 1.
    destruct (eventHandlers b !! key) as [hs|]; [|apply sameRegistry_refl].
    assert (H : sameRegistry b (final (forEach
              (fun handler => try_catch (call handler event)
                 (fun error => emit (errorLog key) ;;
                    handleError_via (triggerEvent stack) error)) hs b))).
    { apply forEach_sameRegistry. intros h b0.
      unfold try_catch, call. destruct (lrun h event) as [err|]; [|apply sameRegistry_refl].
      rewrite catch_run. destruct err as [| |o];
        try (unfold sameRegistry, final; cbn; repeat apply conj;
             solve [reflexivity | lia]).
      match goal with |- context [triggerEvent stack "error" ?e ?b'] =>
        pose proof (IH "error" e b') as Hi;
        destruct (triggerEvent stack "error" e b') as [[r b2] tr2]
      end.
      unfold final in *. cbn [fst snd] in *.
      destruct Hi as (H1 & H2 & H3 & H4). cbn in H1, H2, H3, H4.
      repeat split; try assumption. lia. }
    destruct (forEach _ hs b) as [[r b1] tr1]. exact H.
Qed.
(** *** The listeners a dispatch calls *)
Lemma listenerCalls_app (a b : list Effect) :
  listenerCalls (a ++ b) = listenerCalls a ++ listenerCalls b.
Proof. unfold listenerCalls. apply omap_app. Qed.

Lemma handlersOf_sameRegistry key b b' :
  sameRegistry b b' -> handlersOf key b' = handlersOf key b.
Proof. intros (H & _). unfold handlersOf. rewrite H. reflexivity. Qed.

Lemma triggerEvent_calls (stack : nat) :
  forall (key : string) (event : Event) (b : EventProcessor.t) (c : nat * Event),
  c ∈ listenerCalls (trace (triggerEvent stack key event b)) ->
  calledFrom key event b c.
Proof.
  induction stack as [|stack IH]; intros key event b c Hc.
  - inversion Hc.
  - cbn [triggerEvent] in Hc. unfold bind at 1, get at 1 in Hc.
    unfold calledFrom.
    destruct (eventHandlers b !! key) as [hs|] eqn:Ehs.
    2:{ inversion Hc. }
    assert (Hgen : forall (l : list Listener) (b0 : EventProcessor.t),
              sameRegistry b b0 -> (forall h, h ∈ l -> h ∈ hs) ->
              c ∈ listenerCalls (trace (forEach
                (fun handler => try_catch (call handler event)
                   (fun error => emit (errorLog key) ;;
                      handleError_via (triggerEvent stack) error)) l b0)) ->
              (exists h, h ∈ hs /\ lid h = c.1 /\ c.2 = event) \/
              (exists h, h ∈ handlersOf "error" b /\ lid h = c.1 /\ ev_type c.2 = "error")).
    { induction l as [|h l IHl]; intros b0 Hb0 Hsub Hin.
      - inversion Hin.
      - cbn [forEach] in Hin. unfold bind at 1 in Hin.
        unfold try_catch at 1, call at 1 in Hin.
        destruct (lrun h event) as [err|] eqn:Hrun.
        + rewrite catch_run in Hin.
          destruct err as [| |o];
            try (cbn in Hin; apply list_elem_of_singleton in Hin; subst c;
                 left; exists h; split; [apply Hsub; left|]; split; reflexivity).
          match type of Hin with context [triggerEvent stack "error" ?e ?b'] =>
            pose proof (IH "error" e b') as Hi;
            pose proof (triggerEvent_sameRegistry stack "error" e b') as Hs;
            assert (Hb' : sameRegistry b b');
            [ destruct Hb0 as (H1 & H2 & H3 & H4); repeat split; cbn; try assumption; lia |];
            destruct (triggerEvent stack "error" e b') as [[r b2] tr2] eqn:Et
          end.
          unfold trace, final in *. cbn [fst snd] in *.
          assert (Hinner : forall c', c' ∈ listenerCalls tr2 ->
                    exists h0, h0 ∈ handlersOf "error" b /\ lid h0 = c'.1 /\
                               ev_type c'.2 = "error").
          { intros c' Hc'. specialize (Hi c' Hc'). unfold calledFrom in Hi.
            rewrite (handlersOf_sameRegistry "error" _ _ Hb') in Hi.
            destruct Hi as [(h0 & Hh0 & Hl0 & He0)|Hi]; [|exact Hi].
            exists h0. repeat split; try assumption. rewrite He0. reflexivity. }
          destruct r as [[]|e2].
          * destruct (forEach _ l b2) as [[r3 b3] tr3] eqn:Ef.
            cbn [fst snd] in Hin.
            change (c ∈ listenerCalls ((CallListener (lid h) event :: errorLog key :: tr2) ++ tr3)) in Hin.
            rewrite listenerCalls_app in Hin. apply elem_of_app in Hin as [Hin|Hin].
            -- cbn in Hin. apply elem_of_cons in Hin as [->|Hin].
               ++ left. exists h. split; [apply Hsub; left|]. split; reflexivity.
               ++ right. apply Hinner. exact Hin.
            -- apply (IHl b2).
               ++ eapply sameRegistry_trans; [exact Hb'|exact Hs].
               ++ intros h0 Hh0. apply Hsub. right. exact Hh0.
               ++ rewrite Ef. exact Hin.
          * cbn [fst snd] in Hin. cbn in Hin.
            apply elem_of_cons in Hin as [->|Hin].
            -- left. exists h. split; [apply Hsub; left|]. split; reflexivity.
            -- right. apply Hinner. exact Hin.
        + destruct (forEach _ l b0) as [[r3 b3] tr3] eqn:Ef.
          unfold trace in *. cbn [fst snd] in Hin. cbn in Hin.
          apply elem_of_cons in Hin as [->|Hin].
          * left. exists h. split; [apply Hsub; left|]. split; reflexivity.
          * apply (IHl b0 Hb0).
            -- intros h0 Hh0. apply Hsub. right. exact Hh0.
            -- rewrite Ef. exact Hin. }
    destruct (forEach _ hs b) as [[r1 b1] tr1] eqn:Ef.
    assert (Hk : handlersOf key b = hs) by (unfold handlersOf; rewrite Ehs; reflexivity).
    rewrite Hk.
    apply (Hgen hs b (sameRegistry_refl b) (fun h H => H)).
    rewrite Ef. exact Hc.
Qed.
(** X3.  [destroy] leaves no listener under any key: a dispatch then calls
    nothing and returns, and a listener registered afterwards is the only
    one of its key. *)
Theorem destroy_clears_every_key (stack : nat) (key : string) (event : Event)
    (h : Listener) (p : EventProcessor.t) :
  handlersOf key (destroy p) = [] /\
  triggerEvent (S stack) key event (destroy p) = (Normal tt, destroy p, []) /\
  handlersOf key (on key h (destroy p)) = [h].
Proof.
  assert (H : handlersOf key (destroy p) = []).
  { unfold handlersOf, destroy. cbn [eventHandlers set_eventHandlers].
    rewrite lookup_empty. reflexivity. }
  split; [exact H|]. split.
  - cbn [triggerEvent]. unfold bind, get, destroy.
    cbn [eventHandlers set_eventHandlers]. rewrite lookup_empty. reflexivity.
  - rewrite (proj1 (handlersOf_on key h (destroy p))), H. reflexivity.
Qed.
(** X5.  Every call a dispatch makes is a call of a listener of the key on
    the dispatched event, or a call of a listener of the error key on an
    error event.  A key with no listener, or one never registered, gives
    no call at all and leaves the processor as it was. *)
Theorem dispatch_calls_only_registered (stack : nat) (key : string)
    (event : Event) (b : EventProcessor.t) :
  (forall c, c ∈ listenerCalls (trace (triggerEvent stack key event b)) ->
             calledFrom key event b c) /\
  (handlersOf key b = [] ->
   trace (triggerEvent stack key event b) = [] /\
   final (triggerEvent stack key event b) = b).
Proof.
  split; [apply triggerEvent_calls|].
  intros Hnone. destruct stack as [|stack]; [split; reflexivity|].
  cbn [triggerEvent]. unfold bind, get. unfold handlersOf in Hnone.
  destruct (eventHandlers b !! key) as [hs|]; [|split; reflexivity].
  cbn in Hnone. subst hs. split; reflexivity.
Qed.

(** *** A listener of the error key that throws *)

Lemma error_loop_general (stack : nat) :
  forall (b : EventProcessor.t) (event : Event) (h : Listener) (rest : list Listener),
  eventHandlers b !! "error" = Some (h :: rest) ->
  (forall ev, lrun h ev <> None) ->
  exists e b' tr,
    triggerEvent stack "error" event b = (Throws (Obj e), b', tr) /\
    (thrown_name e = "RangeError" \/ thrown_name e = "TypeError") /\
    ((forall ev, exists o, lrun h ev = Some (Obj o)) -> e = RangeError).
Proof.
  induction stack as [|stack IH]; intros b event h rest Hb Hthrows.
  - exists RangeError, b, []. repeat split. left. reflexivity.
  - cbn [triggerEvent]. unfold bind at 1, get at 1. rewrite Hb.
    cbn [forEach]. unfold bind at 1, try_catch at 1, call at 1.
    destruct (lrun h event) as [err|] eqn:Hrun; [|destruct (Hthrows event Hrun)].
    rewrite catch_run. destruct err as [| |o].
    + eexists _, _, _. split; [reflexivity|]. split; [right; reflexivity|].
      intros Hobj. destruct (Hobj event) as (o & Ho). congruence.
    + eexists _, _, _. split; [reflexivity|]. split; [right; reflexivity|].
      intros Hobj. destruct (Hobj event) as (o & Ho). congruence.
    + match goal with |- context [triggerEvent stack "error" ?e ?b'] =>
        destruct (IH b' e h rest Hb Hthrows) as (e' & b'' & tr & Ht & Hname & Hrange);
        rewrite Ht
      end.
      eexists _, _, _. split; [reflexivity|]. split; assumption.
Qed.

(** X6.  When the first listener of a key throws and the first listener of
    the error key throws on every event, the dispatch does not return and
    the other listeners of the key are not called: after the call of the
    first listener and the report, every call is one on an error event,
    and an error object leaves the dispatch.  It is the [TypeError] of the
    failed reading of the message, with no further call, when the first
    listener threw [undefined] or [null]; it is [RangeError] when the first
    listener threw an object and the listener of the error key throws
    objects only. *)
Theorem throwing_error_listener_aborts (stack : nat) (b : EventProcessor.t)
    (key : string) (event : Event) (first : Listener) (others : list Listener)
    (err : Caught) (h : Listener) (rest : list Listener) :
  eventHandlers b !! key = Some (first :: others) ->
  lrun first event = Some err ->
  eventHandlers b !! "error" = Some (h :: rest) ->
  (forall ev, lrun h ev <> None) ->
  exists e b' tr,
    triggerEvent (S stack) key event b
    = (Throws (Obj e), b', CallListener (lid first) event :: errorLog key :: tr) /\
    (forall c, c ∈ listenerCalls tr -> ev_type c.2 = "error") /\
    (thrown_name e = "RangeError" \/ thrown_name e = "TypeError") /\
    (err = Undefined -> e = cannotRead "undefined" "message" /\ tr = []) /\
    (err = Null -> e = cannotRead "null" "message" /\ tr = []) /\
    ((exists o, err = Obj o) ->
     (forall ev, exists o, lrun h ev = Some (Obj o)) -> e = RangeError).
Proof.
  intros Hkey Hfirst Herr Hthrows.
  cbn [triggerEvent]. unfold bind at 1, get at 1. rewrite Hkey.
  cbn [forEach]. unfold bind at 1, try_catch at 1, call at 1. rewrite Hfirst.
  rewrite catch_run. destruct err as [| |o].
  - eexists _, _, []. split; [reflexivity|].
    split; [intros c Hc; inversion Hc|]. split; [right; reflexivity|].
    split; [intros _; split; reflexivity|]. split; [discriminate|].
    intros (o & Ho). discriminate.
  - eexists _, _, []. split; [reflexivity|].
    split; [intros c Hc; inversion Hc|]. split; [right; reflexivity|].
    split; [discriminate|]. split; [intros _; split; reflexivity|].
    intros (o & Ho). discriminate.
  - match goal with |- context [triggerEvent stack "error" ?e ?b'] =>
      destruct (error_loop_general stack b' e h rest Herr Hthrows)
        as (e' & b'' & tr & Ht & Hname & Hrange);
      pose proof (triggerEvent_calls stack "error" e b') as Hcalls;
      rewrite Ht in *
    end.
    exists e', b'', tr. split; [reflexivity|]. split.
    { intros c Hc. destruct (Hcalls c Hc) as [(h0 & _ & _ & ->)|(h0 & _ & _ & He)];
        [reflexivity | exact He]. }
    split; [exact Hname|]. split; [discriminate|]. split; [discriminate|].
    intros _. exact Hrange.
Qed.

Lemma throwing_error_listener_aborts_witness :
  (exists b' tr,
     triggerEvent 3 "response.text.delta"
       (serverEvent "response.text.delta" "resp_1" "Hi") loopingErrors
     = (Throws RangeError, b',
        CallListener 1 (serverEvent "response.text.delta" "resp_1" "Hi")
          :: errorLog "response.text.delta" :: tr) /\
     forall c, c ∈ listenerCalls tr -> ev_type c.2 = "error") /\
  (exists b',
     triggerEvent 3 "response.text.delta"
       (serverEvent "response.text.delta" "resp_1" "Hi") loopingOnUndefined
     = (Throws (cannotRead "undefined" "message"), b',
        [CallListener 1 (serverEvent "response.text.delta" "resp_1" "Hi");
         errorLog "response.text.delta"])).
Proof.
  split.
  - destruct (throwing_error_listener_aborts 2 loopingErrors "response.text.delta"
                (serverEvent "response.text.delta" "resp_1" "Hi")
                (thrower 1) [] failing (thrower 9) [])
      as (e & b' & tr & Hrun & Hcalls & _ & _ & _ & Hrange).
    + vm_compute. reflexivity.
    + reflexivity.
    + vm_compute. reflexivity.
    + intros ev. discriminate.
    + rewrite Hrange in Hrun.
      * exists b', tr. split; assumption.
      * exists failing. reflexivity.
      * intros ev. exists failing. reflexivity.
  - destruct (throwing_error_listener_aborts 2 loopingOnUndefined "response.text.delta"
                (serverEvent "response.text.delta" "resp_1" "Hi")
                (throwsUndefined 1) [recorder 2] Undefined (thrower 9) [])
      as (e & b' & tr & Hrun & _ & _ & Hundef & _).
    + vm_compute. reflexivity.
    + reflexivity.
    + vm_compute. reflexivity.
    + intros ev. discriminate.
    + destruct (Hundef eq_refl) as [-> ->]. exists b'. exact Hrun.
Defined.
End Registry.

(** ** Events the processor does not filter, and a cursor that is not a number *)

Section Filter.
Import RealtimeApiEventProcessor.

Lemma bind_ret_false (stack : nat) (event : Event) (p : t) :
  (let! filtered := ret false in
   if filtered then ret tt else triggerEvent stack (ev_type event) event) p
  = triggerEvent stack (ev_type event) event p.
Proof.
  unfold bind, ret. destruct (triggerEvent stack (ev_type event) event p) as [[r s] tr].
  reflexivity.
Qed.

(** X7.  A server event whose type is none of the five audio and text
    types is dispatched under its type as it is, whatever the cursor and
    its response identifier; when the listeners of the type return, each
    is called once on the event, in registration order, and the processor
    is unchanged. *)
Theorem other_events_pass_through (stack : nat) (p : t) (event : Event) :
  filteredType (ev_type event) = false ->
  processServerEvent stack event p = triggerEvent stack (ev_type event) event p /\
  (quiet event (EventProcessor.handlersOf (ev_type event) (base p)) ->
   processServerEvent (S stack) event p
   = (Normal tt, p,
      map (fun h => CallListener (lid h) event)
          (EventProcessor.handlersOf (ev_type event) (base p)))).
Proof.
  unfold filteredType. intros H.
  repeat (apply orb_false_iff in H as [H ?]).
  assert (Hrun : forall n, processServerEvent n event p
                           = triggerEvent n (ev_type event) event p).
  { intros n. unfold processServerEvent.
    repeat match goal with E : String.eqb _ _ = false |- _ => rewrite E; clear E end.
    cbn [orb]. cbv match. apply bind_ret_false. }
  split; [apply Hrun|].
  intros Hq. rewrite Hrun. unfold triggerEvent, super.
  rewrite (triggerEvent_quiet stack _ event (base p) Hq), set_base_same. reflexivity.
Qed.

Lemma other_events_pass_through_witness :
  processServerEvent 2 (serverEvent "disconnected" "" "")
    (Conversation.eventProcessor connected)
  = (Normal tt, Conversation.eventProcessor connected,
     [CallListener 3 (serverEvent "disconnected" "" "")]).
Proof.
  apply (proj2 (other_events_pass_through 1 (Conversation.eventProcessor connected)
                  (serverEvent "disconnected" "" "") eq_refl)).
  vm_compute. repeat constructor.
Defined.

Lemma SFcompare_nan_l (b : JS.number) : SFcompare S754_nan b = None.
Proof. reflexivity. Qed.
Lemma SFcompare_nan_r (a : JS.number) : SFcompare a S754_nan = None.
Proof. destruct a; reflexivity. Qed.

Lemma compare_with_NaN (a b : JS.number) :
  JS.isNaN a = true \/ JS.isNaN b = true ->
  JS.num_le a b = false /\ JS.num_lt a b = false /\ JS.num_gt a b = false.
Proof.
  unfold JS.num_le, JS.num_lt, JS.num_gt, SFleb, SFltb.
  intros [H|H]; [destruct a | destruct b]; try discriminate H;
    rewrite ?SFcompare_nan_l, ?SFcompare_nan_r; auto.
Qed.

(** X8.  When the cursor or the suffix of the event is NaN, every
    comparison is false: an audio delta or audio done event is dropped
    without a call, and a text delta or text done event is dispatched. *)
Theorem NaN_drops_audio_and_keeps_text (stack : nat) (p : t) (event : Event) :
  JS.isNaN (lastInterruptTimestamp p) = true \/ JS.isNaN (suffixOf event) = true ->
  (ev_type event = "response.audio.delta" \/ ev_type event = "response.audio.done" ->
   processServerEvent stack event p = (Normal tt, p, [])) /\
  (ev_type event = "response.text.delta" \/ ev_type event = "response.text.done" ->
   processServerEvent stack event p = triggerEvent stack (ev_type event) event p).
Proof.
  intros Hnan. destruct (compare_with_NaN _ _ Hnan) as (Hle & _ & Hgt).
  split; intros Hty; unfold processServerEvent.
  - destruct Hty as [Hty|Hty]; rewrite Hty; cbn [String.eqb Ascii.eqb Bool.eqb orb];
      cbv match; unfold handleAudioResponse, bind, get, when;
      fold (suffixOf event); rewrite Hle; reflexivity.
  - destruct Hty as [Hty|Hty]; rewrite Hty;
      simpl (String.eqb _ _); simpl (orb _ _); cbv match;
      unfold bind at 1, shouldFilterTextEvent, bind at 1, get, ret;
      fold (suffixOf event); rewrite Hgt;
      destruct (triggerEvent stack _ event p) as [[r s] tr]; reflexivity.
Qed.

Lemma NaN_drops_audio_and_keeps_text_witness :
  JS.isNaN (lastInterruptTimestamp interruptedAtNaN) = true /\
  processServerEvent 1 (serverEvent "response.audio.delta" "resp_200" "AAA=")
    interruptedAtNaN
  = (Normal tt, interruptedAtNaN, []).
Proof.
  split; [vm_compute; reflexivity|].
  apply (proj1 (NaN_drops_audio_and_keeps_text 1 interruptedAtNaN
                  (serverEvent "response.audio.delta" "resp_200" "AAA=")
                  (or_introl eq_refl))).
  left. reflexivity.
Defined.
End Filter.

Section Preserve.
Import RealtimeApiEventProcessor.

Lemma triggerEvent_preserves (stack : nat) (key : string) (event : Event) (p : t) :
  sameRegistry (base p) (base (final (triggerEvent stack key event p))) /\
  sameSinks p (final (triggerEvent stack key event p)) /\
  lastInterruptTimestamp (final (triggerEvent stack key event p))
  = lastInterruptTimestamp p.
Proof.
  unfold triggerEvent, super.
  pose proof (triggerEvent_sameRegistry stack key event (base p)) as H.
  destruct (EventProcessor.triggerEvent stack key event (base p)) as [[r b] tr].
  unfold final in *. cbn [fst snd] in *. repeat split; assumption || apply H.
Qed.

Lemma processServerEvent_shape (stack : nat) (p : t) (event : Event) :
  (exists tr, processServerEvent stack event p = (Normal tt, p, tr)) \/
  (ev_type event = "response.audio.cancel" /\
   processServerEvent stack event p = handleAudioInterrupt event p) \/
  processServerEvent stack event p = triggerEvent stack (ev_type event) event p.
Proof.
  unfold processServerEvent.
  destruct (String.eqb (ev_type event) "response.audio.delta"
            || String.eqb (ev_type event) "response.audio.done")%bool.
  { left. unfold handleAudioResponse, bind, get, when, optionally.
    destruct (JS.num_le _ _); [|eexists; reflexivity].
    destruct (String.eqb _ _); [|eexists; reflexivity].
    destruct (onAudioChunk p); eexists; reflexivity. }
  destruct (String.eqb (ev_type event) "response.audio.cancel") eqn:Ecancel.
  { right. left. apply String.eqb_eq in Ecancel. split; [exact Ecancel | reflexivity]. }
  destruct (String.eqb (ev_type event) "response.text.delta"
            || String.eqb (ev_type event) "response.text.done")%bool.
  - unfold shouldFilterTextEvent, bind, get, ret.
    destruct (JS.num_gt (lastInterruptTimestamp p) (parseResponseId (response_id event))).
    + left. eexists. reflexivity.
    + right. right.
      destruct (triggerEvent stack (ev_type event) event p) as [[r s] tr]. reflexivity.
  - right. right. apply bind_ret_false.
Qed.

(** X9.  [processServerEvent] never changes the registry or the three
    sinks, and only an interrupt signal changes the cursor. *)
Theorem processServerEvent_keeps_registry_and_sinks (stack : nat) (p : t)
    (event : Event) :
  sameRegistry (base p) (base (final (processServerEvent stack event p))) /\
  sameSinks p (final (processServerEvent stack event p)) /\
  (ev_type event <> "response.audio.cancel" ->
   lastInterruptTimestamp (final (processServerEvent stack event p))
   = lastInterruptTimestamp p).
Proof.
  destruct (processServerEvent_shape stack p event) as [[tr H]|[[Hty H]|H]]; rewrite H.
  - unfold final. cbn [fst snd]. repeat split. apply sameRegistry_refl.
  - rewrite handleAudioInterrupt_run. unfold final. cbn.
    repeat split; try apply sameRegistry_refl. intros Hne. contradiction.
  - destruct (triggerEvent_preserves stack (ev_type event) event p) as (H1 & H2 & H3).
    split; [exact H1|]. split; [exact H2|]. intros _. exact H3.
Qed.
End Preserve.

(** ** The interrupted response itself *)

Section Boundary.
Import RealtimeApiEventProcessor.

Lemma SFcompare_refl (x : JS.number) :
  JS.isNaN x = false -> SFcompare x x = Some Eq.
Proof.
  destruct x as [s|s| |s m e]; try discriminate; intros _.
  - reflexivity.
  - destruct s; reflexivity.
  - apply SFcompare_refl_finite.
Qed.

(** X10.  The interrupt of a response does not silence that response: after
    an interrupt signal, an audio delta with the same response identifier
    (one whose suffix is a number) is still forwarded to the audio-chunk
    sink, and a text event with that identifier is still dispatched.  Only
    responses with a smaller suffix are suppressed. *)
Theorem interrupted_response_itself_passes (stack : nat) (p : t)
    (cancel event : Event) :
  ev_type cancel = "response.audio.cancel" ->
  response_id event = response_id cancel ->
  JS.isNaN (suffixOf event) = false ->
  let p' := final (processServerEvent stack cancel p) in
  (ev_type event = "response.audio.delta" ->
   processServerEvent stack event p'
   = (Normal tt, p', sinkCall (fun cb => OnAudioChunk cb (delta event))
                              (onAudioChunk p))) /\
  (ev_type event = "response.text.delta" \/ ev_type event = "response.text.done" ->
   processServerEvent stack event p'
   = triggerEvent stack (ev_type event) event p').
Proof.
  intros Hcancel Hid Hnan p'.
  assert (Hp' : p' = set_lastInterruptTimestamp (suffixOf event) p).
  { unfold p', processServerEvent. by_type Hcancel.
    rewrite handleAudioInterrupt_run. unfold final, suffixOf. cbn [fst snd].
    rewrite Hid. reflexivity. }
  pose proof (SFcompare_refl _ Hnan) as Hrefl.
  rewrite Hp'. split.
  - intros Hty. unfold processServerEvent. by_type Hty.
    unfold handleAudioResponse, bind, get, when. fold (suffixOf event).
    cbn [lastInterruptTimestamp set_lastInterruptTimestamp onAudioChunk].
    unfold JS.num_le, SFleb. rewrite Hrefl. by_type Hty.
    destruct (onAudioChunk p); reflexivity.
  - intros Hty. unfold processServerEvent.
    destruct Hty as [Hty|Hty]; by_type Hty;
      unfold shouldFilterTextEvent; unfold bind, get, ret; fold (suffixOf event);
      cbn [lastInterruptTimestamp set_lastInterruptTimestamp];
      unfold JS.num_gt, SFltb; rewrite Hrefl; cbv match;
      match goal with |- context [triggerEvent ?a ?b ?c ?d] =>
        destruct (triggerEvent a b c d) as [[r s] tr] end; reflexivity.
Qed.

Lemma interrupted_response_itself_passes_witness :
  processServerEvent 1 (serverEvent "response.audio.delta" "resp_100" "BBB=")
    interruptedAt100
  = (Normal tt, interruptedAt100, [OnAudioChunk 7 "BBB="]).
Proof.
  apply (proj1 (interrupted_response_itself_passes 1 processor
                  (serverEvent "response.audio.cancel" "resp_100" "")
                  (serverEvent "response.audio.delta" "resp_100" "BBB=")
                  eq_refl eq_refl eq_refl)).
  reflexivity.
Defined.
End Boundary.

(** ** The factory *)

Section Factory.
Import ConversationFactory.

Lemma set_add_keeps (h h' : Listener) (l : list Listener) :
  EventProcessor.set_has h l = true ->
  EventProcessor.set_has h (EventProcessor.set_add h' l) = true.
Proof.
  intros H. unfold EventProcessor.set_add.
  destruct (EventProcessor.set_has h' l); [exact H|].
  unfold EventProcessor.set_has in *. rewrite existsb_app, H. reflexivity.
Qed.

Lemma set_add_only (h h' : Listener) (l : list Listener) :
  EventProcessor.set_has h (EventProcessor.set_add h' l) = true ->
  EventProcessor.set_has h l = true \/ lid h' = lid h.
Proof.
  unfold EventProcessor.set_add.
  destruct (EventProcessor.set_has h' l); [auto|].
  unfold EventProcessor.set_has. rewrite existsb_app. cbn.
  rewrite orb_false_r. intros H. apply orb_true_iff in H as [H|H]; [auto|].
  right. apply Nat.eqb_eq in H. exact H.
Qed.

Lemma on_keeps (key key' : string) (h h' : Listener)
    (p : RealtimeApiEventProcessor.t) :
  registered key h p = true ->
  registered key h (RealtimeApiEventProcessor.on key' h' p) = true.
Proof.
  unfold registered, RealtimeApiEventProcessor.on. cbn. intros H.
  destruct (String.eqb key key') eqn:E.
  - apply String.eqb_eq in E. subst key'.
    rewrite (proj1 (handlersOf_on key h' _)). apply set_add_keeps. exact H.
  - apply String.eqb_neq in E.
    rewrite (proj2 (handlersOf_on key' h' _) key E). exact H.
Qed.

Lemma on_only (key key' : string) (h h' : Listener)
    (p : RealtimeApiEventProcessor.t) :
  registered key h (RealtimeApiEventProcessor.on key' h' p) = true ->
  registered key h p = true \/ (key' = key /\ lid h' = lid h).
Proof.
  unfold registered, RealtimeApiEventProcessor.on. cbn.
  destruct (String.eqb key key') eqn:E.
  - apply String.eqb_eq in E. subst key'.
    rewrite (proj1 (handlersOf_on key h' _)). intros H.
    apply set_add_only in H as [H|H]; auto.
  - apply String.eqb_neq in E.
    rewrite (proj2 (handlersOf_on key' h' _) key E). auto.
Qed.

Lemma register_keeps (key : string) (h : Listener)
    (entry : string * option Listener) (p : RealtimeApiEventProcessor.t) :
  registered key h p = true -> registered key h (register p entry) = true.
Proof.
  intros H. destruct entry as [name [h'|]]; cbn [register]; [|exact H].
  destruct (normalizeEventType name); [apply on_keeps|]; exact H.
Qed.

Lemma registerHandlers_keeps (key : string) (h : Listener)
    (entries : list (string * option Listener)) :
  forall p, registered key h p = true ->
            registered key h (registerHandlers entries p) = true.
Proof.
  unfold registerHandlers.
  induction entries as [|e entries IH]; intros p H; [exact H|].
  cbn [fold_left]. apply IH, register_keeps, H.
Qed.

Lemma registerHandlers_registers (entries : list (string * option Listener)) :
  forall (p : RealtimeApiEventProcessor.t) (name key : string) (h : Listener),
  In (name, Some h) entries ->
  normalizeEventType name = Key key ->
  registered key h (registerHandlers entries p) = true.
Proof.
  induction entries as [|e entries IH]; intros p name key h Hin Hkey;
    [destruct Hin|].
  destruct Hin as [->|Hin].
  - unfold registerHandlers. cbn [fold_left register]. rewrite Hkey.
    apply registerHandlers_keeps.
    unfold registered, RealtimeApiEventProcessor.on. cbn.
    rewrite (proj1 (handlersOf_on key h _)). apply set_add_registered.
  - unfold registerHandlers. cbn [fold_left]. apply (IH _ name key h Hin Hkey).
Qed.

Lemma registerHandlers_only (entries : list (string * option Listener)) :
  forall (p : RealtimeApiEventProcessor.t) (key : string) (h : Listener),
  registered key h (registerHandlers entries p) = true ->
  registered key h p = true \/
  exists name h', In (name, Some h') entries /\
                  normalizeEventType name = Key key /\ lid h' = lid h.
Proof.
  induction entries as [|e entries IH]; intros p key h H; [left; exact H|].
  unfold registerHandlers in H. cbn [fold_left] in H.
  apply IH in H as [H|(name & h' & Hin & Hn & Hl)].
  - destruct e as [name [h'|]]; cbn [register] in H; [|auto].
    destruct (normalizeEventType name) as [k|m] eqn:En; [|auto].
    apply on_only in H as [H|[-> Hl]]; [auto|].
    right. exists name, h'. repeat split; [left; reflexivity|exact En|exact Hl].
  - right. exists name, h'. repeat split; [right; exact Hin|exact Hn|exact Hl].
Qed.

Lemma new_registry_empty (crypto : nat -> string) (drawn : nat)
    (cb : option nat) (key : string) (h : Listener) :
  registered key h
    (RealtimeApiEventProcessor.new
       {| EventProcessor.eventHandlers := ∅;
          EventProcessor.onSendEvent := cb;
          EventProcessor.uuids := crypto;
          EventProcessor.uuid_next := drawn |} None None None) = false.
Proof.
  unfold registered, EventProcessor.handlersOf. cbn.
  rewrite lookup_empty. reflexivity.
Qed.

(** X11.  In the processor the factory builds, a listener is registered
    under a key exactly when the configuration holds it under a handler
    name that normalizes to that key: the defined handlers are all
    registered, and nothing else is. *)
Theorem factory_registers_by_normalized_name (crypto : nat -> string)
    (drawn : nat) (cb : option nat) (entries : list (string * option Listener))
    (key : string) (h : Listener) :
  registered key h (eventProcessor crypto drawn cb entries) = true <->
  exists name h', In (name, Some h') entries /\
                  normalizeEventType name = Key key /\ lid h' = lid h.
Proof.
  unfold eventProcessor. split.
  - intros H. apply registerHandlers_only in H as [H|H]; [|exact H].
    rewrite new_registry_empty in H. discriminate H.
  - intros (name & h' & Hin & Hn & Hl).
    pose proof (registerHandlers_registers entries
                  (RealtimeApiEventProcessor.new
                     {| EventProcessor.eventHandlers := ∅;
                        EventProcessor.onSendEvent := cb;
                        EventProcessor.uuids := crypto;
                        EventProcessor.uuid_next := drawn |} None None None)
                  name key h' Hin Hn) as H.
    unfold registered, EventProcessor.set_has in *. rewrite <- Hl. exact H.
Qed.

Lemma ownProperty_In (name : string) (table : list (string * string)) (v : string) :
  ownProperty name table = Some v -> In (name, v) table.
Proof.
  induction table as [|[k v'] table IH]; [discriminate|].
  cbn [ownProperty]. destruct (String.eqb k name) eqn:E.
  - apply String.eqb_eq in E. subst k. intros [= ->]. left. reflexivity.
  - intros H. right. apply IH, H.
Qed.

(** X12.  The key a handler name normalizes to normalizes to itself: a
    handler can be given under the event type as well as under its
    camel-case name, and lands under the same key. *)
Theorem normalizeEventType_is_stable (name key : string) :
  normalizeEventType name = Key key ->
  normalizeEventType key = Key key.
Proof.
  unfold normalizeEventType.
  destruct (ownProperty name mapping) as [v|] eqn:E.
  - intros [= ->]. apply ownProperty_In in E.
    unfold mapping in E. cbn [In] in E.
    repeat (destruct E as [E|E]; [injection E as <- <-; vm_compute; reflexivity|]).
    destruct E.
  - destruct (existsb (String.eqb name) objectPrototype) eqn:Ex; [discriminate|].
    intros [= <-]. rewrite E, Ex. reflexivity.
Qed.

Lemma normalizeEventType_is_stable_witness :
  normalizeEventType "response.text.delta" = Key "response.text.delta".
Proof.
  apply (normalizeEventType_is_stable "onTextDelta" "response.text.delta").
  vm_compute. reflexivity.
Defined.
End Factory.

(** ** Listeners of the audio keys *)

Section Reach.
Import RealtimeApiEventProcessor.

Lemma set_has_elem (h h' : Listener) (l : list Listener) :
  h' ∈ l -> lid h' = lid h -> EventProcessor.set_has h l = true.
Proof.
  intros Hin Hl. unfold EventProcessor.set_has. apply existsb_exists.
  exists h'. split; [apply list_elem_of_In; exact Hin | apply Nat.eqb_eq; exact Hl].
Qed.

Lemma processServerEvent_calls (stack : nat) (event : Event) (p : t)
    (c : nat * Event) :
  c ∈ listenerCalls (trace (processServerEvent stack event p)) ->
  audioType (ev_type event) = false /\
  calledFrom (ev_type event) event (base p) c.
Proof.
  unfold audioType, processServerEvent.
  destruct (String.eqb (ev_type event) "response.audio.delta"
            || String.eqb (ev_type event) "response.audio.done")%bool.
  { unfold handleAudioResponse, bind, get, when, optionally, emit, ret.
    destruct (JS.num_le _ _); [|intros H; inversion H].
    destruct (String.eqb _ _); [|intros H; inversion H].
    destruct (onAudioChunk p); intros H; inversion H. }
  destruct (String.eqb (ev_type event) "response.audio.cancel").
  { rewrite handleAudioInterrupt_run.
    destruct (onAudioInterrupt p), (onAudioFadeOut p); intros H; inversion H. }
  cbn [orb]. intros H. split; [reflexivity|].
  assert (Hc : c ∈ listenerCalls (trace (triggerEvent stack (ev_type event) event p))).
  { revert H. unfold bind, shouldFilterTextEvent, get, ret.
    destruct (String.eqb (ev_type event) "response.text.delta"
              || String.eqb (ev_type event) "response.text.done")%bool.
    - unfold bind.
      destruct (JS.num_gt _ _); [intros H; inversion H|].
      destruct (triggerEvent stack (ev_type event) event p) as [[r s] tr].
      cbn. auto.
    - destruct (triggerEvent stack (ev_type event) event p) as [[r s] tr].
      cbn. auto. }
  unfold triggerEvent, super in Hc.
  pose proof (triggerEvent_calls stack (ev_type event) event (base p) c) as Hcalls.
  destruct (EventProcessor.triggerEvent stack (ev_type event) event (base p))
    as [[r b] tr].
  apply Hcalls. exact Hc.
Qed.

(** X13.  A listener registered only under the audio keys
    ([response.audio.delta], [response.audio.done], [response.audio.cancel])
    is never called by [processServerEvent], whatever event arrives: these
    three types are handled without a dispatch. *)
Theorem audio_listeners_are_unreachable (stack : nat) (event : Event) (p : t)
    (h : Listener) :
  (forall key, audioType key = false -> registered key h p = false) ->
  forall c, c ∈ listenerCalls (trace (processServerEvent stack event p)) ->
            c.1 <> lid h.
Proof.
  intros Honly c Hc Heq.
  destruct (processServerEvent_calls stack event p c Hc) as [Hty Hfrom].
  destruct Hfrom as [(h' & Hin & Hl & _)|(h' & Hin & Hl & _)].
  - pose proof (Honly _ Hty) as Hreg. unfold registered in Hreg.
    rewrite (set_has_elem h h' _ Hin) in Hreg; [discriminate|congruence].
  - pose proof (Honly "error" eq_refl) as Hreg. unfold registered in Hreg.
    rewrite (set_has_elem h h' _ Hin) in Hreg; [discriminate|congruence].
Qed.

Lemma audio_listeners_are_unreachable_witness :
  registered "response.audio.delta" (recorder 5) audioOnly = true /\
  forall c,
    c ∈ listenerCalls
          (trace (processServerEvent 2
                    (serverEvent "response.audio.delta" "resp_1" "AAA=") audioOnly)) ->
    c.1 <> 5.
Proof.
  split; [vm_compute; reflexivity|].
  apply (audio_listeners_are_unreachable 2
           (serverEvent "response.audio.delta" "resp_1" "AAA=") audioOnly
           (recorder 5)).
  intros key Hkey.
  destruct (registered key (recorder 5) audioOnly) eqn:E; [|reflexivity].
  apply registerHandlers_only in E as [E|(name & h' & Hin & Hname & _)].
  - rewrite new_registry_empty in E. discriminate E.
  - destruct Hin as [Hin|[]]. injection Hin as <- <-.
    injection Hname as <-. discriminate Hkey.
Defined.
End Reach.

(** ** Base64 *)

Section Alphabet.
Import Audio.

Lemma list_ind3 {A} (P : list A -> Prop) :
  P [] -> (forall a, P [a]) -> (forall a b, P [a; b]) ->
  (forall a b c r, P r -> P (a :: b :: c :: r)) ->
  forall l, P l.
Proof.
  intros H0 H1 H2 H3 l.
  assert (H : P l /\ (forall a, P (a :: l)) /\ (forall a b, P (a :: b :: l))).
  { induction l as [|x l (IH0 & IH1 & IH2)].
    - auto.
    - repeat split; auto. }
  apply H.
Qed.

Lemma padding_step (a b c : ascii) (r : list ascii) :
  padding (a :: b :: c :: r) = padding r.
Proof.
  unfold padding. cbn [length].
  replace (S (S (S (length r)))) with (length r + 1 * 3)%nat by lia.
  rewrite Nat.Div0.mod_add. reflexivity.
Qed.

Lemma btoa_chars_eq (l : list ascii) :
  btoa_chars l = map base64Char (sextetsOf l) ++ padding l.
Proof.
  induction l as [|a|a b|a b c r IH] using list_ind3; try reflexivity.
  cbn [btoa_chars sextetsOf]. rewrite IH, padding_step, map_app, app_assoc. reflexivity.
Qed.

Lemma N_lt_64_cases (P : N -> Prop) :
  (forall k, (k < 64)%nat -> P (N.of_nat k)) -> forall n, (n < 64)%N -> P n.
Proof.
  intros H n Hn. rewrite <- (N2Nat.id n). apply H. lia.
Qed.

Lemma base64_table (n : N) :
  (n < 64)%N ->
  base64Value (base64Char n) = Some n /\
  isAsciiWhitespace (base64Char n) = false /\
  base64Char n <> "="%char.
Proof.
  revert n. apply N_lt_64_cases. intros k Hk.
  do 64 (destruct k as [|k]; [vm_compute; repeat split; discriminate|]).
  lia.
Qed.

Ltac N_arith := zify; Z.to_euclidean_division_equations; lia.

Lemma group_bounds (a b c : N) :
  (a < 256 -> b < 256 -> c < 256 ->
   Forall (fun n => n < 64) (group3 a b c) /\
   Forall (fun n => n < 64) (group2 a b) /\
   Forall (fun n => n < 64) (group1 a))%N.
Proof.
  intros Ha Hb Hc. unfold group3, group2, group1.
  repeat split; repeat (apply Forall_cons; split); try apply Forall_nil; cbv beta; N_arith.
Qed.

Lemma sextetsOf_bounded (l : list ascii) : Forall (fun n => (n < 64)%N) (sextetsOf l).
Proof.
  induction l as [|a|a b|a b c r IH] using list_ind3; cbn [sextetsOf].
  - constructor.
  - apply (group_bounds _ 0 0); try apply N_ascii_bounded; reflexivity.
  - apply (group_bounds _ _ 0); try apply N_ascii_bounded; reflexivity.
  - apply Forall_app. split; [|exact IH].
    apply group_bounds; apply N_ascii_bounded.
Qed.

Lemma sextets_chars (xs : list N) :
  Forall (fun n => (n < 64)%N) xs -> sextets (map base64Char xs) = Some xs.
Proof.
  induction 1 as [|x xs Hx _ IH]; [reflexivity|].
  cbn [map sextets]. rewrite (proj1 (base64_table x Hx)), IH. reflexivity.
Qed.

Lemma decode_group (a b c : N) :
  (a < 256 -> b < 256 -> c < 256 ->
   (a / 4) * 4 + ((a mod 4) * 16 + b / 16) / 16 = a /\
   (((a mod 4) * 16 + b / 16) mod 16) * 16 + ((b mod 16) * 4 + c / 64) / 4 = b /\
   (((b mod 16) * 4 + c / 64) mod 4) * 64 + c mod 64 = c /\
   (a / 4) * 4 + ((a mod 4) * 16) / 16 = a /\
   (((a mod 4) * 16 + b / 16) mod 16) * 16 + ((b mod 16) * 4) / 4 = b)%N.
Proof. intros Ha Hb Hc. repeat split; N_arith. Qed.

Lemma decodeSextets_sextetsOf (l : list ascii) : decodeSextets (sextetsOf l) = l.
Proof.
  induction l as [|a|a b|a b c r IH] using list_ind3.
  - reflexivity.
  - pose proof (decode_group (N_of_ascii a) 0 0 (N_ascii_bounded a) eq_refl eq_refl)
      as (_ & _ & _ & H & _).
    cbn [sextetsOf group1 decodeSextets]. rewrite H, ascii_N_embedding. reflexivity.
  - pose proof (decode_group (N_of_ascii a) (N_of_ascii b) 0 (N_ascii_bounded a)
                  (N_ascii_bounded b) eq_refl) as (H1 & _ & _ & _ & H2).
    cbn [sextetsOf group2 decodeSextets]. rewrite H1, H2, !ascii_N_embedding. reflexivity.
  - pose proof (decode_group (N_of_ascii a) (N_of_ascii b) (N_of_ascii c)
                  (N_ascii_bounded a) (N_ascii_bounded b) (N_ascii_bounded c))
      as (H1 & H2 & H3 & _ & _).
    cbn [sextetsOf group3 decodeSextets app]. rewrite H1, H2, H3, IH, !ascii_N_embedding.
    reflexivity.
Qed.

Lemma padding_cases (l : list ascii) :
  padding l = [] \/ padding l = ["="%char] \/ padding l = ["="%char; "="%char].
Proof.
  unfold padding. destruct (length l mod 3)%nat as [|[|[|n]]]; auto.
Qed.

Lemma encoded_length (l : list ascii) :
  ((length (sextetsOf l) + length (padding l)) mod 4 = 0 /\
   length (sextetsOf l) mod 4 <> 1 /\
   (padding l <> [] -> sextetsOf l <> []))%nat.
Proof.
  induction l as [|a|a b|a b c r (IH1 & IH2 & IH3)] using list_ind3.
  - cbn. split; [reflexivity|]. split; [discriminate | auto].
  - cbn. split; [reflexivity|]. split; [discriminate | intros _; discriminate].
  - cbn. split; [reflexivity|]. split; [discriminate | intros _; discriminate].
  - rewrite padding_step. cbn [sextetsOf group3 app length].
    split; [|split].
    + replace (S (S (S (S (length (sextetsOf r))))) + length (padding r))%nat
        with ((length (sextetsOf r) + length (padding r)) + 1 * 4)%nat by lia.
      rewrite Nat.Div0.mod_add. exact IH1.
    + replace (S (S (S (S (length (sextetsOf r))))))%nat
        with (length (sextetsOf r) + 1 * 4)%nat by lia.
      rewrite Nat.Div0.mod_add. exact IH2.
    + intros _. discriminate.
Qed.

Lemma filter_encoded (xs : list N) (pad : list ascii) :
  Forall (fun n => (n < 64)%N) xs ->
  pad = [] \/ pad = ["="%char] \/ pad = ["="%char; "="%char] ->
  List.filter (fun c => negb (isAsciiWhitespace c)) (map base64Char xs ++ pad)
  = map base64Char xs ++ pad.
Proof.
  intros Hxs Hpad. rewrite List.filter_app. f_equal.
  - induction Hxs as [|x xs Hx _ IH]; [reflexivity|].
    cbn [map List.filter]. destruct (base64_table x Hx) as (_ & Hws & _).
    rewrite Hws, IH. reflexivity.
  - destruct Hpad as [->|[->| ->]]; reflexivity.
Qed.

Lemma not_padding_head (c : ascii) (r l : list ascii) :
  c <> "="%char ->
  match c :: r with
  | "="%char :: "="%char :: r' => rev r'
  | "="%char :: r' => rev r'
  | _ => l
  end = l /\
  match "="%char :: c :: r with
  | "="%char :: "="%char :: r' => rev r'
  | "="%char :: r' => rev r'
  | _ => l
  end = rev (c :: r).
Proof.
  intros Hc. destruct c as [b0 b1 b2 b3 b4 b5 b6 b7].
  destruct b0, b1, b2, b3, b4, b5, b6, b7; try (split; reflexivity).
  contradiction Hc. reflexivity.
Qed.

Lemma stripPadding_encoded (xs : list N) (pad : list ascii) :
  Forall (fun n => (n < 64)%N) xs ->
  pad = [] \/ pad = ["="%char] \/ pad = ["="%char; "="%char] ->
  ((length xs + length pad) mod 4 = 0)%nat ->
  stripPadding (map base64Char xs ++ pad) = map base64Char xs.
Proof.
  intros Hxs Hpad Hlen. unfold stripPadding.
  rewrite length_app, length_map, Hlen. cbn [Nat.eqb].
  rewrite rev_app_distr.
  assert (Hhead : forall c r, rev (map base64Char xs) = c :: r -> c <> "="%char).
  { intros c r Hrev.
    assert (Hin : In c (map base64Char xs)).
    { apply in_rev. rewrite Hrev. left. reflexivity. }
    apply in_map_iff in Hin as (n & <- & Hn).
    rewrite List.Forall_forall in Hxs. apply (base64_table n (Hxs n Hn)). }
  destruct Hpad as [->|[->| ->]]; cbn [rev app].
  - rewrite app_nil_r. destruct (rev (map base64Char xs)) as [|c r] eqn:Hrev.
    + reflexivity.
    + apply (not_padding_head c r _ (Hhead c r eq_refl)).
  - destruct (rev (map base64Char xs)) as [|c r] eqn:Hrev.
    + apply (f_equal (@rev ascii)) in Hrev. rewrite rev_involutive in Hrev.
      rewrite Hrev. reflexivity.
    + rewrite (proj2 (not_padding_head c r (map base64Char xs ++ ["="%char])
                       (Hhead c r eq_refl))).
      rewrite <- Hrev. apply rev_involutive.
  - apply rev_involutive.
Qed.

Lemma atob_btoa (binary : string) : atob (btoa binary) = Some binary.
Proof.
  unfold atob, btoa. rewrite list_ascii_of_string_of_list_ascii.
  set (l := list_ascii_of_string binary).
  rewrite btoa_chars_eq.
  destruct (encoded_length l) as (Hlen & Hnot1 & _).
  rewrite (filter_encoded _ _ (sextetsOf_bounded l) (padding_cases l)).
  rewrite (stripPadding_encoded _ _ (sextetsOf_bounded l) (padding_cases l) Hlen).
  rewrite length_map.
  destruct (length (sextetsOf l) mod 4 =? 1)%nat eqn:E.
  - apply Nat.eqb_eq in E. contradiction.
  - rewrite (sextets_chars _ (sextetsOf_bounded l)), decodeSextets_sextetsOf.
    unfold l. rewrite string_of_list_ascii_of_string. reflexivity.
Qed.
End Alphabet.

Section Base64.
Import Audio.

Lemma sextets_invalid (c : ascii) (l : list ascii) :
  In c l -> base64Value c = None -> sextets l = None.
Proof.
  intros Hin Hc. induction l as [|x l IH]; [destruct Hin|].
  cbn [sextets]. destruct Hin as [->|Hin].
  - rewrite Hc. reflexivity.
  - rewrite (IH Hin). destruct (base64Value x); reflexivity.
Qed.

Lemma stripPadding_keeps (c : ascii) (l : list ascii) :
  c <> "="%char -> In c l -> In c (stripPadding l).
Proof.
  intros Hc Hin. unfold stripPadding.
  destruct (length l mod 4 =? 0)%nat; [|exact Hin].
  assert (Hrev : In c (rev l)) by (apply in_rev; rewrite rev_involutive; exact Hin).
  destruct (rev l) as [|x r]; [exact Hin|].
  destruct (Ascii.eqb x "=") eqn:Ex.
  - apply Ascii.eqb_eq in Ex. subst x.
    destruct Hrev as [Heq|Hrev]; [congruence|].
    destruct r as [|y r'].
    + destruct Hrev.
    + destruct (Ascii.eqb y "=") eqn:Ey.
      * apply Ascii.eqb_eq in Ey. subst y.
        destruct Hrev as [Heq|Hrev]; [congruence|].
        apply in_rev in Hrev. exact Hrev.
      * assert (Hgoal : In c (rev (y :: r'))) by (apply in_rev; rewrite rev_involutive; exact Hrev).
        destruct y as [[] [] [] [] [] [] [] []]; try exact Hgoal; discriminate Ey.
  - destruct x as [[] [] [] [] [] [] [] []]; try exact Hin; discriminate Ex.
Qed.

Lemma atob_rejects (data : string) (c : ascii) :
  In c (list_ascii_of_string data) ->
  base64Value c = None -> isAsciiWhitespace c = false -> c <> "="%char ->
  atob data = None.
Proof.
  intros Hin Hval Hws Hpad. unfold atob.
  set (l := stripPadding _).
  assert (Hl : In c l).
  { apply stripPadding_keeps; [exact Hpad|].
    apply filter_In. split; [exact Hin|]. rewrite Hws. reflexivity. }
  rewrite (sextets_invalid c l Hl Hval).
  destruct (length l mod 4 =? 1)%nat; reflexivity.
Qed.

(** X14.  A buffer of at most [maxArguments] bytes survives the round trip:
    [base64ToArrayBuffer] of the text [arrayBufferToBase64] makes is the
    buffer, and neither call throws. *)
Theorem base64_round_trip {S} (maxArguments : nat) (buffer : list Byte.byte) (s : S) :
  length buffer <= maxArguments ->
  (let! text := arrayBufferToBase64 maxArguments buffer in
   base64ToArrayBuffer text) s
  = (Normal buffer, s, []).
Proof.
  intros Hlen. unfold arrayBufferToBase64, base64ToArrayBuffer, bind, ret.
  apply Nat.leb_le in Hlen. rewrite Hlen.
  rewrite atob_btoa, list_byte_of_string_of_list_byte. reflexivity.
Qed.

Lemma base64_round_trip_witness :
  (let! text := arrayBufferToBase64 8 pcm in base64ToArrayBuffer text) tt
  = (Normal pcm, tt, []).
Proof. apply (base64_round_trip 8 pcm tt). cbn. lia. Defined.

(** X15.  [base64ToArrayBuffer] throws [InvalidCharacterError] on a text
    that holds a character which is neither of the base64 alphabet, nor
    white space, nor the padding sign. *)
Theorem base64ToArrayBuffer_rejects {S} (base64 : string) (c : ascii) (s : S) :
  In c (list_ascii_of_string base64) ->
  base64Value c = None -> isAsciiWhitespace c = false -> c <> "="%char ->
  base64ToArrayBuffer base64 s = (Throws InvalidCharacterError, s, []).
Proof.
  intros Hin Hval Hws Hpad. unfold base64ToArrayBuffer.
  rewrite (atob_rejects base64 c Hin Hval Hws Hpad). reflexivity.
Qed.

Lemma base64ToArrayBuffer_rejects_witness :
  base64ToArrayBuffer "AA*A" tt = (Throws InvalidCharacterError, tt, []).
Proof.
  apply (base64ToArrayBuffer_rejects "AA*A" "*"%char tt).
  - cbn. auto.
  - reflexivity.
  - reflexivity.
  - discriminate.
Defined.
End Base64.

Section Frames.
Import Conversation.

Lemma randomUUID_run (c : t) :
  exists p, randomUUID c = (Normal (EventProcessor.uuids (RealtimeApiEventProcessor.base (eventProcessor c))
                                     (EventProcessor.uuid_next (RealtimeApiEventProcessor.base (eventProcessor c)))),
                            set_eventProcessor p c, []).
Proof. eexists. reflexivity. Qed.

(** X16.  On a connected session [sendAudioBuffer] makes exactly one outside
    call: it sends one [input_audio_buffer.append] event, whose identifier
    is the next one of the supply and whose audio text decodes to the bytes
    of the frame; the event is neither logged nor passed to the observation
    callback, and the next identifier is a new draw. *)
Theorem sendAudioBuffer_sends_the_frame (maxArguments : nat)
    (audioData : list Byte.byte) (c : t) (w : WebSocket) :
  ws c = Some w -> isConnected c = true ->
  length audioData <= maxArguments ->
  exists audio,
    completion (sendAudioBuffer maxArguments audioData c) = Normal tt /\
    trace (sendAudioBuffer maxArguments audioData c)
    = [WsSend (appendEvent (nextUUID c) audio)] /\
    Audio.atob audio = Some (string_of_list_byte audioData) /\
    nextUUID (final (sendAudioBuffer maxArguments audioData c))
    = EventProcessor.uuids (RealtimeApiEventProcessor.base (eventProcessor c))
        (S (EventProcessor.uuid_next
              (RealtimeApiEventProcessor.base (eventProcessor c)))).
Proof.
  intros Hws Hconn Hlen. exists (Audio.btoa (string_of_list_byte audioData)).
  unfold sendAudioBuffer, bind. destruct (randomUUID_run c) as (p & Hp).
  unfold randomUUID, onProcessor, RealtimeApiEventProcessor.super,
    EventProcessor.randomUUID.
  cbn [RealtimeApiEventProcessor.set_base].
  unfold Audio.arrayBufferToBase64. apply Nat.leb_le in Hlen. rewrite Hlen.
  unfold ret, sendEvent, bind, get. cbn [ws isConnected set_eventProcessor].
  rewrite Hws, Hconn. cbn. repeat apply conj; try reflexivity.
  apply atob_btoa.
Qed.

Lemma sendAudioBuffer_sends_the_frame_witness :
  exists audio,
    completion (sendAudioBuffer 8 pcm connected) = Normal tt /\
    trace (sendAudioBuffer 8 pcm connected)
    = [WsSend (appendEvent (nextUUID connected) audio)] /\
    Audio.atob audio = Some (string_of_list_byte pcm) /\
    nextUUID (final (sendAudioBuffer 8 pcm connected))
    = EventProcessor.uuids
        (RealtimeApiEventProcessor.base (eventProcessor connected))
        (S (EventProcessor.uuid_next
              (RealtimeApiEventProcessor.base (eventProcessor connected)))).
Proof.
  apply (sendAudioBuffer_sends_the_frame 8 pcm connected _ eq_refl eq_refl).
  cbn. lia.
Defined.

(** X17.  A captured frame longer than the number of arguments the engine
    accepts is not sent: the spread in [arrayBufferToBase64] throws
    [RangeError], which leaves the worklet handler, and no outside call is
    made. *)
Theorem oversized_frame_is_not_sent (maxArguments : nat)
    (rawAudioPcmData : list Byte.byte) (c : t) :
  isConnected c = true ->
  maxArguments < length rawAudioPcmData ->
  completion (worklet_onmessage maxArguments rawAudioPcmData c) = Throws RangeError /\
  trace (worklet_onmessage maxArguments rawAudioPcmData c) = [].
Proof.
  intros Hconn Hlen. unfold worklet_onmessage, bind, get, when. rewrite Hconn.
  unfold sendAudioBuffer, bind.
  unfold randomUUID, onProcessor, RealtimeApiEventProcessor.super,
    EventProcessor.randomUUID.
  unfold Audio.arrayBufferToBase64.
  apply Nat.leb_gt in Hlen. rewrite Hlen. split; reflexivity.
Qed.

Lemma oversized_frame_is_not_sent_witness :
  completion (worklet_onmessage 2 pcm connected) = Throws RangeError /\
  trace (worklet_onmessage 2 pcm connected) = [].
Proof.
  apply (oversized_frame_is_not_sent 2 pcm connected eq_refl). cbn. lia.
Defined.
End Frames.

(** ** A session that is not connected *)

Section Teardown.
Import Conversation.

Lemma sendEvent_not_connected (c : t) (event : ClientEvent) :
  ws c = None \/ isConnected c = false ->
  sendEvent event c = (Throws NotConnected, c, []).
Proof.
  intros H. unfold sendEvent, bind, get.
  destruct H as [H|H]; rewrite H; [reflexivity|].
  destruct (ws c); reflexivity.
Qed.

Lemma endSession_open (stack : nat) (c : t) (ain : AudioInput) (aout : AudioOutput)
    (p' : RealtimeApiEventProcessor.t) (tr : list Effect) :
  audioInput c = Some ain -> audioOutput c = Some aout ->
  in_closed ain = false -> out_closed aout = false ->
  RealtimeApiEventProcessor.processInternalEvent stack disconnected (eventProcessor c)
  = (Normal tt, p', tr) ->
  endSession stack c
  = (Normal tt,
     set_eventProcessor p'
       (set_isConnected false
          (set_ws None
             (set_audioOutput
                (Some {| out_closed := true; gain_value := gain_value aout;
                         ramp := ramp aout |})
                (set_audioInput (Some {| in_closed := true |}) c)))),
     StopTracks :: sinkCall (fun _ => WsClose) (ws c) ++ tr).
Proof.
  intros Hin Hout Ein Eout Hrun.
  apply (proj1 (endSession_run stack c)).
  rewrite (proj2 (proj2 (teardown_run stack c ain aout Hin Hout)) Ein Eout), Hrun.
  reflexivity.
Qed.

(** X18.  After an [endSession] that returned, the session reports that it
    is not connected, every [sendEvent] throws the not-connected error
    without an outside call, and a frame that still arrives from the
    capture worklet is dropped silently. *)
Theorem after_endSession_nothing_is_sent (stack maxArguments : nat) (c : t)
    (ain : AudioInput) (aout : AudioOutput) :
  audioInput c = Some ain -> audioOutput c = Some aout ->
  in_closed ain = false -> out_closed aout = false ->
  completion (RealtimeApiEventProcessor.processInternalEvent stack disconnected
                (eventProcessor c)) = Normal tt ->
  let c' := final (endSession stack c) in
  getConnectionStatus c' = false /\
  (forall event, sendEvent event c' = (Throws NotConnected, c', [])) /\
  (forall frame, worklet_onmessage maxArguments frame c' = (Normal tt, c', [])).
Proof.
  intros Hin Hout Ein Eout Hdone.
  destruct (RealtimeApiEventProcessor.processInternalEvent stack disconnected
              (eventProcessor c)) as [[r p'] tr] eqn:Hrun.
  unfold completion in Hdone. cbn [fst] in Hdone. subst r.
  rewrite (endSession_open stack c ain aout p' tr Hin Hout Ein Eout Hrun).
  unfold final. cbn [fst snd]. repeat apply conj.
  - reflexivity.
  - intros event. apply sendEvent_not_connected. left. reflexivity.
  - intros frame. reflexivity.
Qed.

Lemma after_endSession_nothing_is_sent_witness :
  getConnectionStatus ended = false /\
  (forall event, sendEvent event ended = (Throws NotConnected, ended, [])) /\
  (forall frame, worklet_onmessage 8 frame ended = (Normal tt, ended, [])).
Proof.
  apply (after_endSession_nothing_is_sent 2 8 connected _ _
           eq_refl eq_refl eq_refl eq_refl).
  vm_compute. reflexivity.
Defined.
Lemma ws_onerror_open (error : Thrown) (c : t) (ain : AudioInput) (aout : AudioOutput) :
  audioInput c = Some ain -> audioOutput c = Some aout ->
  in_closed ain = false -> out_closed aout = false ->
  ws_onerror error c
  = (Normal tt,
     set_audioOutput
       (Some {| out_closed := true; gain_value := gain_value aout; ramp := ramp aout |})
       (set_audioInput (Some {| in_closed := true |}) (set_isConnected false c)),
     [ConsoleError "WebSocket error:"; StopTracks;
      ConsoleError ("Error in conversation: " +:+
                    JS.or_default (thrown_message error) "Unknown error")]).
Proof.
  intros Hin Hout Ein Eout.
  unfold ws_onerror, handleError, messageOf, bind, get, put, emit, optionally,
    AudioInput_close, AudioOutput_close, contextClose, ret.
  cbn. rewrite Hin, Ein. cbn. rewrite Hout, Eout. cbn. reflexivity.
Qed.

(** X19.  The error handler of the socket closes both audio devices (each
    is marked closed in the session it leaves, and the capture tracks are
    stopped), clears the connection flag and reports the error, but keeps
    the socket.  An [endSession] called afterwards therefore throws at its
    first step, closing the closed capture device: the socket is not closed
    and no [disconnected] event is dispatched. *)
Theorem after_socket_error_endSession_throws (stack : nat) (error : Thrown) (c : t)
    (ain : AudioInput) (aout : AudioOutput) :
  audioInput c = Some ain -> audioOutput c = Some aout ->
  in_closed ain = false -> out_closed aout = false ->
  let c' := final (ws_onerror error c) in
  completion (ws_onerror error c) = Normal tt /\
  trace (ws_onerror error c)
  = [ConsoleError "WebSocket error:"; StopTracks; report error] /\
  audioInput c' = Some {| in_closed := true |} /\
  audioOutput c'
  = Some {| out_closed := true; gain_value := gain_value aout; ramp := ramp aout |} /\
  getConnectionStatus c' = false /\
  ws c' = ws c /\
  endSession stack c'
  = (Throws InvalidStateError, c',
     [StopTracks;
      ConsoleError "Error in conversation: Cannot close a closed AudioContext."]).
Proof.
  intros Hin Hout Ein Eout.
  rewrite (ws_onerror_open error c ain aout Hin Hout Ein Eout).
  unfold final, completion, trace. cbn [fst snd].
  repeat apply conj; try reflexivity.
Qed.

Lemma after_socket_error_endSession_throws_witness :
  completion (ws_onerror failing connected) = Normal tt /\
  trace (ws_onerror failing connected)
  = [ConsoleError "WebSocket error:"; StopTracks; report failing] /\
  audioInput (final (ws_onerror failing connected)) = Some {| in_closed := true |} /\
  audioOutput (final (ws_onerror failing connected))
  = Some {| out_closed := true; gain_value := JS.of_Z 1; ramp := None |} /\
  getConnectionStatus (final (ws_onerror failing connected)) = false /\
  ws (final (ws_onerror failing connected)) = ws connected /\
  endSession 2 (final (ws_onerror failing connected))
  = (Throws InvalidStateError, final (ws_onerror failing connected),
     [StopTracks;
      ConsoleError "Error in conversation: Cannot close a closed AudioContext."]).
Proof.
  exact (after_socket_error_endSession_throws 2 failing connected _ _
           eq_refl eq_refl eq_refl eq_refl).
Defined.

End Teardown.

Section Failures.
Import Conversation.



(** X21.  When [endSession] throws, it has reported the error as its last
    outside call, and [close], which catches the error, reports it a second
    time and returns. *)
Theorem close_reports_failure_twice (stack : nat) (c c' : t) (error : Thrown)
    (tr : list Effect) :
  endSession stack c = (Throws error, c', tr) ->
  (exists tr0, tr = tr0 ++ [report error]) /\
  close stack c = (Normal tt, c', tr ++ [report error]).
Proof.
  intros H. split.
  - destruct (endSession_throws stack c c' error tr H) as (o & tr0 & Ho & _ & ->).
    injection Ho as ->. exists tr0. reflexivity.
  - unfold close, try_catch. rewrite H. reflexivity.
Qed.

Lemma close_reports_failure_twice_witness :
  close 2 ended
  = (Normal tt, ended,
     [StopTracks; report InvalidStateError; report InvalidStateError]).
Proof.
  assert (H : endSession 2 ended
              = (Throws InvalidStateError, ended,
                 [StopTracks; report InvalidStateError])).
  { vm_compute. reflexivity. }
  exact (proj2 (close_reports_failure_twice 2 ended ended InvalidStateError _ H)).
Defined.

(** X22.  The message handler of the socket never throws.  A message that
    does not parse is reported, and the session is left as it was; and
    whatever [processServerEvent] throws (the [RangeError] of an error
    listener that throws, for one) is reported in the same words, as a
    failure to parse the message, after the calls already made. *)
Theorem ws_onmessage_reports_every_failure (stack : nat) (data : Completion Event)
    (c : t) :
  completion (ws_onmessage stack data c) = Normal tt /\
  (forall error, data = Throws error ->
     ws_onmessage stack data c
     = (Normal tt, c,
        [ConsoleError "Error parsing message:";
         report {| thrown_name := "Error";
                   thrown_message :=
                     Some ("Failed to parse message: " +:+ errorToString error) |}])) /\
  (forall event error,
     data = Normal event ->
     completion (RealtimeApiEventProcessor.processServerEvent stack event
                   (eventProcessor c)) = Throws error ->
     trace (ws_onmessage stack data c)
     = trace (RealtimeApiEventProcessor.processServerEvent stack event
                (eventProcessor c))
       ++ [ConsoleError "Error parsing message:";
           report {| thrown_name := "Error";
                     thrown_message :=
                       Some ("Failed to parse message: " +:+ errorToString error) |}]).
Proof.
  repeat apply conj.
  - unfold ws_onmessage, try_catch.
    destruct data as [event|error]; [|reflexivity].
    destruct (onProcessor _ c) as [[[[]|e] c'] tr]; reflexivity.
  - intros error ->. reflexivity.
  - intros event error -> Hthrow. unfold ws_onmessage, try_catch, onProcessor.
    destruct (RealtimeApiEventProcessor.processServerEvent stack event
                (eventProcessor c)) as [[r p] tr].
    unfold completion in Hthrow. cbn [fst] in Hthrow. subst r. reflexivity.
Qed.

(** X23.  [setVolume(NaN)] throws at the gain assignment, after it has
    stored NaN as the volume.  The next interrupt fade then cannot be
    undone: the scheduled callback throws at the same assignment before it
    tells the worklet to resume, and the gain stays at 0.0001. *)
Theorem NaN_volume_breaks_restore (c : t) (a : AudioOutput) :
  audioOutput c = Some a ->
  let stored := final (setVolume JS.NaN c) in
  let faded := rampCompleted (final (fadeOutAudio stored)) in
  completion (setVolume JS.NaN c) = Throws TypeError /\
  JS.isNaN (getVolume stored) = true /\
  trace (fadeOutAudio stored) = [PostMessage MsgInterrupt; SetTimeout 2000] /\
  runTimer faded
  = (Throws TypeError, set_timers (tail (timers faded)) faded, []) /\
  gain_value <$> audioOutput (final (runTimer faded))
  = Some (JS.decimal false 1 (-4)).
Proof.
  intros Hout. cbv zeta.
  assert (Hset : setVolume JS.NaN c = (Throws TypeError, set_volume JS.NaN c, [])).
  { unfold setVolume, bind, get, put, optionally.
    change (JS.Math_max JS.zero (JS.Math_min (JS.of_Z 1) JS.NaN)) with JS.NaN.
    cbn [audioOutput set_volume volume]. rewrite Hout.
    reflexivity. }
  rewrite Hset. unfold final, completion, trace, getVolume. cbn [fst snd].
  unfold fadeOutAudio, exponentialRampToValueAtTime, bind, get, put, emit.
  cbn [audioOutput set_volume]. rewrite Hout. cbn [fst snd].
  unfold rampCompleted. cbn [audioOutput set_audioOutput set_timers ramp].
  unfold runTimer, bind, get, put.
  cbn [timers set_timers set_audioOutput set_volume].
  destruct (timers c) as [|d l]; cbn [app];
    unfold fadeOutAudio_restore, bind, get, setGainValue;
    cbn [audioOutput set_audioOutput set_timers volume set_volume];
    change (JS.isFinite JS.NaN) with false; cbv iota; unfold throw;
    repeat apply conj; reflexivity.
Qed.

Lemma NaN_volume_breaks_restore_witness :
  completion (setVolume JS.NaN connected) = Throws TypeError /\
  completion
    (runTimer
       (rampCompleted (final (fadeOutAudio (final (setVolume JS.NaN connected))))))
  = Throws TypeError.
Proof.
  destruct (NaN_volume_breaks_restore connected _ eq_refl) as (H1 & _ & _ & H2 & _).
  split; [exact H1|]. rewrite H2. reflexivity.
Defined.
End Failures.

(** ** What every sequence of operations keeps *)

Section Loop.
Import Conversation EventLoop.

Ltac frame_done :=
  unfold frameOf; cbn; split; [intros; first [discriminate | auto] | reflexivity].

Lemma endSession_final (stack : nat) (c : t) :
  final (endSession stack c) = final (teardown stack c).
Proof.
  unfold endSession, try_catch, final.
  destruct (teardown stack c) as [[[[]|[| |o]] s] tr]; reflexivity.
Qed.

Lemma endSession_frame (stack : nat) (c : t) :
  frameOf c (final (endSession stack c)).
Proof.
  rewrite endSession_final.
  unfold final, teardown, bind, get, put, emit, optionally, when,
    AudioInput_close, AudioOutput_close, contextClose, onProcessor, ret, throw.
  destruct (audioInput c) as [[[]]|]; cbn -[RealtimeApiEventProcessor.processInternalEvent];
    try frame_done;
    destruct (audioOutput c) as [[[] g r]|];
    cbn -[RealtimeApiEventProcessor.processInternalEvent];
    try frame_done;
    destruct (ws c); cbn -[RealtimeApiEventProcessor.processInternalEvent];
    destruct (RealtimeApiEventProcessor.processInternalEvent stack disconnected
                (eventProcessor c)) as [[[[]|e] p'] tr];
    frame_done.
Qed.

Lemma close_frame (stack : nat) (c : t) :
  frameOf c (final (close stack c)).
Proof.
  pose proof (endSession_frame stack c) as H.
  unfold close, try_catch, final in *.
  destruct (endSession stack c) as [[[[]|[| |o]] c'] tr]; exact H.
Qed.

Lemma onProcessor_frame {A} (m : M RealtimeApiEventProcessor.t A) (c : t) :
  final (onProcessor m c) = set_eventProcessor (final (m (eventProcessor c))) c.
Proof.
  unfold onProcessor, final. destruct (m (eventProcessor c)) as [[r p] tr].
  reflexivity.
Qed.

Lemma sendEvent_final (event : ClientEvent) (c : t) :
  final (sendEvent event c) = c.
Proof.
  unfold final, sendEvent, bind, get, when, emit, optionally, throw, ret.
  destruct (negb (bool_decide (is_Some (ws c))) || negb (isConnected c))%bool;
    [reflexivity|].
  destruct (negb (cev_type event =? "input_audio_buffer.append")%string);
    [destruct (onSendEvent c)|]; reflexivity.
Qed.

Lemma frame_processor (p : RealtimeApiEventProcessor.t) (c : t) :
  frameOf c (set_eventProcessor p c).
Proof. frame_done. Qed.

Lemma updateSession_frame (session : string) (c : t) :
  frameOf c (final (updateSession session c)).
Proof.
  unfold updateSession. destruct (randomUUID_run c) as (p & Hp).
  unfold bind. rewrite Hp.
  match goal with |- context [sendEvent ?e ?s] =>
    pose proof (sendEvent_final e s) as H; unfold final in *;
    destruct (sendEvent e s) as [[r s'] tr] end.
  cbn in *. subst. apply frame_processor.
Qed.

Lemma worklet_frame (maxArguments : nat) (frame : list Byte.byte) (c : t) :
  frameOf c (final (worklet_onmessage maxArguments frame c)).
Proof.
  unfold worklet_onmessage, bind, get, when.
  destruct (isConnected c) eqn:Hc; [|frame_done; rewrite Hc in *; discriminate].
  unfold sendAudioBuffer. destruct (randomUUID_run c) as (p & Hp).
  unfold bind. rewrite Hp. unfold Audio.arrayBufferToBase64.
  destruct (length frame <=? maxArguments)%nat; [|apply frame_processor].
  unfold ret.
  match goal with |- context [sendEvent ?e ?s] =>
    pose proof (sendEvent_final e s) as H; unfold final in *;
    destruct (sendEvent e s) as [[r s'] tr] end.
  cbn in *. subst. apply frame_processor.
Qed.

Lemma fadeOutAudio_frame (c : t) : frameOf c (final (fadeOutAudio c)).
Proof.
  unfold final, fadeOutAudio, bind, get, put, emit, ret,
    exponentialRampToValueAtTime.
  destruct (audioOutput c); frame_done.
Qed.

Lemma rampCompleted_frame (c : t) : frameOf c (rampCompleted c).
Proof.
  unfold rampCompleted. destruct (audioOutput c) as [a|]; [|frame_done].
  destruct (ramp a); frame_done.
Qed.

Lemma runTimer_frame (c : t) : frameOf c (final (runTimer c)).
Proof.
  unfold final, runTimer, bind, get, put, emit, ret, fadeOutAudio_restore.
  destruct (timers c); [frame_done|]. cbn.
  destruct (audioOutput c) as [a|]; [|frame_done].
  unfold setGainValue, bind, get, put, throw. cbn.
  destruct (JS.isFinite (volume c)); frame_done.
Qed.

Lemma ws_onclose_frame (stack : nat) (c : t) :
  frameOf c (final (ws_onclose stack c)).
Proof.
  unfold final, ws_onclose, bind, get, put, emit, onProcessor.
  cbn -[RealtimeApiEventProcessor.processInternalEvent].
  destruct (RealtimeApiEventProcessor.processInternalEvent stack disconnected
              (eventProcessor c)) as [[r p] tr].
  frame_done.
Qed.

Lemma ws_onerror_frame (error : Thrown) (c : t) :
  frameOf c (final (ws_onerror error c)).
Proof.
  unfold final, ws_onerror, bind, get, put, emit, optionally,
    AudioInput_close, AudioOutput_close, contextClose, ret, throw, handleError,
    messageOf.
  cbn.
  destruct (audioInput c) as [[[]]|]; cbn; try frame_done;
    destruct (audioOutput c) as [[[] g r]|]; cbn; frame_done.
Qed.

Lemma ws_onmessage_frame (stack : nat) (data : Completion Event) (c : t) :
  frameOf c (final (ws_onmessage stack data c)).
Proof.
  unfold final, ws_onmessage, try_catch, onProcessor, bind, emit, handleError, throw.
  destruct data as [event|error]; [|frame_done].
  destruct (RealtimeApiEventProcessor.processServerEvent stack event
              (eventProcessor c)) as [[[[]|e] p] tr]; frame_done.
Qed.

Lemma setVolume_link (v : JS.number) (c : t) :
  let c' := final (setVolume v c) in
  ws c' = ws c /\ isConnected c' = isConnected c /\
  volume c' = JS.Math_max JS.zero (JS.Math_min (JS.of_Z 1) v).
Proof.
  unfold final, setVolume, bind, get, put, optionally, ret. cbn.
  destruct (audioOutput c) as [a|]; [|cbn; auto].
  unfold setGainValue, bind, get, put, throw. 
  destruct (JS.isFinite _); cbn; auto.
Qed.

Lemma ws_onopen_link (stack : nat) (c : t) :
  let c' := final (ws_onopen stack c) in
  ws c' = ws c /\ volume c' = volume c.
Proof.
  unfold final, ws_onopen, bind, get, put, emit, onProcessor.
  cbn -[RealtimeApiEventProcessor.processInternalEvent].
  destruct (RealtimeApiEventProcessor.processInternalEvent stack connectedEvent
              (eventProcessor c)) as [[r p] tr].
  split; reflexivity.
Qed.

Lemma perform_frame (stack maxArguments : nat) (op : Operation) (c : t) :
  (forall v, op <> SetVolume v) -> op <> SocketOpened ->
  frameOf c (final (perform stack maxArguments op c)).
Proof.
  intros Hop Hopen. destruct op; cbn [perform].
  - contradiction.
  - rewrite sendEvent_final. frame_done.
  - apply updateSession_frame.
  - apply endSession_frame.
  - apply close_frame.
  - exfalso. eapply Hop. reflexivity.
  - apply fadeOutAudio_frame.
  - apply rampCompleted_frame.
  - apply runTimer_frame.
  - apply frame_processor.
  - apply frame_processor.
  - apply ws_onclose_frame.
  - apply ws_onerror_frame.
  - apply ws_onmessage_frame.
  - apply worklet_frame.
Qed.

Lemma perform_wellFormed (stack maxArguments : nat) (op : Operation) (c : t) :
  wellFormed c -> admissible c op ->
  wellFormed (final (perform stack maxArguments op c)).
Proof.
  intros [Hws Hvol] Hadm.
  destruct op as [| | | | |v| | | | | | | | |];
    try (match goal with |- wellFormed (final (perform _ _ ?op _)) =>
           destruct (perform_frame stack maxArguments op c
                       ltac:(intros; discriminate) ltac:(discriminate))
             as [Hlink Hv]
         end;
         split; [intros Hc; destruct (Hlink Hc) as [Hc0 ->]; auto
                | rewrite Hv; exact Hvol]).
  - cbn [perform]. destruct (ws_onopen_link stack c) as [H1 H2]. split.
    + intros _. rewrite H1. exact Hadm.
    + rewrite H2. exact Hvol.
  - cbn [perform].
    destruct (setVolume_link v c) as (H1 & H2 & H3). split.
    + rewrite H1, H2. exact Hws.
    + rewrite H3. cbn in Hadm.
      destruct (clamp_between (JS.of_Z 1) v _ _ of_Z_1 Hadm) as (_ & H0 & Hle & _).
      unfold inRange. rewrite H0, Hle. reflexivity.
Qed.

Lemma performAll_wellFormed (stack maxArguments : nat) (ops : list Operation) (c : t) :
  wellFormed c -> admissibleAll stack maxArguments ops c ->
  wellFormed (performAll stack maxArguments ops c).
Proof.
  revert c. induction ops as [|op ops IH]; intros c Hc Hops; [exact Hc|].
  cbn [performAll]. destruct Hops as [Hop Hops]. apply IH.
  - apply perform_wellFormed; assumption.
  - exact Hops.
Qed.

Lemma inRange_finite (v : JS.number) : inRange v = true -> JS.isFinite v = true.
Proof.
  unfold inRange. intros H. apply andb_true_iff in H as [H0 H1].
  destruct v as [s|[]| |s m e]; try reflexivity.
  - vm_compute in H0. discriminate H0.
  - vm_compute in H1. discriminate H1.
  - vm_compute in H0. discriminate H0.
Qed.

(** X24.  Whatever sequence of public calls, socket events, audio frames
    and timers a session goes through, provided no volume passed to
    [setVolume] is NaN and the socket that opens is one the session holds,
    a session marked connected holds a socket and the volume stays between
    0 and 1.  Hence the frame handler of the capture worklet never throws
    on a frame within the argument limit, and neither [fadeOutAudio] nor
    the callback it schedules throws. *)
Theorem callbacks_never_throw (stack maxArguments : nat) (ops : list Operation)
    (c : t) :
  wellFormed c -> admissibleAll stack maxArguments ops c ->
  let c' := performAll stack maxArguments ops c in
  wellFormed c' /\
  (forall frame, length frame <= maxArguments ->
     completion (worklet_onmessage maxArguments frame c') = Normal tt) /\
  completion (runTimer c') = Normal tt /\
  completion (fadeOutAudio c') = Normal tt.
Proof.
  intros Hc Hops c'.
  assert (Hwf : wellFormed c') by (apply performAll_wellFormed; assumption).
  split; [exact Hwf|]. destruct Hwf as [Hws Hvol].
  apply inRange_finite in Hvol.
  repeat apply conj.
  - intros frame Hlen. unfold worklet_onmessage, bind, get, when.
    destruct (isConnected c') eqn:Hconn; [|reflexivity].
    destruct (Hws eq_refl) as [w Hw].
    unfold sendAudioBuffer. destruct (randomUUID_run c') as (p & Hp).
    unfold bind. rewrite Hp. unfold Audio.arrayBufferToBase64.
    apply Nat.leb_le in Hlen. rewrite Hlen. unfold ret, sendEvent, bind, get.
    cbn [ws isConnected set_eventProcessor]. rewrite Hw, Hconn. cbn.
    reflexivity.
  - unfold completion, runTimer, bind, get, put, emit, ret, fadeOutAudio_restore.
    destruct (timers c'); [reflexivity|]. cbn.
    destruct (audioOutput c') as [a|]; [|reflexivity].
    unfold setGainValue, bind, get, put, throw. cbn. rewrite Hvol. reflexivity.
  - unfold completion, fadeOutAudio, bind, get, put, emit, ret,
      exponentialRampToValueAtTime.
    destruct (audioOutput c'); reflexivity.
Qed.

Lemma callbacks_never_throw_witness :
  wellFormed
    (performAll 2 8
       [SocketOpened; SetVolume half; FadeOutAudio; SendEvent sessionUpdate;
        EndSession; SocketClosed] connected) /\
  (forall frame, length frame <= 8 ->
     completion
       (worklet_onmessage 8 frame
          (performAll 2 8
             [SocketOpened; SetVolume half; FadeOutAudio; SendEvent sessionUpdate;
              EndSession; SocketClosed] connected)) = Normal tt) /\
  completion
    (runTimer
       (performAll 2 8
          [SocketOpened; SetVolume half; FadeOutAudio; SendEvent sessionUpdate;
           EndSession; SocketClosed] connected)) = Normal tt /\
  completion
    (fadeOutAudio
       (performAll 2 8
          [SocketOpened; SetVolume half; FadeOutAudio; SendEvent sessionUpdate;
           EndSession; SocketClosed] connected)) = Normal tt.
Proof.
  apply (callbacks_never_throw 2 8
           [SocketOpened; SetVolume half; FadeOutAudio; SendEvent sessionUpdate;
            EndSession; SocketClosed] connected).
  - split; [intros _; eexists; reflexivity | vm_compute; reflexivity].
  - vm_compute. repeat split. eexists. reflexivity.
Defined.
End Loop.

(** ** The message list *)

Section Messages.
Import Page.

Lemma slice_prefix {A} (i : nat) (l : list A) :
  i <= length l -> slice 0 (Some (Z.of_nat i)) l = firstn i l.
Proof.
  intros Hi. unfold slice.
  change (0 <? 0)%Z with false. cbv iota.
  destruct (Z.of_nat i <? 0)%Z eqn:E; [apply Z.ltb_lt in E; lia|].
  rewrite (Z.min_l 0) by lia. rewrite Z.min_l by lia.
  change (Z.to_nat 0) with 0. cbn [skipn].
  rewrite Z.sub_0_r, Nat2Z.id. reflexivity.
Qed.

Lemma slice_suffix {A} (i : nat) (l : list A) :
  i <= length l -> slice (Z.of_nat i) None l = skipn i l.
Proof.
  intros Hi. unfold slice.
  destruct (Z.of_nat i <? 0)%Z eqn:E; [apply Z.ltb_lt in E; lia|].
  rewrite Z.min_l by lia. rewrite Nat2Z.id.
  rewrite <- Nat2Z.inj_sub by lia. rewrite Nat2Z.id.
  apply firstn_all2. rewrite length_skipn. lia.
Qed.

Lemma slice_but_last {A} (l : list A) (x : A) :
  slice 0 (Some (-1)%Z) (l ++ [x]) = l.
Proof.
  unfold slice. change (0 <? 0)%Z with false. change (-1 <? 0)%Z with true.
  cbv iota. rewrite length_app. cbn [length].
  rewrite (Z.min_l 0) by lia. rewrite Z.max_l by lia.
  change (Z.to_nat 0) with 0. cbn [skipn].
  replace (Z.to_nat (Z.of_nat (length l + 1) + -1 - 0)) with (length l) by lia.
  rewrite drop_0, firstn_app, Nat.sub_diag, firstn_all. cbn. apply app_nil_r.
Qed.

Lemma last_snoc {A} (l : list A) (x : A) :
  List.last (map Some (l ++ [x])) None = Some x.
Proof. rewrite map_app. cbn. apply last_last. Qed.

Lemma findIndex_split {A} (f : A -> bool) (l : list A) :
  (findIndex f l = (-1)%Z /\ Forall (fun x => f x = false) l) \/
  exists l1 x l2, l = l1 ++ x :: l2 /\ Forall (fun y => f y = false) l1 /\
                  f x = true /\ findIndex f l = Z.of_nat (length l1).
Proof.
  induction l as [|a l IH].
  - left. split; [reflexivity | constructor].
  - cbn [findIndex]. destruct (f a) eqn:Ea.
    + right. exists [], a, l. repeat split; [constructor | exact Ea].
    + destruct IH as [[Hi Hall]|(l1 & x & l2 & -> & Hall & Hx & Hi)].
      * left. rewrite Hi. split; [reflexivity | constructor; assumption].
      * right. exists (a :: l1), x, l2. rewrite Hi.
        destruct (Z.of_nat (length l1) <? 0)%Z eqn:E; [apply Z.ltb_lt in E; lia|].
        repeat split; [constructor; assumption | exact Hx | cbn [length]; lia].
Qed.

Lemma find_none_Forall {A} (f : A -> bool) (l : list A) :
  Forall (fun x => f x = false) l -> List.find f l = None.
Proof.
  induction 1 as [|a l Ha _ IH]; [reflexivity|]. cbn. rewrite Ha. exact IH.
Qed.

Lemma find_app {A} (f : A -> bool) (l1 l2 : list A) :
  List.find f (l1 ++ l2)
  = match List.find f l1 with Some x => Some x | None => List.find f l2 end.
Proof.
  induction l1 as [|a l1 IH]; [reflexivity|]. cbn. destruct (f a); [reflexivity|exact IH].
Qed.

Lemma find_rev_last {A} (f : A -> bool) (l1 l2 : list A) (x : A) :
  f x = true -> Forall (fun y => f y = false) l2 ->
  List.find f (rev (l1 ++ x :: l2)) = Some x.
Proof.
  intros Hx Hall. rewrite rev_app_distr. cbn [rev]. rewrite <- app_assoc.
  rewrite find_app, find_none_Forall.
  - cbn. rewrite Hx. reflexivity.
  - apply List.Forall_forall. intros y Hy. apply in_rev in Hy.
    rewrite List.Forall_forall in Hall. apply Hall. exact Hy.
Qed.

Lemma userItems_app (l1 l2 : list ChatMessage) :
  userItems (l1 ++ l2) = userItems l1 ++ userItems l2.
Proof. unfold userItems. apply omap_app. Qed.

Lemma userItems_absent (id : string) (l : list ChatMessage) :
  Forall (fun m => isUserItem id m = false) l -> ~ In id (userItems l).
Proof.
  induction 1 as [|m l Hm _ IH]; [intros []|].
  change (m :: l) with ([m] ++ l). rewrite userItems_app. intros Hin.
  apply in_app_or in Hin as [Hin|Hin]; [|exact (IH Hin)].
  unfold isUserItem in Hm. unfold userItems in Hin. cbn in Hin.
  destruct (type m); [|destruct Hin].
  destruct (item_id m) as [i|]; [|destruct Hin].
  destruct Hin as [->|[]]. rewrite String.eqb_refl in Hm. discriminate.
Qed.

Lemma userItems_present (id : string) (m : ChatMessage) :
  isUserItem id m = true -> userItems [m] = [id].
Proof.
  unfold isUserItem, userItems. cbn.
  destruct (type m); [|discriminate].
  destruct (item_id m) as [i|]; [|discriminate].
  intros H. apply String.eqb_eq in H. subst. reflexivity.
Qed.

Lemma absent_userItems (id : string) (l : list ChatMessage) :
  ~ In id (userItems l) -> Forall (fun m => isUserItem id m = false) l.
Proof.
  induction l as [|m l IH]; [constructor|].
  change (m :: l) with ([m] ++ l). rewrite userItems_app. intros Hn.
  constructor.
  - destruct (isUserItem id m) eqn:E; [|reflexivity].
    exfalso. apply Hn, in_or_app. left.
    rewrite (userItems_present id m E). left. reflexivity.
  - apply IH. intros Hin. apply Hn, in_or_app. right. exact Hin.
Qed.

Lemma find_rev_split {A} (f : A -> bool) (l1 : list A) (x : A) (l2 : list A) :
  f x = true -> exists y, List.find f (rev (l1 ++ x :: l2)) = Some y.
Proof.
  intros Hx. rewrite rev_app_distr. cbn [rev]. rewrite <- app_assoc, find_app.
  destruct (List.find f (rev l2)) as [y|]; [eauto|].
  cbn. rewrite Hx. eauto.
Qed.

Lemma upsert_found (id text now : string) (l1 l2 : list ChatMessage)
    (first last : ChatMessage) :
  Forall (fun m => isUserItem id m = false) l1 ->
  isUserItem id first = true ->
  List.find (isUserItem id) (rev (l1 ++ first :: l2)) = Some last ->
  onTranscriptComplete id text now (l1 ++ first :: l2)
  = l1 ++ withContent last text :: l2.
Proof.
  intros Hl1 Hfirst Hlast. unfold onTranscriptComplete. rewrite Hlast.
  assert (Hi : findIndex (isUserItem id) (l1 ++ first :: l2) = Z.of_nat (length l1)).
  { clear Hlast. induction Hl1 as [|a l Ha _ IH]; cbn [app findIndex length].
    - rewrite Hfirst. reflexivity.
    - rewrite Ha, IH.
      destruct (Z.of_nat (length l) <? 0)%Z eqn:E; [apply Z.ltb_lt in E; lia|]. lia. }
  rewrite Hi.
  rewrite slice_prefix by (rewrite length_app; lia).
  replace (Z.of_nat (length l1) + 1)%Z with (Z.of_nat (S (length l1))) by lia.
  rewrite slice_suffix by (rewrite length_app; cbn [length]; lia).
  rewrite firstn_app, Nat.sub_diag, firstn_all. cbn [firstn]. rewrite app_nil_r.
  replace (S (length l1)) with (length (l1 ++ [first])) by (rewrite length_app; cbn; lia).
  replace (l1 ++ first :: l2) with ((l1 ++ [first]) ++ l2)
    by (rewrite <- app_assoc; reflexivity).
  rewrite skipn_app, Nat.sub_diag, skipn_all. reflexivity.
Qed.

Lemma upsert_absent (id text now : string) (prev : list ChatMessage) :
  Forall (fun m => isUserItem id m = false) prev ->
  onTranscriptComplete id text now prev
  = prev ++ [{| content := text; timestamp := now; item_id := Some id;
                type := user |}].
Proof.
  intros Hall. unfold onTranscriptComplete. rewrite find_none_Forall; [reflexivity|].
  apply List.Forall_forall. intros y Hy. apply in_rev in Hy.
  rewrite List.Forall_forall in Hall. apply Hall, Hy.
Qed.

Lemma NoDup_unique (id : string) (l1 l2 : list ChatMessage) (x : ChatMessage) :
  NoDup (userItems (l1 ++ x :: l2)) -> isUserItem id x = true ->
  Forall (fun m => isUserItem id m = false) l1 /\
  Forall (fun m => isUserItem id m = false) l2.
Proof.
  intros Hnd Hx. change (x :: l2) with ([x] ++ l2) in Hnd.
  rewrite !userItems_app, (userItems_present id x Hx) in Hnd.
  apply NoDup_ListNoDup in Hnd.
  split; apply absent_userItems; intros Hin.
  - apply NoDup_remove_2 in Hnd. apply Hnd, in_or_app. left. exact Hin.
  - apply NoDup_remove_2 in Hnd. apply Hnd, in_or_app. right. exact Hin.
Qed.

(** X25.  On a list whose user messages have distinct items, a completed
    transcript replaces the content of the user message of its item and
    leaves every other message, and the order, as they were; when no user
    message has the item, one is appended.  The start of speech does the
    same with the empty content. *)
Theorem transcript_updates_its_message (id transcript now : string)
    (prev : list ChatMessage) :
  NoDup (userItems prev) ->
  (forall l1 x l2, prev = l1 ++ x :: l2 -> isUserItem id x = true ->
     onTranscriptComplete id transcript now prev
     = l1 ++ withContent x transcript :: l2) /\
  (Forall (fun m => isUserItem id m = false) prev ->
     onTranscriptComplete id transcript now prev
     = prev ++ [{| content := transcript; timestamp := now; item_id := Some id;
                   type := user |}]) /\
  onSpeechStart id now prev = onTranscriptComplete id "" now prev.
Proof.
  intros Hnd. split; [|split; [apply upsert_absent | reflexivity]].
  intros l1 x l2 -> Hx.
  destruct (NoDup_unique id l1 l2 x Hnd Hx) as [H1 H2].
  apply upsert_found; [exact H1 | exact Hx | apply find_rev_last; assumption].
Qed.

Lemma transcript_updates_its_message_witness :
  onTranscriptComplete "item_1" "Hello" "10:03" [spoken; answer]
  = [withContent spoken "Hello"; answer].
Proof.
  assert (Hnd : NoDup (userItems [spoken; answer])).
  { apply NoDup_singleton. }
  apply (proj1 (transcript_updates_its_message "item_1" "Hello" "10:03"
                  [spoken; answer] Hnd) [] spoken [answer]); reflexivity.
Defined.

Lemma list_snoc_cases {A} (l : list A) : l = [] \/ exists l' x, l = l' ++ [x].
Proof.
  destruct l as [|a l]; [left; reflexivity|]. right.
  destruct (exists_last (l := a :: l)) as (l' & x & H); [discriminate|].
  exists l', x. exact H.
Qed.

Lemma onTextDelta_snoc (id delta now : string) (l : list ChatMessage)
    (x : ChatMessage) :
  onTextDelta id delta now (l ++ [x])
  = if isAssistantItem id x
    then l ++ [withContent x (content x +:+ delta)]
    else (l ++ [x]) ++ [{| content := delta; timestamp := now;
                           item_id := Some id; type := assistant |}].
Proof.
  unfold onTextDelta. rewrite last_snoc, slice_but_last. reflexivity.
Qed.

Lemma onTextDone_snoc (id text now : string) (l : list ChatMessage)
    (x : ChatMessage) :
  onTextDone id text now (l ++ [x])
  = if isAssistantItem id x
    then l ++ [withContent x text]
    else (l ++ [x]) ++ [{| content := text; timestamp := now;
                           item_id := Some id; type := assistant |}].
Proof.
  unfold onTextDone. rewrite last_snoc, slice_but_last. reflexivity.
Qed.

Lemma append_assoc (a b c : string) : (a +:+ b) +:+ c = a +:+ (b +:+ c).
Proof.
  induction a as [|x a IH]; [reflexivity|].
  change (String x a +:+ b) with (String x (a +:+ b)).
  change (String x (a +:+ b) +:+ c) with (String x ((a +:+ b) +:+ c)).
  change (String x a +:+ (b +:+ c)) with (String x (a +:+ (b +:+ c))).
  rewrite IH. reflexivity.
Qed.

Lemma isAssistantItem_new (id text now : string) :
  isAssistantItem id {| content := text; timestamp := now; item_id := Some id;
                        type := assistant |} = true.
Proof. unfold isAssistantItem. cbn. apply String.eqb_refl. Qed.

(** X26.  Two text deltas of an item, one after the other, give the list
    that one delta with the two texts joined gives: the answer grows in
    the last message, which keeps the time of the first delta. *)
Theorem text_deltas_accumulate (id delta delta' now now' : string)
    (prev : list ChatMessage) :
  onTextDelta id delta' now' (onTextDelta id delta now prev)
  = onTextDelta id (delta +:+ delta') now prev.
Proof.
  destruct (list_snoc_cases prev) as [->|(l & x & ->)].
  - change (onTextDelta id delta now [])
      with ([] ++ [{| content := delta; timestamp := now; item_id := Some id;
                      type := assistant |}]).
    rewrite onTextDelta_snoc, isAssistantItem_new. reflexivity.
  - rewrite !onTextDelta_snoc. destruct (isAssistantItem id x) eqn:E.
    + rewrite onTextDelta_snoc.
      change (isAssistantItem id (withContent x (content x +:+ delta)))
        with (isAssistantItem id x).
      rewrite E. unfold withContent. cbn. rewrite append_assoc. reflexivity.
    + rewrite onTextDelta_snoc, isAssistantItem_new. reflexivity.
Qed.

(** X27.  The final text of an item replaces what its deltas have
    accumulated: the list after a delta and the final text is the list
    after the final text alone, and a repeated final text changes
    nothing. *)
Theorem text_done_overrides_deltas (id delta text now now' : string)
    (prev : list ChatMessage) :
  onTextDone id text now' (onTextDelta id delta now prev)
  = onTextDone id text now prev /\
  onTextDone id text now' (onTextDone id text now prev)
  = onTextDone id text now prev.
Proof.
  destruct (list_snoc_cases prev) as [->|(l & x & ->)].
  - change (onTextDelta id delta now [])
      with ([] ++ [{| content := delta; timestamp := now; item_id := Some id;
                      type := assistant |}]).
    change (onTextDone id text now [])
      with ([] ++ [{| content := text; timestamp := now; item_id := Some id;
                      type := assistant |}]).
    rewrite !onTextDone_snoc, !isAssistantItem_new. split; reflexivity.
  - rewrite !onTextDelta_snoc, !onTextDone_snoc.
    destruct (isAssistantItem id x) eqn:E.
    + rewrite !onTextDone_snoc.
      change (isAssistantItem id (withContent x (content x +:+ delta)))
        with (isAssistantItem id x).
      change (isAssistantItem id (withContent x text))
        with (isAssistantItem id x).
      rewrite E. split; reflexivity.
    + rewrite !onTextDone_snoc, !isAssistantItem_new. split; reflexivity.
Qed.

Lemma userItems_withContent (m : ChatMessage) (text : string) :
  userItems [withContent m text] = userItems [m].
Proof. reflexivity. Qed.

Lemma upsert_userItems (id text now : string) (prev : list ChatMessage) :
  NoDup (userItems prev) ->
  NoDup (userItems (onTranscriptComplete id text now prev)).
Proof.
  intros Hnd.
  destruct (findIndex_split (isUserItem id) prev)
    as [[_ Hall]|(l1 & x & l2 & -> & H1 & Hx & _)].
  - rewrite upsert_absent by exact Hall. rewrite userItems_app.
    change (userItems [_]) with [id].
    apply NoDup_app. split; [exact Hnd|]. split; [|apply NoDup_singleton].
    intros y Hy Hin. apply list_elem_of_singleton in Hin. subst y.
    apply (userItems_absent id prev Hall). apply list_elem_of_In. exact Hy.
  - destruct (NoDup_unique id l1 l2 x Hnd Hx) as [_ H2].
    rewrite (upsert_found id text now l1 l2 x x H1 Hx)
      by (apply find_rev_last; assumption).
    change (withContent x text :: l2) with ([withContent x text] ++ l2).
    change (x :: l2) with ([x] ++ l2) in Hnd.
    rewrite !userItems_app in *. rewrite userItems_withContent. exact Hnd.
Qed.

Lemma text_userItems (l : list ChatMessage) (x : ChatMessage) (id text now text' : string) :
  userItems (if isAssistantItem id x
             then l ++ [withContent x text]
             else (l ++ [x]) ++ [{| content := text'; timestamp := now;
                                    item_id := Some id; type := assistant |}])
  = userItems (l ++ [x]).
Proof.
  destruct (isAssistantItem id x).
  - rewrite !userItems_app, userItems_withContent. reflexivity.
  - rewrite userItems_app. cbn. apply app_nil_r.
Qed.

Lemma update_userItems (u : Update) (prev : list ChatMessage) :
  NoDup (userItems prev) -> NoDup (userItems (update prev u)).
Proof.
  intros Hnd. destruct u as [id now|id transcript now|id delta now|id text now|content now|];
    cbn [update].
  - apply (upsert_userItems id "" now prev Hnd).
  - apply upsert_userItems, Hnd.
  - destruct (list_snoc_cases prev) as [->|(l & x & ->)].
    + cbn. constructor.
    + rewrite onTextDelta_snoc, text_userItems. exact Hnd.
  - destruct (list_snoc_cases prev) as [->|(l & x & ->)].
    + cbn. constructor.
    + rewrite onTextDone_snoc, text_userItems. exact Hnd.
  - unfold handleSendMessage. rewrite userItems_app. cbn. rewrite app_nil_r. exact Hnd.
  - cbn. constructor.
Qed.

Lemma updates_userItems (us : list Update) :
  forall prev, NoDup (userItems prev) -> NoDup (userItems (fold_left update us prev)).
Proof.
  induction us as [|u us IH]; intros prev H; [exact H|].
  cbn [fold_left]. apply IH, update_userItems, H.
Qed.

(** X28.  Whatever the page does to the message list, from the empty list,
    no two user messages have the same item; so a completed transcript
    then changes the content of the one message of its item, in place. *)
Theorem user_items_stay_distinct (us : list Update) :
  NoDup (userItems (messagesAfter us)) /\
  forall id transcript now l1 x l2,
    messagesAfter us = l1 ++ x :: l2 -> isUserItem id x = true ->
    messagesAfter (us ++ [TranscriptComplete id transcript now])
    = l1 ++ withContent x transcript :: l2.
Proof.
  assert (Hnd : NoDup (userItems (messagesAfter us))).
  { apply updates_userItems. constructor. }
  split; [exact Hnd|].
  intros id transcript now l1 x l2 Heq Hx.
  unfold messagesAfter in *. rewrite fold_left_app. cbn [fold_left update].
  rewrite Heq in *.
  destruct (NoDup_unique id l1 l2 x Hnd Hx) as [H1 H2].
  apply upsert_found; [exact H1 | exact Hx | apply find_rev_last; assumption].
Qed.

(** X29.  An update other than the clearing of the list never removes a
    message: the list keeps its length or grows by one. *)
Theorem updates_never_drop_messages (u : Update) (prev : list ChatMessage) :
  u <> Clear ->
  length prev <= length (update prev u) <= S (length prev).
Proof.
  intros Hu.
  assert (Hupsert : forall id text now,
            length prev <= length (onTranscriptComplete id text now prev)
            <= S (length prev)).
  { intros id text now.
    destruct (findIndex_split (isUserItem id) prev)
      as [[_ Hall]|(l1 & x & l2 & -> & H1 & Hx & _)].
    - rewrite upsert_absent by exact Hall. rewrite length_app. cbn. lia.
    - destruct (find_rev_split (isUserItem id) l1 x l2 Hx) as (y & Hy).
      rewrite (upsert_found id text now l1 l2 x y H1 Hx Hy).
      rewrite !length_app. cbn. lia. }
  destruct u as [id now|id transcript now|id delta now|id text now|content now|];
    cbn [update].
  - apply (Hupsert id "" now).
  - apply Hupsert.
  - destruct (list_snoc_cases prev) as [->|(l & x & ->)]; [cbn; lia|].
    rewrite onTextDelta_snoc. destruct (isAssistantItem id x);
      rewrite !length_app; cbn; lia.
  - destruct (list_snoc_cases prev) as [->|(l & x & ->)]; [cbn; lia|].
    rewrite onTextDone_snoc. destruct (isAssistantItem id x);
      rewrite !length_app; cbn; lia.
  - unfold handleSendMessage. rewrite length_app. cbn. lia.
  - contradiction.
Qed.

Lemma updates_never_drop_messages_witness :
  length [spoken; answer]
  <= length (update [spoken; answer] (TextDelta "item_2" "lo" "10:03"))
  <= S (length [spoken; answer]).
Proof.
  apply (updates_never_drop_messages (TextDelta "item_2" "lo" "10:03")
           [spoken; answer]).
  discriminate.
Defined.
End Messages.
